(** * Kujira: rendering and world-query engine (src/main.c)

    A shallow embedding of the parts of [main.c] that the specification
    talks about and of the routines around them (bitmap helpers, the
    views, the camera), and the properties checked against it.

    Conventions.
    - A C [int] / [unsigned int] is a [Z]; where the source relies on the
      32-bit pattern (packed colours) the reduction modulo 2^32 is written
      out ([u32]).
    - A C [float] is the rational number it denotes.  Every single
      precision operation is the exact rational operation followed by
      [F32.round], IEEE-754 binary32 round-to-nearest-even (24 bit
      significand, least exponent -149).  NaN, infinities and the sign of
      zero are outside the model; no computation below leaves the finite
      range.  [F32.round] is compared with the Standard Library's
      [SpecFloat] operations in [F32Facts.round_agrees_with_SpecFloat].
    - A heap array is a [list Z]; a read or write outside the array is
      undefined behaviour in C and [None] here. *)

From Stdlib Require Import ZArith QArith Qround Qcanon Lia Lqa List Bool.
From Stdlib Require Import Sorting.Sorted Sorting.Permutation.
From Stdlib Require Import Floats.SpecFloat.
From stdpp Require Import base list gmap.

Local Open Scope Z_scope.

(** ** Constants of [main.c] *)

Definition TILESIZE : Z := 48.
Definition DISPLAY_PW : Z := 960.
Definition DISPLAY_PH : Z := 540.
Definition DISPLAY_TW : Z := DISPLAY_PW ÷ TILESIZE.
Definition DISPLAY_TH : Z := DISPLAY_PH ÷ TILESIZE.
Definition MAPLENGTH : Z := 2000.
Definition MAPWIDTH : Z := 2000.
Definition MAPHEIGHT : Z := 2000.
Definition SCROLL_TW : Z := DISPLAY_TW - 5.
Definition SCROLL_TH : Z := DISPLAY_TH - 5.
Definition SCROLL_PW : Z := SCROLL_TW * TILESIZE.
Definition SCROLL_PH : Z := SCROLL_TH * TILESIZE.

(** ** Single precision arithmetic *)

Module F32.

(** The value of a finite binary32 number. *)
Definition float : Type := Q.
Bind Scope Q_scope with float.

Definition prec : Z := 24.
Definition emin : Z := -149.

(** [mag q], for [q <> 0] given as a reduced fraction [n/d]: the
    exponent [e] with [2^(e-1) <= |q| < 2^e]. *)
Definition mag (n d : Z) : Z :=
  if d <=? Z.abs n
  then Z.log2 (Z.abs n / d) + 1
  else 1 - Z.log2_up ((d + Z.abs n - 1) / Z.abs n).

(** The integer nearest to [N/D] ([0 < D]), ties to the even one. *)
Definition rne_div (N D : Z) : Z :=
  let f := N / D in
  match 2 * (N mod D) ?= D with
  | Lt => f
  | Gt => f + 1
  | Eq => if Z.even f then f else f + 1
  end.

(** [m * 2^e] as a fraction. *)
Definition scale2 (m e : Z) : Q :=
  if 0 <=? e then inject_Z (m * 2 ^ e) else Qmake m (Z.to_pos (2 ^ (- e))).

(** Exponent of the last place kept for a value of magnitude [mg]. *)
Definition fexp (mg : Z) : Z := Z.max (mg - prec) emin.

Definition round (q : Q) : float :=
  let q' := Qred q in
  let n := Qnum q' in
  let d := Zpos (Qden q') in
  if n =? 0 then 0%Q
  else
    let e := fexp (mag n d) in
    let m := if 0 <=? e then rne_div n (d * 2 ^ e)
             else rne_div (n * 2 ^ (- e)) d in
    Qred (scale2 m e).

Definition of_int (n : Z) : float := round (inject_Z n).
Definition add (x y : float) : float := round (x + y).
Definition sub (x y : float) : float := round (x - y).
Definition mul (x y : float) : float := round (x * y).
Definition div (x y : float) : float := round (x / y).

(** C conversion of a floating value to [int]: truncation toward zero. *)
Definition to_int (x : float) : Z := Qnum x ÷ Zpos (Qden x).

(** [floor], [ceil] and [round] of <math.h>; the last one rounds halves
    away from zero. *)
Definition floor (x : float) : Z := Qfloor x.
Definition ceil (x : float) : Z := Qceiling x.
Definition round_away (x : float) : Z :=
  if Qle_bool 0 x then Qfloor (x + (1 # 2)) else Qceiling (x - (1 # 2)).

Definition ltb (x y : float) : bool := negb (Qle_bool y x).
Definition geb (x y : float) : bool := Qle_bool y x.

(** *** The same operations in the Standard Library's [SpecFloat] *)

Definition SF2Q (x : spec_float) : Q :=
  match x with
  | S754_finite s m e => scale2 (if s then Z.neg m else Z.pos m) e
  | _ => 0%Q
  end.
Definition SFof_int (n : Z) : spec_float := binary_normalize 24 128 n 0 false.

(** [round] against [SpecFloat] at binary32 ([prec = 24], [emax = 128]):
    every quotient [n/255] of [applyColor], and one blend per alpha. *)
Definition agree_div (a b : Z) : bool :=
  Qeq_bool (div (of_int a) (of_int b))
           (SF2Q (SFdiv 24 128 (SFof_int a) (SFof_int b))).

Definition agree_blend (al d s : Z) : bool :=
  let a := div (of_int al) (of_int 255) in
  let a' := SFdiv 24 128 (SFof_int al) (SFof_int 255) in
  Qeq_bool
    (add (mul (sub 1 a) (of_int d)) (mul a (of_int s)))
    (SF2Q (SFadd 24 128
             (SFmul 24 128 (SFsub 24 128 (SFof_int 1) a') (SFof_int d))
             (SFmul 24 128 a' (SFof_int s)))).

End F32.

Bind Scope Q_scope with F32.float.

(** ** Packed colours and [applyColor] *)

Definition u32 (z : Z) : Z := z mod 2 ^ 32.

(** The four channels of a packed colour, as the source extracts them. *)
Definition chanR (c : Z) : Z := Z.land (Z.shiftr c 24) 255.
Definition chanG (c : Z) : Z := Z.land (Z.shiftr c 16) 255.
Definition chanB (c : Z) : Z := Z.land (Z.shiftr c 8) 255.
Definition chanA (c : Z) : Z := Z.land c 255.

(** [applyColor(src, dest)]: the value left in [*dest].  The three [int]s
    are initialised from [float] expressions, which C converts by
    truncation; the final [|] of [int]s and an [unsigned] is taken modulo
    2^32. *)
Definition applyColor (src dest : Z) : Z :=
  let a := F32.div (F32.of_int (Z.land src 255)) 255 in
  let r := F32.to_int
             (F32.add (F32.mul (F32.sub 1 a) (F32.of_int (Z.land (Z.shiftr dest 24) 255)))
                      (F32.mul a (F32.of_int (Z.land (Z.shiftr src 24) 255)))) in
  let g := F32.to_int
             (F32.add (F32.mul (F32.sub 1 a) (F32.of_int (Z.land (Z.shiftr dest 16) 255)))
                      (F32.mul a (F32.of_int (Z.land (Z.shiftr src 16) 255)))) in
  let b := F32.to_int
             (F32.add (F32.mul (F32.sub 1 a) (F32.of_int (Z.land (Z.shiftr dest 8) 255)))
                      (F32.mul a (F32.of_int (Z.land (Z.shiftr src 8) 255)))) in
  u32 (Z.lor (Z.lor (Z.lor (Z.shiftl r 24) (Z.shiftl g 16)) (Z.shiftl b 8))
             (Z.land src 255)).

(** The specification's wording of one blended channel, for alpha [al],
    destination channel [d] and source channel [s]:
    [round((1-t)*d + t*s)] with [t = al/255]. *)
Definition blend_channel_round (al d s : Z) : Z :=
  let t := (inject_Z al / 255)%Q in
  F32.round_away ((1 - t) * inject_Z d + t * inject_Z s)%Q.

(** The same channel as the code computes it: single precision, then
    truncation. *)
Definition blend_channel (al d s : Z) : Z :=
  let t := F32.div (F32.of_int al) 255 in
  F32.to_int (F32.add (F32.mul (F32.sub 1 t) (F32.of_int d))
                      (F32.mul t (F32.of_int s))).

(** For each alpha [al], the two weights [t] and [1 - t] as the code
    rounds them: both are non-negative and they sum to at most
    [1 + 2^-20]. *)
Definition weights_ok (al : Z) : bool :=
  let t := F32.div (F32.of_int al) 255 in
  let u := F32.sub 1 t in
  Qle_bool 0 t && Qle_bool 0 u && Qle_bool (t + u) (1 + (1 # 1048576)).

(** ** Heap arrays and loops *)

(** [*(p + i)] as an rvalue, and [*(p + i) = v]. *)
Definition load (buf : list Z) (i : Z) : option Z :=
  if i <? 0 then None else buf !! Z.to_nat i.

Definition store (buf : list Z) (i v : Z) : option (list Z) :=
  if (0 <=? i) && (i <? Z.of_nat (length buf))
  then Some (<[Z.to_nat i := v]> buf) else None.

(** [calloc(n, sizeof(int))] *)
Definition calloc (n : Z) : list Z := replicate (Z.to_nat n) 0.

(** [for (i = lo; i < lo + n; ++i) body], threading the state [s]; the
    loop stops at the first undefined step. *)
Fixpoint for_loop {S : Type} (n : nat) (i : Z) (body : Z -> S -> option S) (s : S)
  : option S :=
  match n with
  | O => Some s
  | Datatypes.S n' =>
      match body i s with
      | Some s' => for_loop n' (i + 1) body s'
      | None => None
      end
  end.

Definition for_range {S : Type} (lo hi : Z) (body : Z -> S -> option S) (s : S)
  : option S :=
  for_loop (Z.to_nat (hi - lo)) lo body s.

(** ** Bitmaps *)

Record Bitmap : Type := mkBitmap { data : list Z; width : Z; height : Z }.

(** The pixel at column [x] of row [y]. *)
Definition pixel (b : Bitmap) (x y : Z) : option Z := load (data b) (y * width b + x).

(** [scaleBitmap(bitmap, scale)].  The loop state is the new pixel array
    and the row pointer [dest], kept as an offset into it. *)
Definition scaleBitmap (bitmap : Bitmap) (scale : F32.float) : option Bitmap :=
  let w := width bitmap in
  let h := height bitmap in
  let wScaled := F32.mul (F32.of_int w) scale in
  let hScaled := F32.mul (F32.of_int h) scale in
  let wRatio := F32.div (F32.of_int w) wScaled in
  let hRatio := F32.div (F32.of_int h) hScaled in
  let scaled_data := calloc (F32.to_int (F32.mul wScaled hScaled)) in
  let scaled_width := F32.to_int wScaled in
  let scaled_height := F32.to_int hScaled in
  match
    for_range 0 scaled_height
      (fun y '(buf, dest) =>
         let yStride := F32.to_int (F32.mul (F32.of_int y) hRatio) * width bitmap in
         match
           for_range 0 scaled_width
             (fun x buf =>
                match load (data bitmap) (yStride + F32.to_int (F32.mul (F32.of_int x) wRatio)) with
                | Some v => store buf (dest + x) v
                | None => None
                end) buf
         with
         | Some buf' => Some (buf', dest + scaled_width)
         | None => None
         end)
      (scaled_data, 0)
  with
  | Some (buf, _) => Some (mkBitmap buf scaled_width scaled_height)
  | None => None
  end.

(** One bilinear channel of [rotateBitmap]: [(1 - d) * p + d * q]. *)
Definition lerp (d p q : F32.float) : F32.float :=
  F32.add (F32.mul (F32.sub 1 d) p) (F32.mul d q).

(** [rotateBitmap(bitmap, angle)], given the two values
    [angleSin = (float)sin(angle)] and [angleCos = (float)cos(angle)] that
    the source obtains from <math.h>. *)
Definition rotateBitmap (bitmap : Bitmap) (angleSin angleCos : F32.float) : option Bitmap :=
  let w := width bitmap in
  let h := height bitmap in
  let rotated_data := calloc (w * h) in
  let cx := F32.of_int (w ÷ 2) in
  let cy := F32.of_int (h ÷ 2) in
  match
    for_range 0 h
      (fun y '(buf, dest) =>
         match
           for_range 0 w
             (fun x buf =>
                let rx := F32.add (F32.sub (F32.mul (F32.sub (F32.of_int x) cx) angleCos)
                                           (F32.mul (F32.sub (F32.of_int y) cx) angleSin)) cx in
                let ry := F32.add (F32.add (F32.mul (F32.sub (F32.of_int x) cx) angleSin)
                                           (F32.mul (F32.sub (F32.of_int y) cy) angleCos)) cy in
                if F32.ltb rx 0 || F32.ltb ry 0
                   || F32.geb rx (F32.of_int (w - 1)) || F32.geb ry (F32.of_int (h - 1))
                then Some buf
                else
                  match load (data bitmap) (F32.floor ry * w + F32.floor rx),
                        load (data bitmap) (F32.floor ry * w + F32.ceil rx),
                        load (data bitmap) (F32.ceil ry * w + F32.floor rx),
                        load (data bitmap) (F32.ceil ry * w + F32.ceil rx),
                        load buf (dest + x)
                  with
                  | Some tl, Some tr, Some bl, Some br, Some old =>
                      let dx := F32.sub rx (inject_Z (F32.floor rx)) in
                      let dy := F32.sub ry (inject_Z (F32.floor ry)) in
                      let ch (c sh : Z) := F32.of_int (Z.land (Z.shiftr c sh) 255) in
                      let topA := lerp dx (ch tl 24) (ch tr 24) in
                      let topR := lerp dx (ch tl 16) (ch tr 16) in
                      let topG := lerp dx (ch tl 8) (ch tr 8) in
                      let topB := lerp dx (ch tl 0) (ch tr 0) in
                      let botA := lerp dx (ch bl 24) (ch br 24) in
                      let botR := lerp dx (ch bl 16) (ch br 16) in
                      let botG := lerp dx (ch bl 8) (ch br 8) in
                      let botB := lerp dx (ch bl 0) (ch br 0) in
                      let a := lerp dy topA botA in
                      let r := lerp dy topR botR in
                      let g := lerp dy topG botG in
                      let b := lerp dy topB botB in
                      let color :=
                        u32 (Z.lor (Z.lor (Z.lor (Z.lor 0 (Z.shiftl (F32.round_away r) 24))
                                                 (Z.shiftl (F32.round_away g) 16))
                                          (Z.shiftl (F32.round_away b) 8))
                                   (Z.shiftl (F32.round_away a) 0)) in
                      store buf (dest + x) (applyColor color old)
                  | _, _, _, _, _ => None
                  end) buf
         with
         | Some buf' => Some (buf', dest + w)
         | None => None
         end)
      (rotated_data, 0)
  with
  | Some (buf, _) => Some (mkBitmap buf w h)
  | None => None
  end.

(** A buffer whose first [k] cells hold [out] and whose other cells are
    still zero, as [calloc] left them. *)
Definition filled (out : list Z) (k : nat) : list Z :=
  take k out ++ replicate (length out - k) 0.

(** *** What [rotateBitmap] computes at angle 0 *)

(** What the interpolation stage yields at [dx = dy = 0]: the byte the
    source calls A (bits 24-31) goes to bits 0-7, R, G, B move up by one
    byte. *)
Definition argb_to_rgba (c : Z) : Z :=
  u32 (Z.lor (Z.lor (Z.lor (Z.lor 0 (Z.shiftl (Z.land (Z.shiftr c 16) 255) 24))
                           (Z.shiftl (Z.land (Z.shiftr c 8) 255) 16))
                    (Z.shiftl (Z.land (Z.shiftr c 0) 255) 8))
             (Z.shiftl (Z.land (Z.shiftr c 24) 255) 0)).

(** The pixel that ends up at column [x], row [y] of a [w] by [h] bitmap
    rotated by 0, for the input pixel [c] at the same place. *)
Definition rot0_pixel (w h x y c : Z) : Z :=
  if (x <? w - 1) && (y <? h - 1) then applyColor (argb_to_rgba c) 0 else 0.

(** The whole pixel array of the bitmap rotated by 0. *)
Definition rot0_data (b : Bitmap) : list Z :=
  imap (fun k c => rot0_pixel (width b) (height b)
                     (Z.of_nat k mod width b) (Z.of_nat k / width b) c) (data b).

(** ** More bitmap routines: [vflipBitmap], [fillBitmap] *)

(** [vflipBitmap(bitmap)].  The state of both loops is the new pixel
    array and the write pointer [dest], an offset into it, which starts at
    the last row and steps back two rows after each row written. *)
Definition vflipBitmap (bitmap : Bitmap) : option Bitmap :=
  let w := width bitmap in
  let h := height bitmap in
  let vflipped_data := calloc (w * h) in
  match
    for_range 0 h
      (fun y '(buf, dest) =>
         match
           for_range 0 w
             (fun x '(buf, dest) =>
                match load (data bitmap) (y * w + x) with
                | Some v =>
                    match store buf dest v with
                    | Some buf' => Some (buf', dest + 1)
                    | None => None
                    end
                | None => None
                end) (buf, dest)
         with
         | Some (buf', dest') => Some (buf', dest' - w * 2)
         | None => None
         end)
      (vflipped_data, w * h - w)
  with
  | Some (buf, _) => Some (mkBitmap buf w h)
  | None => None
  end.

(** [fillBitmap(&bitmap, color)]: the bitmap after the call.  The [int]
    argument is stored into [unsigned int] cells, hence modulo 2^32. *)
Definition fillBitmap (bitmap : Bitmap) (color : Z) : option Bitmap :=
  match
    for_range 0 (height bitmap)
      (fun y buf =>
         for_range 0 (width bitmap)
           (fun x buf => store buf (y * width bitmap + x) (u32 color)) buf)
      (data bitmap)
  with
  | Some buf => Some (mkBitmap buf (width bitmap) (height bitmap))
  | None => None
  end.

(** A bitmap whose pixel array has exactly [width * height] cells. *)
Definition well_formed (b : Bitmap) : Prop :=
  0 <= width b /\ 0 <= height b /\ Z.of_nat (length (data b)) = width b * height b.

(** The first [k] cells hold [v], the others are those of [d0]. *)
Definition painted (v : Z) (d0 : list Z) (k : nat) : list Z :=
  replicate k v ++ drop k d0.

(** *** [drawRect] *)

(** [drawRect(buffer, x, y, w, h, color)]: the pixels of [buffer] after
    the call.  The loop state is the pixel array and the row pointer
    [pixel], kept as an offset into it. *)
Definition drawRect (buffer : Bitmap) (x y w h color : Z) : option Bitmap :=
  let '(w, x) := if x <? 0 then (w + x, 0) else (w, x) in
  let '(h, y) := if y <? 0 then (h + y, 0) else (h, y) in
  let w := if DISPLAY_PW <=? x + w then DISPLAY_PW - x else w in
  let h := if DISPLAY_PH <=? y + h then DISPLAY_PH - y else h in
  match
    for_range 0 h
      (fun rectY '(buf, pixel) =>
         match
           for_range 0 w
             (fun rectX buf =>
                match load buf (pixel + rectX) with
                | Some old => store buf (pixel + rectX) (applyColor color old)
                | None => None
                end) buf
         with
         | Some buf' => Some (buf', pixel + width buffer)
         | None => None
         end)
      (data buffer, y * width buffer + x)
  with
  | Some (buf, _) => Some (mkBitmap buf (width buffer) (height buffer))
  | None => None
  end.

(** The pixel [(px, py)] lies in the rectangle of corner [(x, y)], width
    [w] and height [h]. *)
Definition in_rect (x y w h px py : Z) : bool :=
  (x <=? px) && (px <? x + w) && (y <=? py) && (py <? y + h).

(** A bitmap of the size of the display. *)
Definition display_bitmap (b : Bitmap) : Prop :=
  width b = DISPLAY_PW /\ height b = DISPLAY_PH /\
  Z.of_nat (length (data b)) = DISPLAY_PW * DISPLAY_PH.

(** ** The tile world: [initMap], [borderCollide] *)

Module World.

Record Tile : Type := mkTile { x : Z; y : Z; flatCoord : Z }.

(** [tileCompare]: the sign tells the order of the two flat coordinates. *)
Definition tileCompare (a b : Tile) : Z := flatCoord a - flatCoord b.

(** *** The two <stdlib.h> routines the world relies on *)

(** [qsort(base, nmemb, size, compar)]: the C standard fixes the result
    up to the order of elements that compare equal; an insertion sort
    stands for it, and the properties below use only that the result is
    a sorted permutation. *)
Fixpoint qsort_insert (compar : Tile -> Tile -> Z) (t : Tile) (l : list Tile)
  : list Tile :=
  match l with
  | [] => [t]
  | u :: l' => if compar t u <=? 0 then t :: l else u :: qsort_insert compar t l'
  end.

Definition qsort (compar : Tile -> Tile -> Z) (base : list Tile) : list Tile :=
  fold_right (qsort_insert compar) [] base.

(** [bsearch(key, base, nmemb, size, compar)]: bisection between the
    bounds [l] (inclusive) and [u] (exclusive), as in the GNU C library.
    [fuel] bounds the number of probes; [bsearch] supplies [nmemb + 1],
    which the loop never exhausts ([bsearch_loop_spec]). *)
Fixpoint bsearch_loop (fuel : nat) (compar : Tile -> Tile -> Z) (key : Tile)
         (base : list Tile) (l u : Z) : option Tile :=
  match fuel with
  | O => None
  | S fuel' =>
      if l <? u then
        let idx := (l + u) / 2 in
        match base !! Z.to_nat idx with
        | None => None
        | Some p =>
            let comparison := compar key p in
            if comparison <? 0 then bsearch_loop fuel' compar key base l idx
            else if 0 <? comparison then bsearch_loop fuel' compar key base (idx + 1) u
            else Some p
        end
      else None
  end.

Definition bsearch (key : Tile) (base : list Tile) (nmemb : Z)
           (compar : Tile -> Tile -> Z) : option Tile :=
  bsearch_loop (S (Z.to_nat nmemb)) compar key base 0 nmemb.

(** *** [borderCollide] *)

(** 0 ("no collide") when the search finds an entry, 1 otherwise. *)
Definition borderCollide (tileArray : list Tile) (x y : Z) : Z :=
  let tile := mkTile x y (y * MAPWIDTH + x) in
  match bsearch tile tileArray MAPLENGTH tileCompare with
  | Some _ => 0
  | None => 1
  end.

(** The specification's [isWalkable]. *)
Definition isWalkable (tileArray : list Tile) (x y : Z) : bool :=
  borderCollide tileArray x y =? 0.

(** *** [initMap] *)

(** The local variables of [initMap]; [tiles] is the filled part of
    [tileArray] (so [tile - tileArray] is its length) and [calls] counts
    the calls of [rand()] made so far. *)
Record Walk : Type := mkWalk {
  wx : Z; wy : Z; r1 : Z; r2 : Z; tiles : list Tile; i : Z; calls : nat
}.

Definition walk_init : Walk := mkWalk 0 0 0 0 [] 0 0.

Section Rand.
(** [rand k] is the value of the [k]-th call of [rand()] after
    [srand(seed)]. *)
Variable rand : nat -> Z.

(** One iteration of the [while] loop. *)
Definition initMap_step (s : Walk) : Walk :=
  let mapMinX := - (MAPWIDTH ÷ 2) in
  let mapMaxX := MAPWIDTH ÷ 2 in
  let mapMinY := - (MAPHEIGHT ÷ 2) in
  let mapMaxY := MAPHEIGHT ÷ 2 in
  let x0 := wx s in
  let y0 := wy s in
  let repeat := existsb (fun p => (x p =? x0) && (y p =? y0)) (tiles s) in
  let tiles' :=
    if repeat then tiles s
    else tiles s ++ [mkTile x0 y0 (y0 * MAPWIDTH + x0)] in
  let '(r2', calls1) :=
    if Z.rem (i s) 20 =? 0 then (Z.rem (rand (calls s)) 4, S (calls s))
    else (r2 s, calls s) in
  let i' := i s + 1 in
  let r1' := Z.rem (rand calls1) 5 in
  let calls2 := S calls1 in
  let '(x1, y1) :=
    if (r1' =? 0) || ((r1' =? 4) && (r2' =? 0)) then (x0 + 1, y0)
    else if (r1' =? 1) || ((r1' =? 4) && (r2' =? 1)) then (x0 - 1, y0)
    else if (r1' =? 2) || ((r1' =? 4) && (r2' =? 2)) then (x0, y0 + 1)
    else if (r1' =? 3) || ((r1' =? 4) && (r2' =? 3)) then (x0, y0 - 1)
    else (x0, y0) in
  let x2 := if mapMaxX <? x1 then mapMaxX else x1 in
  let y2 := if mapMaxY <? y1 then mapMaxY else y1 in
  let x3 := if x2 <? mapMinX then mapMaxX else x2 in
  let y3 := if y2 <? mapMinY then mapMaxY else y2 in
  mkWalk x3 y3 r1' r2' tiles' i' calls2.

(** [while (tile - tileArray < MAPLENGTH) ...], at most [fuel]
    iterations. *)
Fixpoint initMap_loop (fuel : nat) (s : Walk) : option (list Tile) :=
  if Z.of_nat (length (tiles s)) <? MAPLENGTH then
    match fuel with
    | O => None
    | S fuel' => initMap_loop fuel' (initMap_step s)
    end
  else Some (tiles s).

(** [initMap()]: the walk, then [qsort]; the value is [tileArray]. *)
Definition initMap (fuel : nat) : option (list Tile) :=
  match initMap_loop fuel walk_init with
  | Some ts => Some (qsort tileCompare ts)
  | None => None
  end.
End Rand.

(** A sequence of [rand()] values: 1052 ones, then twos.  The walk goes
    left along [y = 0] to [x = -1000], steps once more and is set to
    [x = 1000] by the clamp, then climbs. *)
Definition rand_left_then_up (k : nat) : Z := if (k <? 1052)%nat then 1 else 2.


(** *** Order, invariants and sample inputs used in the properties *)

(** The order [qsort] sorts by. *)
Definition key_le (a b : Tile) : Prop := flatCoord a <= flatCoord b.

Definition coords (t : Tile) : Z * Z := (x t, y t).

(** A stored tile carries the flat coordinate of its own position and
    lies in the bounding box. *)
Definition tile_ok (t : Tile) : Prop :=
  flatCoord t = y t * MAPWIDTH + x t /\
  -1000 <= x t <= 1000 /\ -1000 <= y t <= 1000.

Definition walk_inv (s : Walk) : Prop :=
  NoDup (coords <$> tiles s) /\
  Forall tile_ok (tiles s) /\
  Z.of_nat (length (tiles s)) <= MAPLENGTH /\
  -1000 <= wx s <= 1000 /\ -1000 <= wy s <= 1000.

(** The map generated from [rand_left_then_up]. *)
Definition map_left_then_up : list Tile :=
  Eval vm_compute in default [] (initMap rand_left_then_up 2000).


End World.

(** ** The ripple pool: [initRipple], [animateRipple] *)

Module Ripples.

(** The allocator, as far as the pool can observe it: [calloc] hands out
    fresh block numbers, [live] is the set of blocks allocated and not
    yet freed, [frees] logs every pointer passed to [free], latest
    first. *)
Record Heap : Type := mkHeap { next_block : nat; live : gset nat; frees : list nat }.

Definition heap_init : Heap := mkHeap 0 ∅ [].

Definition heap_calloc (h : Heap) : nat * Heap :=
  (next_block h, mkHeap (S (next_block h)) ({[next_block h]} ∪ live h) (frees h)).

Definition heap_free (p : option nat) (h : Heap) : Heap :=
  match p with
  | Some b => mkHeap (next_block h) (live h ∖ {[b]}) (b :: frees h)
  | None => h
  end.

(** [struct ripple]; [bitmap_data] is the pointer [bitmap.data] ([None]
    for the null pointer of the zero-initialised array).  The pixels
    behind the pointer are not part of this model: the drawing
    statements of [animateRipple] write pixels only, through [cos] and
    [sin] of <math.h>. *)
Record Ripple : Type := mkRipple {
  bitmap_data : option nat; bitmap_width : Z; bitmap_height : Z;
  radius : F32.float; alpha : F32.float;
  tileX : Z; tileY : Z; active : Z
}.

Definition ripple_zero : Ripple := mkRipple None 0 0 0 0 0 0 0.

(** The globals [rippleArray], [rippleIndex], and the heap. *)
Record Pool : Type := mkPool { rippleArray : list Ripple; rippleIndex : Z; heap : Heap }.

Definition pool_init : Pool := mkPool (replicate 5 ripple_zero) 0 heap_init.

(** [initRipple(x, y)] *)
Definition initRipple (x y : Z) (s : Pool) : Pool :=
  let rippleIndex0 := if 4 <? rippleIndex s then 0 else rippleIndex s in
  let '(p, h) := heap_calloc (heap s) in
  let ripple := mkRipple (Some p) 100 100 20 1 x y 1 in
  mkPool (<[Z.to_nat rippleIndex0 := ripple]> (rippleArray s)) (rippleIndex0 + 1) h.

(** The body of the loop of [animateRipple] for slot [i]. *)
Definition animate_slot (s : Pool) (i : nat) : Pool :=
  match rippleArray s !! i with
  | None => s
  | Some ripple =>
      if active ripple =? 0 then s
      else
        let radius' := F32.add (radius ripple) 1 in
        let alpha' := F32.sub (alpha ripple) (F32.round (3 # 100)) in
        let grown := mkRipple (bitmap_data ripple) (bitmap_width ripple)
                              (bitmap_height ripple) radius' alpha'
                              (tileX ripple) (tileY ripple) (active ripple) in
        if F32.geb radius' (F32.of_int ((bitmap_width ripple - 5) ÷ 2))
        then mkPool (<[i := mkRipple (bitmap_data ripple) (bitmap_width ripple)
                                     (bitmap_height ripple) radius' alpha'
                                     (tileX ripple) (tileY ripple) 0]> (rippleArray s))
                    (rippleIndex s)
                    (heap_free (bitmap_data ripple) (heap s))
        else mkPool (<[i := grown]> (rippleArray s)) (rippleIndex s) (heap s)
  end.

(** [animateRipple()]: one frame. *)
Definition animateRipple (s : Pool) : Pool :=
  fold_left animate_slot (seq 0 5) s.


Definition slot_block (s : Pool) (i : nat) : option nat :=
  rippleArray s !! i ≫= bitmap_data.

(** Number of pool entries with [active] set. *)
Definition live_entries (s : Pool) : nat :=
  length (List.filter (fun r => negb (active r =? 0)) (rippleArray s)).

(** [initRipple] called once for each coordinate pair of [cs], in
    order, with nothing in between. *)
Definition spawn_all (cs : list (Z * Z)) (s : Pool) : Pool :=
  fold_left (fun s c => initRipple (fst c) (snd c) s) cs s.

(** *** Runs of the pool *)









End Ripples.

(** ** The scroll compositor: [drawBackground], [drawMap], [updateCamera] *)

Module Scroll.

(** [struct camera] *)
Record Camera : Type := mkCamera {
  tileX : Z; tileY : Z;
  pixelX : F32.float; pixelY : F32.float;
  destTileX : Z; destTileY : Z;
  accelX : F32.float; accelY : F32.float;
  velocityX : F32.float; velocityY : F32.float
}.

(** The globals [drawBackground] can reach: [cam], the two view buffers
    and the pixels of [display.buffer]. *)
Record Game : Type := mkGame {
  cam : Camera;
  bgBufferOld : Bitmap;
  bgBufferNew : Bitmap;
  display_buffer : list Z
}.

(** [*dest = v] for [dest = (unsigned int * )display.buffer + k]. *)
Definition display_store (g : Game) (k v : Z) : option Game :=
  match store (display_buffer g) k v with
  | Some d => Some (mkGame (cam g) (bgBufferOld g) (bgBufferNew g) d)
  | None => None
  end.

(** [memcpy(display.buffer, src, n * sizeof(int))] *)
Definition display_memcpy (g : Game) (src : list Z) (n : Z) : option Game :=
  if (n <=? Z.of_nat (length src)) && (n <=? Z.of_nat (length (display_buffer g)))
  then Some (mkGame (cam g) (bgBufferOld g) (bgBufferNew g)
                    (take (Z.to_nat n) src ++ drop (Z.to_nat n) (display_buffer g)))
  else None.

(** [drawBackground()] *)
Definition drawBackground (g : Game) : option Game :=
  let minX := F32.to_int (pixelX (cam g)) in
  let maxX := minX + DISPLAY_PW in
  let minY := F32.to_int (pixelY (cam g)) in
  let maxY := minY + DISPLAY_PH in
  if negb (tileX (cam g) =? destTileX (cam g))
     || negb (tileY (cam g) =? destTileY (cam g))
  then
    for_range minY maxY
      (fun y g =>
         for_range minX maxX
           (fun x g =>
              let '(src, newX, newY) :=
                if x <? 0 then (data (bgBufferNew g), x + SCROLL_PW, y)
                else if DISPLAY_PW <=? x then (data (bgBufferNew g), x - SCROLL_PW, y)
                else if y <? 0 then (data (bgBufferNew g), x, y + SCROLL_PH)
                else if DISPLAY_PH <=? y then (data (bgBufferNew g), x, y - SCROLL_PH)
                else (data (bgBufferOld g), x, y) in
              match load src (newY * DISPLAY_PW + newX) with
              | Some v =>
                  display_store g ((y - minY) * DISPLAY_PW + (x - minX)) v
              | None => None
              end) g) g
  else display_memcpy g (data (bgBufferNew g)) (DISPLAY_PW * DISPLAY_PH).

(** *** Invariants and sample frames used in the properties *)

(** The camera and the two views of [g] are those of [g0]. *)
Definition same_views (g0 g : Game) : Prop :=
  cam g = cam g0 /\ bgBufferOld g = bgBufferOld g0 /\ bgBufferNew g = bgBufferNew g0.

(** Display-sized buffers. *)
Definition display_sized (l : list Z) : Prop :=
  Z.of_nat (length l) = DISPLAY_PW * DISPLAY_PH.

(** State of the display while the loops run, [k] pixels written: the
    views are untouched, the display keeps its size, and every pixel
    already written in the column that samples [x = -1] holds the pixel
    of the new view at [x = -1 + SCROLL_PW] of its row. *)
Definition left_edge_inv (g0 : Game) (minX k : Z) (g : Game) : Prop :=
  same_views g0 g /\
  display_sized (display_buffer g) /\
  forall y : Z,
    0 <= y < DISPLAY_PH ->
    y * DISPLAY_PW + (-1 - minX) < k ->
    load (display_buffer g) (y * DISPLAY_PW + (-1 - minX))
    = load (data (bgBufferNew g0)) (y * DISPLAY_PW + (-1 + SCROLL_PW)).

Definition npixels : nat := Z.to_nat (DISPLAY_PW * DISPLAY_PH).

(** Half way through a scroll to the left: the old view is all 1, the
    new view all 2. *)
Definition scroll_example : Game :=
  mkGame (mkCamera 0 0 (- (360)) 0 (-15) 0 0 0 0 0)
         (mkBitmap (replicate npixels 1) DISPLAY_PW DISPLAY_PH)
         (mkBitmap (replicate npixels 2) DISPLAY_PW DISPLAY_PH)
         (replicate npixels 0).

(** The camera at rest. *)
Definition still_example : Game :=
  mkGame (mkCamera 0 0 0 0 0 0 0 0 0 0)
         (mkBitmap (replicate npixels 1) DISPLAY_PW DISPLAY_PH)
         (mkBitmap (replicate npixels 2) DISPLAY_PW DISPLAY_PH)
         (replicate npixels 0).

Definition still_after : Game :=
  mkGame (mkCamera 0 0 0 0 0 0 0 0 0 0)
         (mkBitmap (replicate npixels 1) DISPLAY_PW DISPLAY_PH)
         (mkBitmap (replicate npixels 2) DISPLAY_PW DISPLAY_PH)
         (take npixels (replicate npixels 2) ++ drop npixels (replicate npixels 0)).

(** *** [drawMap] *)

(** The three colours of a rendered view. *)
Definition gold : Z := 0xeb9b34ff.
Definition black : Z := 0x000000ff.
Definition blue : Z := 0x4f4f9fff.

(** [bsearch(&tile, tileArray, ...)] for the tile at [(x, y)], as a
    truth value: the test of [drawMap] and of [borderCollide]. *)
Definition tile_found (tileArray : list World.Tile) (x y : Z) : bool :=
  match World.bsearch (World.mkTile x y (y * MAPWIDTH + x)) tileArray MAPLENGTH
                      World.tileCompare with
  | Some _ => true
  | None => false
  end.

(** [memcpy(dst, src, n * sizeof(int))] between two pixel arrays. *)
Definition memcpy (dst src : list Z) (n : Z) : option (list Z) :=
  if (0 <=? n) && (n <=? Z.of_nat (length src)) && (n <=? Z.of_nat (length dst))
  then Some (take (Z.to_nat n) src ++ drop (Z.to_nat n) dst)
  else None.

(** [drawMap()]: the old view takes over the new one, and the new view
    is drawn afresh around the camera's destination tile.  The state of
    the two loops is [bgBufferNew] with [pixelX] (inner) or [pixelY]
    (outer). *)
Definition drawMap (tileArray : list World.Tile) (g : Game) : option Game :=
  match memcpy (data (bgBufferOld g)) (data (bgBufferNew g))
               (width (bgBufferNew g) * height (bgBufferNew g)) with
  | None => None
  | Some old_data =>
      let old := mkBitmap old_data (width (bgBufferNew g)) (height (bgBufferNew g)) in
      match fillBitmap (bgBufferNew g) gold with
      | None => None
      | Some new =>
          let centerX := DISPLAY_TW ÷ 2 in
          let centerY := DISPLAY_TH ÷ 2 in
          match
            for_range (destTileY (cam g) - centerY) (destTileY (cam g) + centerY + 2)
              (fun y '(new, pixelY) =>
                 match
                   for_range (destTileX (cam g) - centerX) (destTileX (cam g) + centerX + 1)
                     (fun x '(new, pixelX) =>
                        if tile_found tileArray x y then
                          match drawRect new pixelX pixelY TILESIZE TILESIZE black with
                          | None => None
                          | Some new1 =>
                              match drawRect new1 (pixelX - 2) (pixelY - 2)
                                             (TILESIZE - 2) (TILESIZE - 2) blue with
                              | None => None
                              | Some new2 => Some (new2, pixelX + TILESIZE)
                              end
                          end
                        else Some (new, pixelX + TILESIZE))
                     (new, 0)
                 with
                 | Some (new', _) => Some (new', pixelY + TILESIZE)
                 | None => None
                 end)
              (new, 0)
          with
          | Some (new', _) => Some (mkGame (cam g) old new' (display_buffer g))
          | None => None
          end
      end
  end.

(** A colour of the palette of the view. *)
Definition view_colour (c : Z) : Prop := c = gold \/ c = black \/ c = blue.

(** The view while [drawMap] draws it, the first [k] cells (row by row,
    21 to a row) done: every pixel has a colour of the palette, and a
    pixel in the 44 by 44 pixel core of a cell is blue if the cell is
    done and its tile was found, and gold otherwise. *)
Definition view_inv (tileArray : list World.Tile) (tx ty : Z) (k : Z) (b : Bitmap) : Prop :=
  display_bitmap b /\
  forall px py, 0 <= px < DISPLAY_PW -> 0 <= py < DISPLAY_PH ->
    exists v, load (data b) (py * DISPLAY_PW + px) = Some v /\ view_colour v /\
      forall c r ox oy, px = c * TILESIZE + ox -> py = r * TILESIZE + oy ->
        0 <= ox < 44 -> 0 <= oy < 44 ->
        v = if (r * 21 + c <? k) && tile_found tileArray (tx + c) (ty + r)
            then blue else gold.

(** *** What [drawBackground] shows *)

(** The pixel [drawBackground] fetches for the position [(x, y)] of the
    old view's coordinate space. *)
Definition scroll_sample (g : Game) (x y : Z) : option Z :=
  if x <? 0 then load (data (bgBufferNew g)) (y * DISPLAY_PW + (x + SCROLL_PW))
  else if DISPLAY_PW <=? x then load (data (bgBufferNew g)) (y * DISPLAY_PW + (x - SCROLL_PW))
  else if y <? 0 then load (data (bgBufferNew g)) ((y + SCROLL_PH) * DISPLAY_PW + x)
  else if DISPLAY_PH <=? y then load (data (bgBufferNew g)) ((y - SCROLL_PH) * DISPLAY_PW + x)
  else load (data (bgBufferOld g)) (y * DISPLAY_PW + x).

(** The camera is between two tiles. *)
Definition mid_scroll (c : Camera) : Prop :=
  tileX c <> destTileX c \/ tileY c <> destTileY c.

(** The pixel offsets with which [drawBackground] stays inside the
    views: one of them is 0 and the other at most one scroll step. *)
Definition offsets_ok (minX minY : Z) : Prop :=
  (minY = 0 /\ - SCROLL_PW <= minX <= SCROLL_PW) \/
  (minX = 0 /\ - SCROLL_PH <= minY <= SCROLL_PH).

(** State of the display while the loops of [drawBackground] run, [k]
    pixels written. *)
Definition scroll_inv (g0 : Game) (minX minY k : Z) (g : Game) : Prop :=
  same_views g0 g /\
  display_sized (display_buffer g) /\
  forall dx dy : Z,
    0 <= dx < DISPLAY_PW -> 0 <= dy < DISPLAY_PH ->
    dy * DISPLAY_PW + dx < k ->
    load (display_buffer g) (dy * DISPLAY_PW + dx) = scroll_sample g0 (dx + minX) (dy + minY).

(** Part of the way through a scroll down: the old view is all 1, the
    new view all 2. *)
Definition scroll_down_example : Game :=
  mkGame (mkCamera 0 0 0 100 0 6 0 1024 0 0)
         (mkBitmap (replicate npixels 1) DISPLAY_PW DISPLAY_PH)
         (mkBitmap (replicate npixels 2) DISPLAY_PW DISPLAY_PH)
         (replicate npixels 0).

(** *** [updateCamera] *)

(** [dtFrame], set once by [main]: [1.0f / 60.0f]. *)
Definition dtFrame : F32.float := F32.div 1 60.

(** [(2 * n) / pow(0.75, 2)], stored in a [float].  The power and the
    quotient are computed in double precision; for the two values of [n]
    the program uses, [SCROLL_PW] and [SCROLL_PH], both are exact (0.5625,
    then 2560 and 1024). *)
Definition scroll_accel (n : Z) : F32.float :=
  F32.round (inject_Z (2 * n) / ((3 # 4) * (3 # 4))).

Definition fopp (x : F32.float) : F32.float := Qopp x.

(** The second half of [updateCamera]: the camera moves along the axis
    on which it is away from its destination. *)
Definition camera_move (c : Camera) : Camera :=
  if negb (destTileX c =? tileX c) then
    let velocityX1 :=
      if F32.ltb (F32.of_int (SCROLL_PW ÷ 2)) (pixelX c)
         || F32.ltb (pixelX c) (F32.of_int (- SCROLL_PW ÷ 2))
      then F32.sub (velocityX c) (F32.mul (accelX c) dtFrame)
      else F32.add (velocityX c) (F32.mul (accelX c) dtFrame) in
    let pixelX1 := F32.add (pixelX c) (F32.mul velocityX1 dtFrame) in
    if F32.geb pixelX1 (F32.of_int SCROLL_PW) then
      mkCamera (tileX c + SCROLL_TW) (tileY c) 0 (pixelY c) (destTileX c) (destTileY c)
               (accelX c) (accelY c) 0 (velocityY c)
    else if F32.ltb pixelX1 (F32.of_int (- SCROLL_PW)) then
      mkCamera (tileX c - SCROLL_TW) (tileY c) 0 (pixelY c) (destTileX c) (destTileY c)
               (accelX c) (accelY c) 0 (velocityY c)
    else
      mkCamera (tileX c) (tileY c) pixelX1 (pixelY c) (destTileX c) (destTileY c)
               (accelX c) (accelY c) velocityX1 (velocityY c)
  else if negb (destTileY c =? tileY c) then
    let velocityY1 :=
      if F32.ltb (F32.of_int ((SCROLL_TH * TILESIZE) ÷ 2)) (pixelY c)
         || F32.ltb (pixelY c) (F32.of_int (- SCROLL_PH ÷ 2))
      then F32.sub (velocityY c) (F32.mul (accelY c) dtFrame)
      else F32.add (velocityY c) (F32.mul (accelY c) dtFrame) in
    let pixelY1 := F32.add (pixelY c) (F32.mul velocityY1 dtFrame) in
    if F32.geb pixelY1 (F32.of_int SCROLL_PH) then
      mkCamera (tileX c) (tileY c + SCROLL_TH) (pixelX c) 0 (destTileX c) (destTileY c)
               (accelX c) (accelY c) (velocityX c) 0
    else if F32.ltb pixelY1 (F32.of_int (- SCROLL_PH)) then
      mkCamera (tileX c) (tileY c - SCROLL_TH) (pixelX c) 0 (destTileX c) (destTileY c)
               (accelX c) (accelY c) (velocityX c) 0
    else
      mkCamera (tileX c) (tileY c) (pixelX c) pixelY1 (destTileX c) (destTileY c)
               (accelX c) (accelY c) (velocityX c) velocityY1
  else c.

(** [cam.accelX = a; cam.destTileX = d; drawMap();] and the same for
    the other axis. *)
Definition start_scroll_x (tileArray : list World.Tile) (a : F32.float) (d : Z) (g : Game)
  : option Game :=
  let c := cam g in
  drawMap tileArray
    (mkGame (mkCamera (tileX c) (tileY c) (pixelX c) (pixelY c) d (destTileY c)
                      a (accelY c) (velocityX c) (velocityY c))
            (bgBufferOld g) (bgBufferNew g) (display_buffer g)).

Definition start_scroll_y (tileArray : list World.Tile) (a : F32.float) (d : Z) (g : Game)
  : option Game :=
  let c := cam g in
  drawMap tileArray
    (mkGame (mkCamera (tileX c) (tileY c) (pixelX c) (pixelY c) (destTileX c) d
                      (accelX c) a (velocityX c) (velocityY c))
            (bgBufferOld g) (bgBufferNew g) (display_buffer g)).

(** [updateCamera()], with the player at tile [(player_x, player_y)]. *)
Definition updateCamera (tileArray : list World.Tile) (player_x player_y : Z) (g : Game)
  : option Game :=
  let c := cam g in
  let started :=
    if (destTileX c =? tileX c) && (destTileY c =? tileY c) then
      let horizEdge := DISPLAY_TW ÷ 2 - 2 in
      let vertEdge := DISPLAY_TH ÷ 2 - 2 in
      if player_x - tileX c <? - horizEdge then
        start_scroll_x tileArray (fopp (scroll_accel SCROLL_PW)) (tileX c - SCROLL_TW) g
      else if horizEdge <=? player_x - tileX c then
        start_scroll_x tileArray (scroll_accel SCROLL_PW) (tileX c + SCROLL_TW) g
      else if player_y - tileY c <? - vertEdge then
        start_scroll_y tileArray (fopp (scroll_accel SCROLL_PH)) (tileY c - SCROLL_TH) g
      else if vertEdge <=? player_y - tileY c then
        start_scroll_y tileArray (scroll_accel SCROLL_PH) (tileY c + SCROLL_TH) g
      else Some g
    else Some g in
  match started with
  | Some g1 =>
      Some (mkGame (camera_move (cam g1)) (bgBufferOld g1) (bgBufferNew g1)
                   (display_buffer g1))
  | None => None
  end.

(** One turn of the loop of [main], as far as the background goes:
    [updateCamera(); drawBackground();]. *)
Definition game_frame (tileArray : list World.Tile) (g : Game) (player : Z * Z) : option Game :=
  match updateCamera tileArray (fst player) (snd player) g with
  | Some g1 => drawBackground g1
  | None => None
  end.

(** The loop, for the positions the player takes frame after frame. *)
Fixpoint game_frames (tileArray : list World.Tile) (players : list (Z * Z)) (g : Game)
  : option Game :=
  match players with
  | [] => Some g
  | p :: players' =>
      match game_frame tileArray g p with
      | Some g1 => game_frames tileArray players' g1
      | None => None
      end
  end.

(** [n] calls of [updateCamera] with the player where it is. *)
Fixpoint updateCamera_n (tileArray : list World.Tile) (player_x player_y : Z) (n : nat)
         (g : Game) : option Game :=
  match n with
  | O => Some g
  | S n' =>
      match updateCamera tileArray player_x player_y g with
      | Some g1 => updateCamera_n tileArray player_x player_y n' g1
      | None => None
      end
  end.

(** What [main] has set up when the loop starts: the camera zeroed at
    tile [(0, 0)], the two views allocated at the size of the display and
    drawn once by [drawMap]. *)
Definition game_start (tileArray : list World.Tile) (display : list Z) : option Game :=
  drawMap tileArray
    (mkGame (mkCamera 0 0 0 0 0 0 0 0 0 0)
            (mkBitmap (calloc (DISPLAY_PW * DISPLAY_PH)) DISPLAY_PW DISPLAY_PH)
            (mkBitmap (calloc (DISPLAY_PW * DISPLAY_PH)) DISPLAY_PW DISPLAY_PH)
            display).

(** The camera between frames: it is away from its destination along
    one axis at most; on an axis where it is at rest, pixel offset and
    velocity are 0; and the pixel offsets stay within one scroll step. *)
Definition camera_inv (c : Camera) : Prop :=
  (destTileX c = tileX c \/ destTileY c = tileY c) /\
  (destTileX c = tileX c -> pixelX c = 0%Q /\ velocityX c = 0%Q) /\
  (destTileY c = tileY c -> pixelY c = 0%Q /\ velocityY c = 0%Q) /\
  (inject_Z (- SCROLL_PW) <= pixelX c /\ pixelX c < inject_Z SCROLL_PW)%Q /\
  (inject_Z (- SCROLL_PH) <= pixelY c /\ pixelY c < inject_Z SCROLL_PH)%Q.

Definition game_inv (g : Game) : Prop :=
  camera_inv (cam g) /\
  display_bitmap (bgBufferNew g) /\ display_sized (data (bgBufferOld g)) /\
  display_sized (display_buffer g).

(** *** The course of one scroll *)

(** Velocity and pixel offset after one step along an axis, before the
    arrival test; [hi] and [lo] are the two [int]s the offset is compared
    with. *)
Definition drift (hi lo : Z) (accel : F32.float) (pv : F32.float * F32.float)
  : F32.float * F32.float :=
  let '(pixel, velocity) := pv in
  let velocity1 :=
    if F32.ltb (F32.of_int hi) pixel || F32.ltb pixel (F32.of_int lo)
    then F32.sub velocity (F32.mul accel dtFrame)
    else F32.add velocity (F32.mul accel dtFrame) in
  (F32.add pixel (F32.mul velocity1 dtFrame), velocity1).

(** Pixel offset and velocity [n] steps after a start from rest. *)
Definition glide (hi lo : Z) (accel : F32.float) (n : nat) : F32.float * F32.float :=
  Nat.iter n (drift hi lo accel) (0%Q, 0%Q).

(** The offset has not reached [full] or passed [-full] after the steps
    [first .. first + count - 1]. *)
Definition on_the_way (hi lo full : Z) (accel : F32.float) (first count : nat) : bool :=
  forallb (fun n =>
             let p := fst (glide hi lo accel n) in
             negb (F32.geb p (F32.of_int full)) && negb (F32.ltb p (F32.of_int (- full))))
          (seq first count).

(** Where the camera is sent when [updateCamera] finds it at rest at
    tile [(tx, ty)] with the player at [(player_x, player_y)]. *)
Definition scroll_target (tx ty player_x player_y : Z) : option (Z * Z) :=
  let horizEdge := DISPLAY_TW ÷ 2 - 2 in
  let vertEdge := DISPLAY_TH ÷ 2 - 2 in
  if player_x - tx <? - horizEdge then Some (tx - SCROLL_TW, ty)
  else if horizEdge <=? player_x - tx then Some (tx + SCROLL_TW, ty)
  else if player_y - ty <? - vertEdge then Some (tx, ty - SCROLL_TH)
  else if vertEdge <=? player_y - ty then Some (tx, ty + SCROLL_TH)
  else None.

(** The camera at rest on tile [(tx, ty)]. *)
Definition at_rest (c : Camera) (tx ty : Z) : Prop :=
  tileX c = tx /\ tileY c = ty /\ destTileX c = tx /\ destTileY c = ty /\
  pixelX c = 0%Q /\ pixelY c = 0%Q /\ velocityX c = 0%Q /\ velocityY c = 0%Q.

(** *** The ripples on the display *)

(** Where [animateRipple] puts the bitmap of a ripple at tile
    [(ripple_tileX, ripple_tileY)]: [screenX] and [screenY].  [cx] and
    [cy] are [float]s, so [screenX -= cx] and [screenX -= cam.pixelX]
    subtract in single precision and truncate back to [int]. *)
Definition ripple_screen (bitmap_width bitmap_height ripple_tileX ripple_tileY : Z)
           (c : Camera) : Z * Z :=
  let cx := F32.of_int (bitmap_width ÷ 2) in
  let cy := F32.of_int (bitmap_height ÷ 2) in
  let screenX := (ripple_tileX - tileX c + DISPLAY_TW ÷ 2) * TILESIZE in
  let screenX := F32.to_int (F32.sub (F32.of_int screenX) cx) in
  let screenX := screenX + TILESIZE ÷ 2 in
  let screenX := F32.to_int (F32.sub (F32.of_int screenX) (pixelX c)) in
  let screenY := (ripple_tileY - tileY c + DISPLAY_TH ÷ 2) * TILESIZE in
  let screenY := F32.to_int (F32.sub (F32.of_int screenY) cy) in
  let screenY := screenY + TILESIZE ÷ 2 in
  let screenY := F32.to_int (F32.sub (F32.of_int screenY) (pixelY c)) in
  (screenX, screenY).

(** The last loop of [animateRipple] for one ripple: its bitmap is
    blended onto the display from [(screenX, screenY)] on, except where
    the display is gold or black.  The loop state is the display, the
    pointer [src] (an offset into the bitmap) and, outside, the row
    pointer [dest] (an offset into the display). *)
Definition ripple_blit (bitmap : Bitmap) (screenX screenY : Z) (display : list Z)
  : option (list Z) :=
  match
    for_range 0 (height bitmap)
      (fun y '(display, src, dest) =>
         match
           for_range 0 (width bitmap)
             (fun x '(display, src) =>
                match load display (dest + x) with
                | None => None
                | Some d =>
                    if negb (d =? gold) && negb (d =? black) then
                      match load (data bitmap) src with
                      | None => None
                      | Some s =>
                          match store display (dest + x) (applyColor s d) with
                          | Some display' => Some (display', src + 1)
                          | None => None
                          end
                      end
                    else Some (display, src + 1)
                end) (display, src)
         with
         | Some (display', src') => Some (display', src', dest + DISPLAY_PW)
         | None => None
         end)
      (display, 0, screenY * DISPLAY_PW + screenX)
  with
  | Some (display', _, _) => Some display'
  | None => None
  end.

End Scroll.

(** * Properties *)

(** ** Single precision arithmetic: facts *)

Module F32Facts.

Import F32.

(** [round] agrees with [SpecFloat] on the sampled operations. *)
Lemma round_agrees_with_SpecFloat :
  forallb (fun k => agree_div (Z.of_nat k) 255
                    && agree_blend (Z.of_nat k) 200 (Z.of_nat k)
                    && agree_blend (Z.of_nat k) (255 - Z.of_nat k) 255)
          (seq 0 256) = true.
Proof. vm_compute. reflexivity. Qed.

(** *** Facts about [round] *)

Lemma round_proper (q1 q2 : Q) : q1 == q2 -> round q1 = round q2.
Proof.
  intros H. unfold round. rewrite (Qred_complete _ _ H). reflexivity.
Qed.

Lemma Qred_inject_Z (n : Z) : Qred (inject_Z n) = inject_Z n.
Proof.
  apply Qred_identity. simpl. apply Z.gcd_1_r.
Qed.

Lemma rne_div_1 (N : Z) : rne_div N 1 = N.
Proof.
  unfold rne_div. rewrite Z.mod_1_r, Z.div_1_r. reflexivity.
Qed.

Lemma rne_div_upper (N D : Z) : 0 < D -> 2 * D * rne_div N D <= 2 * N + D.
Proof.
  intros HD. unfold rne_div.
  pose proof (Z.div_mod N D ltac:(lia)) as Hdm.
  pose proof (Z.mod_pos_bound N D HD) as Hr.
  destruct (Z.compare_spec (2 * (N mod D)) D) as [He|Hl|Hg].
  - destruct (Z.even (N / D)); nia.
  - nia.
  - nia.
Qed.

Lemma rne_div_nonneg (N D : Z) : 0 <= N -> 0 < D -> 0 <= rne_div N D.
Proof.
  intros HN HD. unfold rne_div.
  assert (0 <= N / D) by (apply Z.div_pos; lia).
  destruct (2 * (N mod D) ?= D); [destruct (Z.even (N / D))| |]; lia.
Qed.

Lemma scale2_nonneg (m e : Z) : 0 <= m -> (0 <= scale2 m e)%Q.
Proof.
  intros Hm. unfold scale2. destruct (0 <=? e).
  - unfold Qle. simpl. assert (0 <= 2 ^ e) by (apply Z.pow_nonneg; lia). nia.
  - unfold Qle. simpl. lia.
Qed.

Lemma mag_le (n d k : Z) : 0 < d -> n <> 0 -> 1 <= k -> Z.abs n < 2 ^ k * d -> mag n d <= k.
Proof.
  intros Hd Hn Hk Hlt. unfold mag.
  destruct (Z.leb_spec d (Z.abs n)) as [Hle|Hgt].
  - assert (0 < Z.abs n / d) by (apply Z.div_str_pos; lia).
    assert (Z.abs n / d < 2 ^ k) by (apply Z.div_lt_upper_bound; lia).
    assert (Z.log2 (Z.abs n / d) < k) by (apply Z.log2_lt_pow2; lia).
    lia.
  - pose proof (Z.log2_up_nonneg ((d + Z.abs n - 1) / Z.abs n)). lia.
Qed.

(** Integers below [2^24] in magnitude are binary32 numbers. *)
Lemma round_inject_Z (n : Z) : Z.abs n < 2 ^ 24 -> round (inject_Z n) = inject_Z n.
Proof.
  intros Hn. unfold round. rewrite Qred_inject_Z.
  cbn [Qnum Qden inject_Z].
  destruct (Z.eqb_spec n 0) as [->|Hn0]; [reflexivity|].
  assert (Hmag : mag n 1 <= 24) by (apply mag_le; lia).
  unfold fexp, prec, emin.
  set (e := Z.max (mag n 1 - 24) (-149)).
  assert (He : -149 <= e <= 0) by lia.
  destruct (Z.leb_spec 0 e) as [H0|H0].
  - assert (e = 0) as -> by lia.
    change (1 * 2 ^ 0) with 1. rewrite rne_div_1.
    unfold scale2. cbn [Z.leb Z.compare]. rewrite Z.mul_1_r.
    apply Qred_inject_Z.
  - rewrite rne_div_1. unfold scale2.
    destruct (Z.leb_spec 0 e); [lia|].
    transitivity (Qred (inject_Z n)); [|apply Qred_inject_Z].
    apply Qred_complete.
    assert (0 < 2 ^ (- e)) by (apply Z.pow_pos_nonneg; lia).
    unfold Qeq. cbn [Qnum Qden inject_Z].
    rewrite Z2Pos.id by lia. lia.
Qed.

Lemma round_0 : round 0 = 0%Q.
Proof. reflexivity. Qed.

Lemma round_nonneg (q : Q) : (0 <= q)%Q -> (0 <= round q)%Q.
Proof.
  intros Hq. unfold round. cbv zeta.
  assert (Hn : 0 <= Qnum (Qred q)).
  { rewrite <- (Qred_correct q) in Hq. unfold Qle in Hq. simpl in Hq. lia. }
  destruct (Z.eqb_spec (Qnum (Qred q)) 0); [apply Qle_refl|].
  rewrite Qred_correct. apply scale2_nonneg.
  match goal with |- context [0 <=? ?e] => destruct (Z.leb_spec 0 e) end.
  - apply rne_div_nonneg; [exact Hn|].
    apply Z.mul_pos_pos; [lia|]. apply Z.pow_pos_nonneg; lia.
  - apply rne_div_nonneg; [|lia].
    apply Z.mul_nonneg_nonneg; [lia|]. apply Z.pow_nonneg. lia.
Qed.

(** Rounding a value in [[0, 256)] raises it by at most [2^-17]. *)
Lemma round_le_256 (q : Q) :
  (0 <= q)%Q -> (q < 256)%Q -> (round q <= q + (1 # 131072))%Q.
Proof.
  intros H0 H256.
  pose proof (Qred_correct q) as Hq.
  apply Qle_trans with (Qred q + (1 # 131072))%Q;
    [|rewrite Hq; apply Qle_refl].
  rewrite <- Hq in H0, H256. clear Hq.
  unfold round. cbv zeta.
  destruct (Qred q) as [n d]. cbn [Qnum Qden].
  unfold Qle in H0. unfold Qlt in H256. cbn [Qnum Qden] in H0, H256.
  destruct (Z.eqb_spec n 0) as [->|Hn0].
  - unfold Qle. cbn. lia.
  - assert (Hmag : mag n (Z.pos d) <= 8) by (apply mag_le; lia).
    unfold fexp, prec, emin.
    set (e := Z.max (mag n (Z.pos d) - 24) (-149)).
    assert (He : -149 <= e <= -16) by lia.
    destruct (Z.leb_spec 0 e); [lia|].
    rewrite Qred_correct. unfold scale2.
    destruct (Z.leb_spec 0 e); [lia|].
    assert (HK : 2 ^ 16 <= 2 ^ (- e)) by (apply Z.pow_le_mono_r; lia).
    set (K := 2 ^ (- e)) in *.
    pose proof (rne_div_upper (n * K) (Z.pos d) ltac:(lia)) as Hup.
    set (m := rne_div (n * K) (Z.pos d)) in *.
    unfold Qle, Qplus. cbn [Qnum Qden].
    rewrite !Pos2Z.inj_mul, Z2Pos.id by lia.
    change (2 ^ 16) with 65536 in HK.
    nia.
Qed.

(** *** Arithmetic on small integers is exact *)

Lemma of_int_small (n : Z) : Z.abs n < 2 ^ 24 -> of_int n = inject_Z n.
Proof. apply round_inject_Z. Qed.

Lemma add_int (a b : Z) :
  Z.abs (a + b) < 2 ^ 24 -> add (inject_Z a) (inject_Z b) = inject_Z (a + b).
Proof.
  intros H. unfold add.
  rewrite (round_proper _ (inject_Z (a + b))); [apply round_inject_Z; exact H|].
  unfold Qeq. simpl. lia.
Qed.

Lemma sub_int (a b : Z) :
  Z.abs (a - b) < 2 ^ 24 -> sub (inject_Z a) (inject_Z b) = inject_Z (a - b).
Proof.
  intros H. unfold sub.
  rewrite (round_proper _ (inject_Z (a - b))); [apply round_inject_Z; exact H|].
  unfold Qeq. simpl. lia.
Qed.

Lemma mul_int (a b : Z) :
  Z.abs (a * b) < 2 ^ 24 -> mul (inject_Z a) (inject_Z b) = inject_Z (a * b).
Proof.
  intros H. unfold mul.
  rewrite (round_proper _ (inject_Z (a * b))); [apply round_inject_Z; exact H|].
  unfold Qeq. simpl. lia.
Qed.


Lemma to_int_inject_Z (n : Z) : to_int (inject_Z n) = n.
Proof. unfold to_int. simpl. apply Z.quot_1_r. Qed.

Lemma to_int_floor (x : Q) : (0 <= x)%Q -> to_int x = Qfloor x.
Proof.
  intros H. destruct x as [n d]. unfold to_int, Qfloor, Qle in *.
  simpl in *. apply Z.quot_div_nonneg; lia.
Qed.

Lemma round_away_inject_Z (n : Z) : round_away (inject_Z n) = n.
Proof.
  unfold round_away.
  destruct (Qle_bool 0 (inject_Z n)).
  - unfold Qfloor, Qplus. simpl. Z.div_mod_to_equations. lia.
  - unfold Qceiling, Qfloor, Qminus, Qplus, Qopp. simpl.
    Z.div_mod_to_equations. lia.
Qed.

Lemma ltb_int (a b : Z) : ltb (inject_Z a) (inject_Z b) = (a <? b).
Proof.
  unfold ltb. destruct (Z.ltb_spec a b) as [H|H].
  - apply negb_true_iff. apply not_true_is_false. intros Hle.
    apply Qle_bool_iff in Hle. rewrite <- Zle_Qle in Hle. lia.
  - apply negb_false_iff. apply Qle_bool_iff. rewrite <- Zle_Qle. lia.
Qed.

Lemma geb_int (a b : Z) : geb (inject_Z a) (inject_Z b) = (b <=? a).
Proof.
  unfold geb. destruct (Z.leb_spec b a) as [H|H].
  - apply Qle_bool_iff. rewrite <- Zle_Qle. lia.
  - apply not_true_is_false. intros Hle.
    apply Qle_bool_iff in Hle. rewrite <- Zle_Qle in Hle. lia.
Qed.

End F32Facts.

(** ** Packed colours: properties *)

(** *** Bit-level facts about packing four bytes *)

Lemma lor_shiftl_add (hi lo k : Z) :
  0 <= k -> 0 <= lo < 2 ^ k -> Z.lor (Z.shiftl hi k) lo = hi * 2 ^ k + lo.
Proof.
  intros Hk Hlo.
  assert (Hdisj : Z.land (Z.shiftl hi k) lo = 0).
  { apply Z.bits_inj'. intros n Hn.
    rewrite Z.land_spec, Z.bits_0.
    destruct (Z.ltb_spec n k) as [Hlt|Hge].
    - rewrite Z.shiftl_spec_low by lia. reflexivity.
    - rewrite <- (Z.mod_small lo (2 ^ k)) by lia.
      rewrite Z.mod_pow2_bits_high by lia. apply andb_false_r. }
  rewrite <- Z.lxor_lor by exact Hdisj.
  rewrite <- Z.add_nocarry_lxor by exact Hdisj.
  rewrite Z.shiftl_mul_pow2 by lia. reflexivity.
Qed.

Lemma pack_value (r g b a : Z) :
  0 <= r <= 255 -> 0 <= g <= 255 -> 0 <= b <= 255 -> 0 <= a <= 255 ->
  u32 (Z.lor (Z.lor (Z.lor (Z.shiftl r 24) (Z.shiftl g 16)) (Z.shiftl b 8)) a)
  = r * 2 ^ 24 + g * 2 ^ 16 + b * 2 ^ 8 + a.
Proof.
  intros Hr Hg Hb Ha.
  replace (Z.shiftl r 24) with (Z.shiftl (Z.shiftl r 8) 16)
    by (rewrite Z.shiftl_shiftl by lia; reflexivity).
  rewrite <- Z.shiftl_lor.
  rewrite (lor_shiftl_add r g 8) by lia.
  replace (Z.shiftl (r * 2 ^ 8 + g) 16) with (Z.shiftl (Z.shiftl (r * 2 ^ 8 + g) 8) 8)
    by (rewrite Z.shiftl_shiftl by lia; reflexivity).
  rewrite <- Z.shiftl_lor.
  rewrite (lor_shiftl_add (r * 2 ^ 8 + g) b 8) by lia.
  rewrite (lor_shiftl_add _ a 8) by lia.
  unfold u32. rewrite Z.mod_small by lia. lia.
Qed.

Lemma land_255 (x : Z) : Z.land x 255 = x mod 256.
Proof. change 255 with (Z.ones 8). rewrite Z.land_ones by lia. reflexivity. Qed.

Lemma land_255_range (x : Z) : 0 <= Z.land x 255 <= 255.
Proof. rewrite land_255. pose proof (Z.mod_pos_bound x 256). lia. Qed.

Lemma pack_channels (r g b a : Z) :
  0 <= r <= 255 -> 0 <= g <= 255 -> 0 <= b <= 255 -> 0 <= a <= 255 ->
  let p := u32 (Z.lor (Z.lor (Z.lor (Z.shiftl r 24) (Z.shiftl g 16)) (Z.shiftl b 8)) a) in
  chanR p = r /\ chanG p = g /\ chanB p = b /\ chanA p = a.
Proof.
  intros Hr Hg Hb Ha p. subst p. rewrite pack_value by assumption.
  unfold chanR, chanG, chanB, chanA.
  rewrite !land_255, !Z.shiftr_div_pow2 by lia.
  change (2 ^ 24) with 16777216. change (2 ^ 16) with 65536. change (2 ^ 8) with 256.
  repeat split; Z.div_mod_to_equations; lia.
Qed.

(** Every word below 2^32 is the packing of its four channels. *)
Lemma unpack_value (c : Z) :
  0 <= c < 2 ^ 32 ->
  c = chanR c * 2 ^ 24 + chanG c * 2 ^ 16 + chanB c * 2 ^ 8 + chanA c.
Proof.
  intros Hc. unfold chanR, chanG, chanB, chanA.
  rewrite !land_255, !Z.shiftr_div_pow2 by lia.
  change (2 ^ 32) with 4294967296 in Hc.
  change (2 ^ 24) with 16777216. change (2 ^ 16) with 65536. change (2 ^ 8) with 256.
  Z.div_mod_to_equations. lia.
Qed.

(** *** The blended channel stays a byte *)

Lemma weights_table : forallb (fun k => weights_ok (Z.of_nat k)) (seq 0 256) = true.
Proof. vm_compute. reflexivity. Qed.

Lemma weights_ok_byte (al : Z) : 0 <= al <= 255 -> weights_ok al = true.
Proof.
  intros Hal.
  pose proof (proj1 (forallb_forall _ _) weights_table (Z.to_nat al)) as H.
  cbv beta in H. rewrite Z2Nat.id in H by lia.
  apply H. apply in_seq. lia.
Qed.

Lemma to_int_range (x : Q) : (0 <= x)%Q -> (x < 256)%Q -> 0 <= F32.to_int x <= 255.
Proof.
  intros H0 H1. unfold F32.to_int.
  destruct x as [n d]. unfold Qle, Qlt in *. cbn [Qnum Qden] in *.
  rewrite Z.quot_div_nonneg by lia.
  split.
  - apply Z.div_pos; lia.
  - assert (n / Z.pos d < 256); [|lia].
    apply Z.div_lt_upper_bound; lia.
Qed.

Lemma round_byte (d : Z) : 0 <= d <= 255 -> F32.round (inject_Z d) = inject_Z d.
Proof. intros Hd. apply F32Facts.round_inject_Z. change (2 ^ 24) with 16777216. lia. Qed.

Lemma of_int_byte (d : Z) : 0 <= d <= 255 -> F32.of_int d = inject_Z d.
Proof. apply round_byte. Qed.

Lemma blend_channel_range (al d s : Z) :
  0 <= al <= 255 -> 0 <= d <= 255 -> 0 <= s <= 255 ->
  0 <= blend_channel al d s <= 255.
Proof.
  intros Hal Hd Hs. unfold blend_channel.
  pose proof (weights_ok_byte al Hal) as Hw. unfold weights_ok in Hw.
  set (t := F32.div (F32.of_int al) 255) in *.
  set (u := F32.sub 1 t) in *.
  apply andb_prop in Hw as [Hw Htu]. apply andb_prop in Hw as [Ht Hu].
  apply Qle_bool_iff in Ht, Hu, Htu.
  rewrite !of_int_byte by assumption.
  assert (HD : (0 <= inject_Z d <= 255)%Q).
  { split; [change 0%Q with (inject_Z 0)|change 255%Q with (inject_Z 255)];
      rewrite <- Zle_Qle; lia. }
  assert (HS : (0 <= inject_Z s <= 255)%Q).
  { split; [change 0%Q with (inject_Z 0)|change 255%Q with (inject_Z 255)];
      rewrite <- Zle_Qle; lia. }
  set (D := inject_Z d) in *. set (S := inject_Z s) in *.
  unfold F32.add, F32.mul.
  assert (H1 : (0 <= u * D)%Q) by nra.
  assert (H2 : (0 <= t * S)%Q) by nra.
  assert (H1' : (u * D <= 255 * u)%Q) by nra.
  assert (H2' : (t * S <= 255 * t)%Q) by nra.
  pose proof (F32Facts.round_nonneg _ H1) as R1.
  pose proof (F32Facts.round_nonneg _ H2) as R2.
  pose proof (F32Facts.round_le_256 _ H1 ltac:(lra)) as U1.
  pose proof (F32Facts.round_le_256 _ H2 ltac:(lra)) as U2.
  set (r1 := F32.round (u * D)) in *. set (r2 := F32.round (t * S)) in *.
  assert (H3 : (0 <= r1 + r2)%Q) by lra.
  assert (H4 : (r1 + r2 < 256)%Q) by lra.
  pose proof (F32Facts.round_nonneg _ H3) as R3.
  pose proof (F32Facts.round_le_256 _ H3 H4) as U3.
  apply to_int_range; lra.
Qed.

(** *** Properties of [applyColor] *)

Lemma applyColor_unfold (src dest : Z) :
  applyColor src dest =
  u32 (Z.lor (Z.lor (Z.lor (Z.shiftl (blend_channel (chanA src) (chanR dest) (chanR src)) 24)
                           (Z.shiftl (blend_channel (chanA src) (chanG dest) (chanG src)) 16))
                    (Z.shiftl (blend_channel (chanA src) (chanB dest) (chanB src)) 8))
             (chanA src)).
Proof.
  unfold applyColor, blend_channel, chanA, chanR, chanG, chanB. reflexivity.
Qed.

Lemma applyColor_unpack (src dest : Z) :
  chanR (applyColor src dest) = blend_channel (chanA src) (chanR dest) (chanR src) /\
  chanG (applyColor src dest) = blend_channel (chanA src) (chanG dest) (chanG src) /\
  chanB (applyColor src dest) = blend_channel (chanA src) (chanB dest) (chanB src) /\
  chanA (applyColor src dest) = chanA src.
Proof.
  rewrite applyColor_unfold.
  apply pack_channels;
    try apply blend_channel_range; apply land_255_range.
Qed.

(** C3 (as amended): for every source and destination word, each of the
    R, G, B channels of the result is the single-precision value of
    [(1-t)*dest_channel + t*src_channel], [t = alpha(src)/255], truncated
    (not rounded) to an integer, and the alpha channel of the result is
    exactly alpha(src), whatever the destination's alpha was. *)
Theorem applyColor_channels (src dest : Z) :
  chanR (applyColor src dest) = blend_channel (chanA src) (chanR dest) (chanR src) /\
  chanG (applyColor src dest) = blend_channel (chanA src) (chanG dest) (chanG src) /\
  chanB (applyColor src dest) = blend_channel (chanA src) (chanB dest) (chanB src) /\
  chanA (applyColor src dest) = chanA src /\
  0 <= blend_channel (chanA src) (chanR dest) (chanR src) <= 255 /\
  0 <= blend_channel (chanA src) (chanG dest) (chanG src) <= 255 /\
  0 <= blend_channel (chanA src) (chanB dest) (chanB src) <= 255.
Proof.
  destruct (applyColor_unpack src dest) as (HR & HG & HB & HA).
  repeat split; try assumption;
    apply blend_channel_range; apply land_255_range.
Qed.

(** C3 (as stated) fails: with alpha 1 a red channel of 200 blended onto 0
    is [200/255 = 0.78...]; rounding gives 1, the code stores 0. *)
Lemma applyColor_does_not_round :
  chanR (applyColor 0xC8000001 0)
  <> blend_channel_round (chanA 0xC8000001) (chanR 0) (chanR 0xC8000001).
Proof. vm_compute. discriminate. Qed.

Lemma blend_channel_alpha_0 (d s : Z) :
  0 <= d <= 255 -> 0 <= s <= 255 -> blend_channel 0 d s = d.
Proof.
  intros Hd Hs. unfold blend_channel.
  change (F32.div (F32.of_int 0) 255) with 0%Q.
  change (F32.sub 1 0) with 1%Q.
  rewrite !of_int_byte by assumption.
  unfold F32.mul, F32.add.
  rewrite (F32Facts.round_proper (1 * inject_Z d) (inject_Z d)) by ring.
  rewrite (F32Facts.round_proper (0 * inject_Z s) 0) by ring.
  rewrite F32Facts.round_0, round_byte by assumption.
  rewrite (F32Facts.round_proper (inject_Z d + 0) (inject_Z d)) by ring.
  rewrite round_byte by assumption.
  unfold F32.to_int. cbn [inject_Z Qnum Qden]. apply Z.quot_1_r.
Qed.

Lemma blend_channel_alpha_255 (d s : Z) :
  0 <= d <= 255 -> 0 <= s <= 255 -> blend_channel 255 d s = s.
Proof.
  intros Hd Hs. unfold blend_channel.
  replace (F32.div (F32.of_int 255) 255) with 1%Q by (vm_compute; reflexivity).
  change (F32.sub 1 1) with 0%Q.
  rewrite !of_int_byte by assumption.
  unfold F32.mul, F32.add.
  rewrite (F32Facts.round_proper (0 * inject_Z d) 0) by ring.
  rewrite (F32Facts.round_proper (1 * inject_Z s) (inject_Z s)) by ring.
  rewrite F32Facts.round_0, round_byte by assumption.
  rewrite (F32Facts.round_proper (0 + inject_Z s) (inject_Z s)) by ring.
  rewrite round_byte by assumption.
  unfold F32.to_int. cbn [inject_Z Qnum Qden]. apply Z.quot_1_r.
Qed.

(** C4 (as amended): a source of alpha 0 leaves the destination's R, G and
    B unchanged and sets its alpha to 0, the source's alpha; a source of
    alpha 255 sets R, G, B to the source's and alpha to 255. *)
Theorem applyColor_alpha_0_255 (src dest : Z) :
  (chanA src = 0 ->
   chanR (applyColor src dest) = chanR dest /\
   chanG (applyColor src dest) = chanG dest /\
   chanB (applyColor src dest) = chanB dest /\
   chanA (applyColor src dest) = 0) /\
  (chanA src = 255 ->
   chanR (applyColor src dest) = chanR src /\
   chanG (applyColor src dest) = chanG src /\
   chanB (applyColor src dest) = chanB src /\
   chanA (applyColor src dest) = chanA src).
Proof.
  destruct (applyColor_unpack src dest) as (HR & HG & HB & HA).
  split; intros Hal; rewrite HR, HG, HB, HA, Hal.
  - rewrite !blend_channel_alpha_0 by apply land_255_range. auto.
  - rewrite !blend_channel_alpha_255 by apply land_255_range. auto.
Qed.

Lemma applyColor_alpha_0_255_witness :
  (chanR (applyColor 0x00000000 0x112233FF) = 0x11 /\
   chanA (applyColor 0x00000000 0x112233FF) = 0) /\
  (chanR (applyColor 0x445566FF 0x112233FF) = 0x44 /\
   chanA (applyColor 0x445566FF 0x112233FF) = 255).
Proof.
  split.
  - destruct (proj1 (applyColor_alpha_0_255 0x00000000 0x112233FF) eq_refl)
      as (HR & _ & _ & HA).
    split; [exact HR | exact HA].
  - destruct (proj2 (applyColor_alpha_0_255 0x445566FF 0x112233FF) eq_refl)
      as (HR & _ & _ & HA).
    split; [exact HR | exact HA].
Defined.

(** C4 (as stated) fails: a fully transparent source clears the alpha of
    an opaque destination. *)
Lemma applyColor_alpha_0_changes_dest :
  chanA 0x00000000 = 0 /\ applyColor 0x00000000 0x112233FF <> 0x112233FF.
Proof. split; [reflexivity | vm_compute; discriminate]. Qed.

(** ** Bitmaps: properties *)

(** *** Loop and array lemmas *)

Lemma for_loop_inv {S : Type} (I : Z -> S -> Prop) (body : Z -> S -> option S) :
  forall (n : nat) (i : Z) (s : S),
    I i s ->
    (forall j t, i <= j < i + Z.of_nat n -> I j t ->
                 exists t', body j t = Some t' /\ I (j + 1) t') ->
    exists s', for_loop n i body s = Some s' /\ I (i + Z.of_nat n) s'.
Proof.
  induction n as [|n IH]; intros i s Hi Hstep.
  - exists s. split; [reflexivity|]. replace (i + Z.of_nat 0) with i by lia. exact Hi.
  - destruct (Hstep i s ltac:(lia) Hi) as (t & Hb & Ht).
    destruct (IH (i + 1) t Ht) as (s' & Hl & Hs').
    { intros j u Hj Hu. apply Hstep; [lia|exact Hu]. }
    exists s'. split.
    + simpl. rewrite Hb. exact Hl.
    + replace (i + Z.of_nat (Datatypes.S n)) with (i + 1 + Z.of_nat n) by lia. exact Hs'.
Qed.

Lemma for_range_inv {S : Type} (I : Z -> S -> Prop) (body : Z -> S -> option S)
      (lo hi : Z) (s : S) :
  lo <= hi ->
  I lo s ->
  (forall j t, lo <= j < hi -> I j t -> exists t', body j t = Some t' /\ I (j + 1) t') ->
  exists s', for_range lo hi body s = Some s' /\ I hi s'.
Proof.
  intros Hle Hi Hstep. unfold for_range.
  destruct (for_loop_inv I body (Z.to_nat (hi - lo)) lo s Hi) as (s' & Hl & Hs').
  { intros j t Hj. apply Hstep. lia. }
  exists s'. split; [exact Hl|].
  replace (lo + Z.of_nat (Z.to_nat (hi - lo))) with hi in Hs' by lia. exact Hs'.
Qed.

Lemma load_Some (buf : list Z) (i : Z) (v : Z) :
  0 <= i -> buf !! Z.to_nat i = Some v -> load buf i = Some v.
Proof.
  intros Hi H. unfold load. destruct (Z.ltb_spec i 0); [lia|exact H].
Qed.

Lemma store_Some (buf : list Z) (i v : Z) :
  0 <= i < Z.of_nat (length buf) -> store buf i v = Some (<[Z.to_nat i := v]> buf).
Proof.
  intros Hi. unfold store.
  destruct (Z.leb_spec 0 i); [|lia].
  destruct (Z.ltb_spec i (Z.of_nat (length buf))); [reflexivity|lia].
Qed.

Lemma filled_length (out : list Z) (k : nat) :
  (k <= length out)%nat -> length (filled out k) = length out.
Proof.
  intros Hk. unfold filled. rewrite length_app, length_take, length_replicate. lia.
Qed.

Lemma filled_0 (out : list Z) : filled out 0 = replicate (length out) 0.
Proof. unfold filled. rewrite take_0, Nat.sub_0_r. reflexivity. Qed.

Lemma filled_all (out : list Z) : filled out (length out) = out.
Proof.
  unfold filled. rewrite firstn_all, Nat.sub_diag. apply app_nil_r.
Qed.

Lemma filled_lookup_zero (out : list Z) (k : nat) :
  (k < length out)%nat -> filled out k !! k = Some 0.
Proof.
  intros Hk. unfold filled.
  rewrite lookup_app_r by (rewrite length_take; lia).
  rewrite length_take. apply lookup_replicate_2. lia.
Qed.

Lemma filled_insert (out : list Z) (k : nat) (v : Z) :
  out !! k = Some v -> <[k := v]> (filled out k) = filled out (Datatypes.S k).
Proof.
  intros Hv. pose proof (lookup_lt_Some _ _ _ Hv) as Hk. unfold filled.
  rewrite insert_app_r_alt by (rewrite length_take; lia).
  rewrite length_take.
  replace (k `min` length out)%nat with k by lia.
  rewrite Nat.sub_diag.
  destruct (length out - k)%nat as [|m] eqn:Hm; [lia|].
  replace (length out - Datatypes.S k)%nat with m by lia.
  rewrite (take_S_r _ _ _ Hv). simpl. rewrite <- app_assoc. reflexivity.
Qed.

Lemma filled_skip (out : list Z) (k : nat) :
  out !! k = Some 0 -> filled out k = filled out (Datatypes.S k).
Proof.
  intros Hv. rewrite <- (filled_insert _ _ _ Hv).
  symmetry. apply list_insert_id. apply filled_lookup_zero.
  eapply lookup_lt_Some. exact Hv.
Qed.

(** *** [scaleBitmap] *)

Lemma calloc_filled (out : list Z) (n : Z) :
  Z.of_nat (length out) = n -> calloc n = filled out 0.
Proof.
  intros H. unfold calloc. rewrite filled_0. f_equal. lia.
Qed.



(** *** [rotateBitmap] at angle 0 *)

Lemma rot0_rx (x y cx : Z) :
  0 <= x < 2 ^ 24 -> 0 <= y < 2 ^ 24 -> 0 <= cx < 2 ^ 24 ->
  F32.add (F32.sub (F32.mul (F32.sub (F32.of_int x) (F32.of_int cx)) 1)
                   (F32.mul (F32.sub (F32.of_int y) (F32.of_int cx)) 0))
          (F32.of_int cx) = inject_Z x.
Proof.
  intros Hx Hy Hc.
  change 1%Q with (inject_Z 1). change 0%Q with (inject_Z 0).
  rewrite !F32Facts.of_int_small by lia.
  rewrite !F32Facts.sub_int by lia.
  rewrite !F32Facts.mul_int by lia.
  rewrite F32Facts.sub_int by lia.
  rewrite F32Facts.add_int by lia.
  f_equal. lia.
Qed.

Lemma rot0_ry (x y cx cy : Z) :
  0 <= x < 2 ^ 24 -> 0 <= y < 2 ^ 24 -> 0 <= cx < 2 ^ 24 -> 0 <= cy < 2 ^ 24 ->
  F32.add (F32.add (F32.mul (F32.sub (F32.of_int x) (F32.of_int cx)) 0)
                   (F32.mul (F32.sub (F32.of_int y) (F32.of_int cy)) 1))
          (F32.of_int cy) = inject_Z y.
Proof.
  intros Hx Hy Hcx Hcy.
  change 1%Q with (inject_Z 1). change 0%Q with (inject_Z 0).
  rewrite !F32Facts.of_int_small by lia.
  rewrite !F32Facts.sub_int by lia.
  rewrite !F32Facts.mul_int by lia.
  rewrite F32Facts.add_int by lia.
  rewrite F32Facts.add_int by lia.
  f_equal. lia.
Qed.

Lemma lerp_0 (p q : Z) :
  0 <= p <= 255 -> 0 <= q <= 255 -> lerp 0 (inject_Z p) (inject_Z q) = inject_Z p.
Proof.
  intros Hp Hq. unfold lerp.
  change (F32.sub 1 0) with (inject_Z 1). change 0%Q with (inject_Z 0).
  assert (2 ^ 24 = 16777216) by reflexivity.
  rewrite !F32Facts.mul_int by lia.
  rewrite F32Facts.add_int by lia.
  f_equal. lia.
Qed.

Lemma rot0_data_lookup (b : Bitmap) (x y : Z) :
  0 <= x < width b -> 0 <= y ->
  rot0_data b !! Z.to_nat (y * width b + x)
  = rot0_pixel (width b) (height b) x y <$> data b !! Z.to_nat (y * width b + x).
Proof.
  intros Hx Hy. unfold rot0_data. rewrite list_lookup_imap.
  rewrite Z2Nat.id by nia.
  replace (y * width b + x) with (x + y * width b) by lia.
  rewrite Z_mod_plus_full, Z_div_plus_full by lia.
  rewrite Z.mod_small, Z.div_small by lia.
  reflexivity.
Qed.

Lemma rotateBitmap_0_data (b : Bitmap) :
  0 < width b < 2 ^ 24 -> 0 < height b < 2 ^ 24 ->
  Z.of_nat (length (data b)) = width b * height b ->
  rotateBitmap b 0 1 = Some (mkBitmap (rot0_data b) (width b) (height b)).
Proof.
  intros Hw Hh Hlen.
  assert (Hout : length (rot0_data b) = length (data b))
    by (unfold rot0_data; apply length_imap).
  unfold rotateBitmap.
  set (w := width b) in *. set (h := height b) in *. set (l := data b) in *.
  assert (Hcx : 0 <= w ÷ 2 < 2 ^ 24) by (Z.to_euclidean_division_equations; lia).
  assert (Hcy : 0 <= h ÷ 2 < 2 ^ 24) by (Z.to_euclidean_division_equations; lia).
  rewrite (calloc_filled (rot0_data b)) by lia.
  match goal with
  | |- context [for_range 0 h ?body ?s] =>
      destruct (for_range_inv
                  (fun y '(buf, dest) =>
                     dest = y * w /\ buf = filled (rot0_data b) (Z.to_nat (y * w)))
                  body 0 h s) as ([buf dest] & Hrun & Hd & Hbuf)
  end.
  - lia.
  - split; [lia|reflexivity].
  - intros y [buf dest] Hy [Hd ->]. subst dest.
    match goal with
    | |- context [for_range 0 w ?body ?s] =>
        destruct (for_range_inv
                    (fun x buf => buf = filled (rot0_data b) (Z.to_nat (y * w + x)))
                    body 0 w s) as (buf' & Hrun & Hbuf)
    end.
    + lia.
    + f_equal. lia.
    + intros x buf Hx ->.
      rewrite rot0_rx, rot0_ry by lia.
      change 0%Q with (inject_Z 0).
      rewrite !F32Facts.of_int_small by lia.
      rewrite !F32Facts.ltb_int, !F32Facts.geb_int.
      assert (Hk : (Z.to_nat (y * w + x) < length l)%nat) by nia.
      destruct (lookup_lt_is_Some_2 l _ Hk) as [c Hc].
      pose proof (rot0_data_lookup b x y ltac:(fold w; lia) ltac:(lia)) as Hlk.
      fold w h l in Hlk. rewrite Hc in Hlk. cbn [fmap option_fmap option_map] in Hlk.
      unfold rot0_pixel in Hlk.
      destruct ((x <? 0) || (y <? 0) || (w - 1 <=? x) || (h - 1 <=? y)) eqn:Hcond.
      * eexists. split; [reflexivity|].
        replace ((x <? w - 1) && (y <? h - 1)) with false in Hlk by lia.
        rewrite (filled_skip _ _ Hlk). f_equal. lia.
      * replace ((x <? w - 1) && (y <? h - 1)) with true in Hlk by lia.
        unfold F32.floor, F32.ceil. rewrite !Qfloor_Z, !Qceiling_Z.
        rewrite !F32Facts.sub_int by lia. rewrite !Z.sub_diag.
        change (inject_Z 0) with 0%Q.
        rewrite (load_Some l (y * w + x) c) by (try exact Hc; nia).
        rewrite (load_Some _ (y * w + x) 0)
          by (try (apply filled_lookup_zero; lia); nia).
        rewrite !of_int_byte by apply land_255_range.
        rewrite !lerp_0 by apply land_255_range.
        rewrite !F32Facts.round_away_inject_Z.
        fold (argb_to_rgba c).
        rewrite store_Some by (rewrite filled_length by lia; nia).
        eexists. split; [reflexivity|].
        rewrite (filled_insert _ _ _ Hlk). f_equal. lia.
    + rewrite Hrun. eexists. split; [reflexivity|].
      split; [lia|]. subst buf'. f_equal. lia.
  - rewrite Hrun. subst buf. f_equal.
    replace (Z.to_nat (h * w)) with (length (rot0_data b)) by nia.
    rewrite filled_all. reflexivity.
Qed.

(** C5 (as amended): [rotateBitmap] with angle 0 ([sin = 0], [cos = 1])
    returns a bitmap of the same dimensions.  Every pixel of its last
    column and of its last row is zero.  Every other pixel, those of the
    first row and first column included, is the input pixel with its top
    byte moved to the alpha position ([argb_to_rgba]) blended onto the
    zeroed canvas by [applyColor]. *)
Theorem rotateBitmap_angle_0 (b : Bitmap) :
  0 < width b < 2 ^ 24 -> 0 < height b < 2 ^ 24 ->
  Z.of_nat (length (data b)) = width b * height b ->
  exists b',
    rotateBitmap b 0 1 = Some b' /\
    width b' = width b /\ height b' = height b /\
    forall x y, 0 <= x < width b -> 0 <= y < height b ->
      (x = width b - 1 \/ y = height b - 1 -> pixel b' x y = Some 0) /\
      (x < width b - 1 -> y < height b - 1 ->
       pixel b' x y = (fun c => applyColor (argb_to_rgba c) 0) <$> pixel b x y).
Proof.
  intros Hw Hh Hlen. eexists. split; [apply rotateBitmap_0_data; assumption|].
  cbn [width height]. split; [reflexivity|]. split; [reflexivity|].
  intros x y Hx Hy.
  assert (Hk : (Z.to_nat (y * width b + x) < length (data b))%nat) by nia.
  destruct (lookup_lt_is_Some_2 _ _ Hk) as [c Hc].
  assert (Hpix : pixel (mkBitmap (rot0_data b) (width b) (height b)) x y
                 = Some (rot0_pixel (width b) (height b) x y c)).
  { unfold pixel. cbn [width height data]. apply load_Some; [nia|].
    rewrite rot0_data_lookup by lia. rewrite Hc. reflexivity. }
  assert (Hin : pixel b x y = Some c) by (apply load_Some; [nia|exact Hc]).
  rewrite Hpix, Hin. unfold rot0_pixel. split.
  - intros Hedge. replace ((x <? width b - 1) && (y <? height b - 1)) with false by lia.
    reflexivity.
  - intros Hx' Hy'. replace ((x <? width b - 1) && (y <? height b - 1)) with true by lia.
    reflexivity.
Qed.

Lemma rotateBitmap_angle_0_witness :
  let b := mkBitmap (replicate 9 0xFF112233) 3 3 in
  exists b', rotateBitmap b 0 1 = Some b' /\
             pixel b' 2 1 = Some 0 /\ pixel b' 0 0 = Some 0x112233FF.
Proof.
  intros b.
  destruct (rotateBitmap_angle_0 b) as (b' & Hrun & _ & _ & Hpix);
    [split; reflexivity | split; reflexivity | reflexivity |].
  exists b'. split; [exact Hrun|]. split.
  - apply (Hpix 2 1); [split; [discriminate|reflexivity] .. |]. left. reflexivity.
  - destruct (Hpix 0 0) as [_ H]; [split; [discriminate|reflexivity] ..|].
    rewrite H by reflexivity. vm_compute. reflexivity.
Defined.

(** C5 (as stated) fails on a 3 by 3 bitmap filled with [0xFF112233]: the
    border pixel at the top left corner is not zero, and the interior
    pixel differs from the input's. *)
Lemma rotateBitmap_angle_0_not_identity :
  let b := mkBitmap (replicate 9 0xFF112233) 3 3 in
  exists b', rotateBitmap b 0 1 = Some b' /\
             pixel b' 0 0 <> Some 0 /\ pixel b' 1 1 <> pixel b 1 1.
Proof.
  eexists. split; [vm_compute; reflexivity|].
  split; vm_compute; discriminate.
Qed.

(** ** The tile world: properties *)

Module WorldProofs.

Import World.

(** *** [qsort] returns a sorted permutation *)

Lemma qsort_insert_perm (compar : Tile -> Tile -> Z) (t : Tile) (l : list Tile) :
  Permutation (t :: l) (qsort_insert compar t l).
Proof.
  induction l as [|u l IH]; simpl.
  - reflexivity.
  - destruct (compar t u <=? 0).
    + reflexivity.
    + rewrite perm_swap. apply perm_skip. exact IH.
Qed.

Lemma qsort_perm (compar : Tile -> Tile -> Z) (l : list Tile) :
  Permutation l (qsort compar l).
Proof.
  induction l as [|t l IH]; simpl.
  - reflexivity.
  - rewrite <- qsort_insert_perm. apply perm_skip. exact IH.
Qed.

Lemma qsort_insert_sorted (t : Tile) (l : list Tile) :
  Sorted key_le l -> Sorted key_le (qsort_insert tileCompare t l).
Proof.
  induction 1 as [|u l Hs IH Hhd]; simpl.
  - repeat constructor.
  - unfold tileCompare at 1. destruct (Z.leb_spec (flatCoord t - flatCoord u) 0) as [Hle|Hgt].
    + constructor; [constructor; assumption|]. constructor. unfold key_le. lia.
    + constructor; [exact IH|].
      destruct l as [|v l]; simpl.
      * constructor. unfold key_le. lia.
      * inversion Hhd; subst.
        destruct (tileCompare t v <=? 0); constructor; unfold key_le in *; lia.
Qed.

Lemma qsort_sorted (l : list Tile) : Sorted key_le (qsort tileCompare l).
Proof.
  induction l as [|t l IH]; simpl.
  - constructor.
  - apply qsort_insert_sorted. exact IH.
Qed.

Lemma key_le_trans : Relations_1.Transitive key_le.
Proof. intros a b c. unfold key_le. lia. Qed.

Lemma sorted_lookup_le (l : list Tile) :
  Sorted key_le l ->
  forall (j k : nat) (p q : Tile),
    (j <= k)%nat -> l !! j = Some p -> l !! k = Some q -> key_le p q.
Proof.
  intros Hs. apply Sorted_StronglySorted in Hs; [|exact key_le_trans].
  induction Hs as [|a l Hs IH Hall]; intros j k p q Hjk Hp Hq.
  - discriminate.
  - destruct j as [|j], k as [|k]; simpl in *.
    + injection Hp as <-. injection Hq as <-. unfold key_le. lia.
    + injection Hp as <-.
      rewrite List.Forall_forall in Hall. apply Hall.
      apply list_elem_of_In. eapply list_elem_of_lookup_2. exact Hq.
    + lia.
    + apply (IH j k); [lia|assumption..].
Qed.

(** *** [bsearch] finds an entry exactly when one has the key *)

Lemma bsearch_loop_spec (key : Tile) (base : list Tile) :
  Sorted key_le base ->
  forall (fuel : nat) (l u : Z),
    0 <= l <= u -> u <= Z.of_nat (length base) -> u - l < Z.of_nat fuel ->
    match bsearch_loop fuel tileCompare key base l u with
    | Some p => p ∈ base /\ flatCoord p = flatCoord key
    | None => forall (j : nat) (p : Tile),
        l <= Z.of_nat j < u -> base !! j = Some p -> flatCoord p <> flatCoord key
    end.
Proof.
  intros Hs. induction fuel as [|fuel IH]; intros l u Hl Hu Hf; [lia|].
  simpl. destruct (Z.ltb_spec l u) as [Hlt|Hge].
  - assert (Hidx : l <= (l + u) / 2 < u) by (Z.div_mod_to_equations; lia).
    set (idx := (l + u) / 2) in *.
    destruct (lookup_lt_is_Some_2 base (Z.to_nat idx) ltac:(lia)) as [p Hp].
    rewrite Hp. cbv zeta.
    change (tileCompare key p) with (flatCoord key - flatCoord p).
    destruct (Z.ltb_spec (flatCoord key - flatCoord p) 0) as [Hneg|Hnn].
    + specialize (IH l idx ltac:(lia) ltac:(lia) ltac:(lia)).
      destruct (bsearch_loop fuel tileCompare key base l idx); [exact IH|].
      intros j q Hj Hq.
      destruct (Z.ltb_spec (Z.of_nat j) idx) as [Hjl|Hjg].
      * apply (IH j q); [lia|exact Hq].
      * pose proof (sorted_lookup_le base Hs (Z.to_nat idx) j p q ltac:(lia) Hp Hq) as Hle.
        unfold key_le in Hle. lia.
    + destruct (Z.ltb_spec 0 (flatCoord key - flatCoord p)) as [Hpos|Hz].
      * specialize (IH (idx + 1) u ltac:(lia) ltac:(lia) ltac:(lia)).
        destruct (bsearch_loop fuel tileCompare key base (idx + 1) u); [exact IH|].
        intros j q Hj Hq.
        destruct (Z.ltb_spec idx (Z.of_nat j)) as [Hjg|Hjl].
        -- apply (IH j q); [lia|exact Hq].
        -- pose proof (sorted_lookup_le base Hs j (Z.to_nat idx) q p ltac:(lia) Hq Hp) as Hle.
           unfold key_le in Hle. lia.
      * split; [eapply list_elem_of_lookup_2; exact Hp | lia].
  - intros j p Hj. lia.
Qed.

(** On a sorted array of [MAPLENGTH] tiles, [borderCollide] answers 0
    exactly when some entry has the flat coordinate of [(x, y)]. *)
Lemma borderCollide_iff_key (tileArray : list Tile) (x0 y0 : Z) :
  Sorted key_le tileArray -> Z.of_nat (length tileArray) = MAPLENGTH ->
  borderCollide tileArray x0 y0 = 0 <->
  exists t, t ∈ tileArray /\ flatCoord t = y0 * MAPWIDTH + x0.
Proof.
  intros Hs Hlen. unfold borderCollide, bsearch.
  pose proof (bsearch_loop_spec (mkTile x0 y0 (y0 * MAPWIDTH + x0)) tileArray Hs
                (S (Z.to_nat MAPLENGTH)) 0 MAPLENGTH) as H.
  specialize (H ltac:(unfold MAPLENGTH; lia) ltac:(lia) ltac:(lia)).
  destruct (bsearch_loop _ _ _ _ _ _) as [p|].
  - split; [intros _|reflexivity]. exists p. exact H.
  - split; [discriminate|]. intros (t & Hin & Hkey). exfalso.
    apply list_elem_of_lookup in Hin as [j Hj].
    pose proof (lookup_lt_Some _ _ _ Hj).
    apply (H j t); [lia|exact Hj|exact Hkey].
Qed.

(** *** Invariants of the walk *)

Lemma existsb_coords (l : list Tile) (x0 y0 : Z) :
  existsb (fun p => (x p =? x0) && (y p =? y0)) l = true <-> (x0, y0) ∈ coords <$> l.
Proof.
  rewrite existsb_exists, list_elem_of_fmap. split.
  - intros (p & Hin & Hp). exists p. split; [|apply list_elem_of_In; exact Hin].
    unfold coords. f_equal; lia.
  - intros (p & Heq & Hin). exists p. split; [apply list_elem_of_In; exact Hin|].
    unfold coords in Heq. injection Heq as -> ->. lia.
Qed.

Lemma initMap_step_tiles (rand : nat -> Z) (s : Walk) :
  tiles (initMap_step rand s) =
  if existsb (fun p => (x p =? wx s) && (y p =? wy s)) (tiles s) then tiles s
  else tiles s ++ [mkTile (wx s) (wy s) (wy s * MAPWIDTH + wx s)].
Proof.
  unfold initMap_step.
  destruct (Z.rem (i s) 20 =? 0); cbv zeta;
    repeat match goal with
           | |- context [let '(_, _) := (if ?c then _ else _) in _] => destruct c
           end; reflexivity.
Qed.

Lemma initMap_step_pos (rand : nat -> Z) (s : Walk) :
  -1000 <= wx s <= 1000 -> -1000 <= wy s <= 1000 ->
  -1000 <= wx (initMap_step rand s) <= 1000 /\
  -1000 <= wy (initMap_step rand s) <= 1000.
Proof.
  intros Hx Hy. unfold initMap_step.
  change (MAPWIDTH ÷ 2) with 1000. change (MAPHEIGHT ÷ 2) with 1000.
  destruct (Z.rem (i s) 20 =? 0); cbv zeta;
    repeat match goal with
           | |- context [let '(_, _) := (if ?c then _ else _) in _] => destruct c
           end; cbn [wx wy];
    repeat match goal with
           | |- context [?a <? ?b] => destruct (Z.ltb_spec a b)
           end; lia.
Qed.

Lemma initMap_step_inv (rand : nat -> Z) (s : Walk) :
  walk_inv s -> Z.of_nat (length (tiles s)) < MAPLENGTH ->
  walk_inv (initMap_step rand s).
Proof.
  intros (Hnd & Hok & Hlen & Hx & Hy) Hlt.
  destruct (initMap_step_pos rand s Hx Hy) as [Hx' Hy'].
  unfold walk_inv. rewrite initMap_step_tiles.
  destruct (existsb _ (tiles s)) eqn:Hrep.
  - repeat split; try assumption; lia.
  - assert (Hnew : (wx s, wy s) ∉ coords <$> tiles s).
    { intros Hin. apply existsb_coords in Hin. congruence. }
    repeat split; try lia.
    + rewrite fmap_app. apply NoDup_app. split; [exact Hnd|]. split.
      * intros c Hc Hc'. apply list_elem_of_singleton in Hc'. subst c.
        exact (Hnew Hc).
      * apply NoDup_singleton.
    + apply Forall_app. split; [exact Hok|].
      constructor; [|constructor]. unfold tile_ok. cbn [x y flatCoord]. lia.
    + rewrite length_app. simpl. lia.
Qed.

Lemma initMap_loop_inv (rand : nat -> Z) (fuel : nat) :
  forall (s : Walk) (ts : list Tile),
    walk_inv s -> initMap_loop rand fuel s = Some ts ->
    Z.of_nat (length ts) = MAPLENGTH /\ NoDup (coords <$> ts) /\ Forall tile_ok ts.
Proof.
  induction fuel as [|fuel IH]; intros s ts Hinv Hrun; simpl in Hrun;
    destruct (Z.ltb_spec (Z.of_nat (length (tiles s))) MAPLENGTH) as [Hlt|Hge].
  - discriminate.
  - injection Hrun as <-. destruct Hinv as (Hnd & Hok & Hlen & _).
    repeat split; [lia|assumption..].
  - apply (IH (initMap_step rand s)); [|exact Hrun].
    apply initMap_step_inv; assumption.
  - injection Hrun as <-. destruct Hinv as (Hnd & Hok & Hlen & _).
    repeat split; [lia|assumption..].
Qed.

Lemma walk_init_inv : walk_inv walk_init.
Proof.
  unfold walk_inv, walk_init. cbn [tiles wx wy]. unfold MAPLENGTH.
  repeat split; try (simpl; lia); simpl; constructor.
Qed.


(** *** World generation *)

Lemma initMap_result (rand : nat -> Z) (fuel : nat) (tileArray : list Tile) :
  initMap rand fuel = Some tileArray ->
  Z.of_nat (length tileArray) = MAPLENGTH /\
  NoDup (coords <$> tileArray) /\
  Sorted key_le tileArray /\
  Forall (fun t => flatCoord t = y t * MAPWIDTH + x t) tileArray.
Proof.
  unfold initMap. intros Hrun.
  destruct (initMap_loop rand fuel walk_init) as [ts|] eqn:Hloop; [|discriminate].
  injection Hrun as <-.
  destruct (initMap_loop_inv rand fuel walk_init ts walk_init_inv Hloop)
    as (Hlen & Hnd & Hok).
  pose proof (qsort_perm tileCompare ts) as Hperm.
  repeat split.
  - rewrite <- Hperm. exact Hlen.
  - rewrite <- Hperm. exact Hnd.
  - apply qsort_sorted.
  - rewrite <- Hperm. eapply Forall_impl; [exact Hok|].
    intros t Ht. apply Ht.
Qed.



Lemma initMap_left_then_up : initMap rand_left_then_up 2000 = Some map_left_then_up.
Proof. vm_compute. reflexivity. Qed.






(** *** World queries *)

Lemma initMap_tiles_ok (rand : nat -> Z) (fuel : nat) (tileArray : list Tile) :
  initMap rand fuel = Some tileArray -> Forall tile_ok tileArray.
Proof.
  unfold initMap. intros Hrun.
  destruct (initMap_loop rand fuel walk_init) as [ts|] eqn:Hloop; [|discriminate].
  injection Hrun as <-.
  destruct (initMap_loop_inv rand fuel walk_init ts walk_init_inv Hloop) as (_ & _ & Hok).
  rewrite <- (qsort_perm tileCompare ts). exact Hok.
Qed.

Lemma initMap_step_keeps (rand : nat -> Z) (s : Walk) (t : Tile) :
  t ∈ tiles s -> t ∈ tiles (initMap_step rand s).
Proof.
  intros Ht. rewrite initMap_step_tiles.
  destruct (existsb _ (tiles s)); [exact Ht|].
  apply elem_of_app. left. exact Ht.
Qed.

Lemma initMap_loop_keeps (rand : nat -> Z) (fuel : nat) :
  forall (s : Walk) (ts : list Tile) (t : Tile),
    initMap_loop rand fuel s = Some ts -> t ∈ tiles s -> t ∈ ts.
Proof.
  induction fuel as [|fuel IH]; intros s ts t Hrun Ht; simpl in Hrun;
    destruct (Z.of_nat (length (tiles s)) <? MAPLENGTH); try discriminate.
  - injection Hrun as <-. exact Ht.
  - apply (IH (initMap_step rand s)); [exact Hrun|].
    apply initMap_step_keeps. exact Ht.
  - injection Hrun as <-. exact Ht.
Qed.

(** The walk starts at the origin, so every generated map holds the tile
    [(0, 0)], of flat coordinate 0. *)
Lemma initMap_origin (rand : nat -> Z) (fuel : nat) (tileArray : list Tile) :
  initMap rand fuel = Some tileArray -> mkTile 0 0 0 ∈ tileArray.
Proof.
  unfold initMap. intros Hrun.
  destruct (initMap_loop rand fuel walk_init) as [ts|] eqn:Hloop; [|discriminate].
  injection Hrun as <-.
  rewrite <- (qsort_perm tileCompare ts).
  destruct fuel as [|fuel]; [discriminate Hloop|].
  change (initMap_loop rand (S fuel) walk_init)
    with (initMap_loop rand fuel (initMap_step rand walk_init)) in Hloop.
  apply (initMap_loop_keeps rand fuel _ ts _ Hloop).
  rewrite initMap_step_tiles. cbn. apply list_elem_of_singleton. reflexivity.
Qed.

(** In every generated map the coordinate [(MAPWIDTH, -1)], far outside
    the bounding box, shares the flat coordinate 0 of the origin tile and
    is reported walkable, although no tile is recorded there. *)
Lemma borderCollide_outside_box (rand : nat -> Z) (fuel : nat) (tileArray : list Tile) :
  initMap rand fuel = Some tileArray ->
  borderCollide tileArray MAPWIDTH (-1) = 0 /\
  (MAPWIDTH, -1) ∉ coords <$> tileArray.
Proof.
  intros Hrun.
  destruct (initMap_result rand fuel tileArray Hrun) as (Hlen & _ & Hs & _).
  split.
  - apply borderCollide_iff_key; [assumption..|].
    exists (mkTile 0 0 0). split; [|reflexivity].
    apply (initMap_origin rand fuel). exact Hrun.
  - intros Hin. apply list_elem_of_fmap in Hin as (t & Hc & Ht).
    pose proof (initMap_tiles_ok rand fuel tileArray Hrun) as Hok.
    rewrite List.Forall_forall in Hok.
    destruct (Hok t) as (_ & Hx & _); [apply list_elem_of_In; exact Ht|].
    unfold coords in Hc. injection Hc as Hc _. unfold MAPWIDTH in Hc. lia.
Qed.

(** Every recorded tile is walkable, and [(MAPWIDTH, MAPHEIGHT)] never
    is. *)
Lemma borderCollide_generated (rand : nat -> Z) (fuel : nat) (tileArray : list Tile) :
  initMap rand fuel = Some tileArray ->
  (forall t, t ∈ tileArray -> borderCollide tileArray (x t) (y t) = 0) /\
  borderCollide tileArray MAPWIDTH MAPHEIGHT = 1.
Proof.
  intros Hrun.
  destruct (initMap_result rand fuel tileArray Hrun) as (Hlen & _ & Hs & Hkey).
  split.
  - intros t Ht. apply borderCollide_iff_key; [assumption..|].
    exists t. split; [exact Ht|].
    rewrite List.Forall_forall in Hkey. apply Hkey. apply list_elem_of_In. exact Ht.
  - destruct (Z.eq_dec (borderCollide tileArray MAPWIDTH MAPHEIGHT) 0) as [H0|H0].
    + exfalso. apply borderCollide_iff_key in H0 as (t & Ht & Hk); [|assumption..].
      pose proof (initMap_tiles_ok rand fuel tileArray Hrun) as Hok.
      rewrite List.Forall_forall in Hok.
      destruct (Hok t) as (Hf & Hx & Hy); [apply list_elem_of_In; exact Ht|].
      unfold MAPWIDTH, MAPHEIGHT in *. lia.
    + unfold borderCollide in *. destruct (bsearch _ _ _ _); congruence.
Qed.

(** C1, at a map and a coordinate where it fails: in the map generated
    from [rand_left_then_up] the tile [(1000, 0)] has flat coordinate
    1000, which is also [1 * MAPWIDTH + (-1000)]; [borderCollide]
    reports [(-1000, 1)] as walkable although no tile is recorded
    there. *)
Theorem borderCollide_key_collision :
  initMap rand_left_then_up 2000 = Some map_left_then_up /\
  borderCollide map_left_then_up (-1000) 1 = 0 /\
  isWalkable map_left_then_up (-1000) 1 = true /\
  ((-1000, 1) ∉ coords <$> map_left_then_up) /\
  mkTile 1000 0 1000 ∈ map_left_then_up.
Proof.
  split; [exact initMap_left_then_up|].
  split; [vm_compute; reflexivity|].
  split; [vm_compute; reflexivity|].
  split.
  - intros Hin. apply existsb_coords in Hin. vm_compute in Hin. discriminate.
  - assert (Hex : existsb (fun t => (x t =? 1000) && (y t =? 0) && (flatCoord t =? 1000))
                          map_left_then_up = true) by (vm_compute; reflexivity).
    apply existsb_exists in Hex as ([tx ty tk] & Hin & Ht). cbn [x y flatCoord] in Ht.
    apply list_elem_of_In.
    replace (mkTile 1000 0 1000) with (mkTile tx ty tk); [exact Hin|].
    f_equal; lia.
Qed.

End WorldProofs.

(** ** The ripple pool: properties *)

Module RipplesProofs.

Import Ripples.

(** *** Lifecycle of one ripple *)







(** *** Six spawns in a row *)

(** C7, evaluated: after six calls of [initRipple] on the empty pool,
    five entries are live, the write cursor has wrapped to 1 and slot 0
    holds the sixth allocation; the block slot 0 held before (block 0)
    was never passed to [free], is still allocated, and no slot points
    to it any more. *)
Theorem six_spawns_leak (c1 c2 c3 c4 c5 c6 : Z * Z) :
  let s := spawn_all [c1; c2; c3; c4; c5; c6] pool_init in
  live_entries s = 5%nat /\
  rippleIndex s = 1 /\
  slot_block s 0 = Some 5%nat /\
  frees (heap s) = [] /\
  count_occ Nat.eq_dec (frees (heap s)) 0%nat = 0%nat /\
  0%nat ∈ live (heap s) /\
  (forall i : nat, slot_block s i <> Some 0%nat).
Proof.
  cbv zeta.
  assert (Hs : spawn_all [c1; c2; c3; c4; c5; c6] pool_init
               = mkPool [mkRipple (Some 5%nat) 100 100 20 1 (fst c6) (snd c6) 1;
                         mkRipple (Some 1%nat) 100 100 20 1 (fst c2) (snd c2) 1;
                         mkRipple (Some 2%nat) 100 100 20 1 (fst c3) (snd c3) 1;
                         mkRipple (Some 3%nat) 100 100 20 1 (fst c4) (snd c4) 1;
                         mkRipple (Some 4%nat) 100 100 20 1 (fst c5) (snd c5) 1]
                        1 (mkHeap 6 (list_to_set [0; 1; 2; 3; 4; 5]%nat) []))
    by (vm_compute; reflexivity).
  rewrite Hs. cbn [heap frees live rippleIndex].
  split; [reflexivity|]. split; [reflexivity|]. split; [reflexivity|].
  split; [reflexivity|]. split; [reflexivity|]. split.
  - set_solver.
  - intros i. do 5 (destruct i as [|i]; [discriminate|]). discriminate.
Qed.

End RipplesProofs.

(** ** The scroll compositor: properties *)

Module ScrollProofs.

Import Scroll.

(** *** Only the display is written *)

Lemma for_loop_preserve {S : Type} (P : S -> Prop) (body : Z -> S -> option S) :
  (forall j t t', body j t = Some t' -> P t -> P t') ->
  forall (n : nat) (i : Z) (s s' : S),
    for_loop n i body s = Some s' -> P s -> P s'.
Proof.
  intros Hbody. induction n as [|n IH]; intros i s s' Hrun Hs; simpl in Hrun.
  - injection Hrun as <-. exact Hs.
  - destruct (body i s) as [t|] eqn:Hb; [|discriminate].
    apply (IH (i + 1) t s' Hrun). apply (Hbody i s t Hb Hs).
Qed.

Lemma display_store_views (g0 g g' : Game) (k v : Z) :
  display_store g k v = Some g' -> same_views g0 g -> same_views g0 g'.
Proof.
  unfold display_store. intros Hrun Hg.
  destruct (store (display_buffer g) k v); [|discriminate].
  injection Hrun as <-. exact Hg.
Qed.

(** C10: a call of [drawBackground] that returns leaves both scroll view
    buffers (pixels, width and height) and the camera as they were,
    whether a scroll is in progress or not; only the display buffer is
    written. *)
Theorem drawBackground_frame (g g' : Game) :
  drawBackground g = Some g' ->
  bgBufferOld g' = bgBufferOld g /\
  bgBufferNew g' = bgBufferNew g /\
  cam g' = cam g.
Proof.
  unfold drawBackground. intros Hrun.
  assert (Hsame : same_views g g'); [|destruct Hsame as (? & ? & ?); auto].
  destruct (negb _ || negb _).
  - unfold for_range in Hrun.
    eapply (for_loop_preserve (same_views g)); [|exact Hrun|repeat split].
    intros y t t' Hrow Ht.
    eapply (for_loop_preserve (same_views g)); [|exact Hrow|exact Ht].
    intros x u u' Hpix Hu. cbv beta in Hpix.
    destruct (if x <? 0 then _ else _) as [[src newX] newY].
    destruct (load src _) as [v|]; [|discriminate].
    eapply display_store_views; eassumption.
  - unfold display_memcpy in Hrun.
    destruct (_ && _); [|discriminate].
    injection Hrun as <-. repeat split.
Qed.

(** *** Sampling left of the old view *)

Ltac unfold_display :=
  unfold SCROLL_PW, SCROLL_PH, SCROLL_TW, SCROLL_TH, DISPLAY_TW, DISPLAY_TH,
    TILESIZE, DISPLAY_PW, DISPLAY_PH in *;
  change ((960 ÷ 48 - 5) * 48) with 720 in *.

Lemma load_insert_eq (buf : list Z) (k v : Z) :
  0 <= k < Z.of_nat (length buf) -> load (<[Z.to_nat k := v]> buf) k = Some v.
Proof.
  intros Hk. apply load_Some; [lia|]. apply list_lookup_insert_eq. lia.
Qed.

Lemma load_insert_ne (buf : list Z) (k j v : Z) :
  0 <= k -> 0 <= j -> k <> j -> load (<[Z.to_nat k := v]> buf) j = load buf j.
Proof.
  intros Hk Hj Hne. unfold load. destruct (j <? 0); [reflexivity|].
  apply list_lookup_insert_ne. lia.
Qed.

Lemma load_in_range (buf : list Z) (k : Z) :
  0 <= k < Z.of_nat (length buf) -> exists v, load buf k = Some v.
Proof.
  intros Hk. destruct (lookup_lt_is_Some_2 buf (Z.to_nat k) ltac:(lia)) as [v Hv].
  exists v. apply load_Some; [lia|exact Hv].
Qed.

Lemma drawBackground_scrolling_left (g : Game) :
  tileX (cam g) <> destTileX (cam g) \/ tileY (cam g) <> destTileY (cam g) ->
  - SCROLL_PW <= F32.to_int (pixelX (cam g)) <= -1 ->
  F32.to_int (pixelY (cam g)) = 0 ->
  display_sized (data (bgBufferOld g)) ->
  display_sized (data (bgBufferNew g)) ->
  display_sized (display_buffer g) ->
  exists g',
    drawBackground g = Some g' /\
    left_edge_inv g (F32.to_int (pixelX (cam g))) (DISPLAY_PW * DISPLAY_PH) g'.
Proof.
  intros Hmid HminX HminY Hold Hnew Hdisp.
  unfold drawBackground. rewrite HminY.
  set (minX := F32.to_int (pixelX (cam g))) in *.
  replace (negb (tileX (cam g) =? destTileX (cam g))
           || negb (tileY (cam g) =? destTileY (cam g))) with true
    by (symmetry; apply orb_true_iff; rewrite !negb_true_iff, !Z.eqb_neq; exact Hmid).
  unfold display_sized in *. unfold_display.
  match goal with
  | |- context [for_range 0 ?hi ?body g] =>
      destruct (for_range_inv
                  (fun y t => left_edge_inv g minX (y * 960) t) body 0 (0 + 540) g)
        as (g' & Hrun & Hinv)
  end.
  - lia.
  - repeat split; [exact Hdisp|]. intros y Hy Hk.
    unfold_display. lia.
  - intros y t Hy Ht.
    match goal with
    | |- context [for_range minX ?hi ?body t] =>
        destruct (for_range_inv
                    (fun x u => left_edge_inv g minX (y * 960 + (x - minX)) u)
                    body minX (minX + 960) t) as (t' & Hrun & Hinv)
    end.
    + lia.
    + replace (y * 960 + (minX - minX)) with (y * 960) by lia. exact Ht.
    + intros x u Hx ((Hcam & HuOld & HuNew) & Hlen & Hpix).
      unfold display_sized in Hlen. unfold_display.
      rewrite HuOld, HuNew.
      destruct (Z.ltb_spec x 0) as [Hneg|Hpos].
      * destruct (load_in_range (data (bgBufferNew g)) (y * 960 + (x + 720)) ltac:(lia))
          as [v Hv].
        rewrite Hv. unfold display_store.
        rewrite store_Some by lia.
        eexists. split; [reflexivity|].
        split; [repeat split; assumption|].
        cbn [display_buffer]. split.
        { unfold display_sized. unfold_display. rewrite length_insert. exact Hlen. }
        intros y0 Hy0 Hk. unfold_display.
        destruct (Z.eq_dec (y0 * 960 + (-1 - minX)) ((y - 0) * 960 + (x - minX)))
          as [Heq|Hne].
        -- rewrite Heq, load_insert_eq by lia. rewrite <- Hv.
           f_equal. lia.
        -- rewrite load_insert_ne by lia. apply Hpix; [lia|]. lia.
      * destruct (Z.leb_spec 960 x) as [Hbig|Hsmall]; [lia|].
        destruct (Z.ltb_spec y 0) as [Hyn|Hyp]; [lia|].
        destruct (Z.leb_spec 540 y) as [Hyb|Hys]; [lia|].
        destruct (load_in_range (data (bgBufferOld g)) (y * 960 + x) ltac:(lia))
          as [v Hv].
        rewrite Hv. unfold display_store.
        rewrite store_Some by lia.
        eexists. split; [reflexivity|].
        split; [repeat split; assumption|].
        cbn [display_buffer]. split.
        { unfold display_sized. unfold_display. rewrite length_insert. exact Hlen. }
        intros y0 Hy0 Hk. unfold_display.
        rewrite load_insert_ne by lia. apply Hpix; [lia|]. lia.
    + rewrite Hrun. exists t'. split; [reflexivity|].
      replace ((y + 1) * 960) with (y * 960 + (minX + 960 - minX)) by lia.
      exact Hinv.
  - exists g'. split; [exact Hrun|]. exact Hinv.
Qed.

(** C8: with the camera in mid-scroll and the horizontal pixel offset
    between [-SCROLL_PW] and [-1] (for instance [-SCROLL_PW / 2]), the
    display pixel that samples [x = -1] of the old view's coordinate
    space is, in every row, the pixel of the new view at
    [x = -1 + SCROLL_PW]. *)
Theorem drawBackground_left_edge (g : Game) :
  tileX (cam g) <> destTileX (cam g) \/ tileY (cam g) <> destTileY (cam g) ->
  - SCROLL_PW <= F32.to_int (pixelX (cam g)) <= -1 ->
  F32.to_int (pixelY (cam g)) = 0 ->
  display_sized (data (bgBufferOld g)) ->
  display_sized (data (bgBufferNew g)) ->
  display_sized (display_buffer g) ->
  exists g',
    drawBackground g = Some g' /\
    forall y : Z,
      0 <= y < DISPLAY_PH ->
      load (display_buffer g')
           (y * DISPLAY_PW + (-1 - F32.to_int (pixelX (cam g))))
      = load (data (bgBufferNew g)) (y * DISPLAY_PW + (-1 + SCROLL_PW)).
Proof.
  intros Hmid HminX HminY Hold Hnew Hdisp.
  destruct (drawBackground_scrolling_left g Hmid HminX HminY Hold Hnew Hdisp)
    as (g' & Hrun & _ & _ & Hpix).
  exists g'. split; [exact Hrun|].
  intros y Hy. apply Hpix; [exact Hy|].
  unfold_display. lia.
Qed.

Lemma npixels_Z : Z.of_nat npixels = DISPLAY_PW * DISPLAY_PH.
Proof. unfold npixels. apply Z2Nat.id. unfold DISPLAY_PW, DISPLAY_PH. lia. Qed.

(** With the camera at rest the new view is copied to the display. *)
Lemma drawBackground_still (g : Game) :
  tileX (cam g) = destTileX (cam g) -> tileY (cam g) = destTileY (cam g) ->
  DISPLAY_PW * DISPLAY_PH <= Z.of_nat (length (data (bgBufferNew g))) ->
  DISPLAY_PW * DISPLAY_PH <= Z.of_nat (length (display_buffer g)) ->
  drawBackground g
  = Some (mkGame (cam g) (bgBufferOld g) (bgBufferNew g)
                 (take npixels (data (bgBufferNew g)) ++ drop npixels (display_buffer g))).
Proof.
  intros Hx Hy Hnew Hdisp. unfold drawBackground, display_memcpy.
  rewrite Hx, Hy, !Z.eqb_refl. cbn [negb orb].
  destruct (Z.leb_spec (DISPLAY_PW * DISPLAY_PH) (Z.of_nat (length (data (bgBufferNew g)))));
    [|lia].
  destruct (Z.leb_spec (DISPLAY_PW * DISPLAY_PH) (Z.of_nat (length (display_buffer g))));
    [|lia].
  reflexivity.
Qed.

Lemma drawBackground_left_edge_witness :
  exists g',
    drawBackground scroll_example = Some g' /\
    forall y : Z,
      0 <= y < DISPLAY_PH ->
      load (display_buffer g')
           (y * DISPLAY_PW + (-1 - F32.to_int (pixelX (cam scroll_example))))
      = load (data (bgBufferNew scroll_example)) (y * DISPLAY_PW + (-1 + SCROLL_PW)).
Proof.
  apply drawBackground_left_edge.
  - left. vm_compute. discriminate.
  - vm_compute. split; discriminate.
  - vm_compute. reflexivity.
  - vm_compute. reflexivity.
  - vm_compute. reflexivity.
  - vm_compute. reflexivity.
Defined.

Lemma drawBackground_frame_witness :
  (drawBackground still_example = Some still_after /\
   bgBufferOld still_after = bgBufferOld still_example /\
   bgBufferNew still_after = bgBufferNew still_example /\
   cam still_after = cam still_example) /\
  (exists g', drawBackground scroll_example = Some g' /\
              bgBufferOld g' = bgBufferOld scroll_example /\
              bgBufferNew g' = bgBufferNew scroll_example /\
              cam g' = cam scroll_example).
Proof.
  split.
  - assert (Hrun : drawBackground still_example = Some still_after).
    { apply (drawBackground_still still_example);
        try reflexivity; cbn [still_example data bgBufferNew display_buffer];
        rewrite length_replicate, npixels_Z; lia. }
    split; [exact Hrun|].
    exact (drawBackground_frame still_example still_after Hrun).
  - destruct (drawBackground_scrolling_left scroll_example) as (g' & Hrun & _).
    + left. vm_compute. discriminate.
    + vm_compute. split; discriminate.
    + vm_compute. reflexivity.
    + vm_compute. reflexivity.
    + vm_compute. reflexivity.
    + vm_compute. reflexivity.
    + exists g'. split; [exact Hrun|].
      exact (drawBackground_frame scroll_example g' Hrun).
Defined.

End ScrollProofs.

(** ** More bitmap routines: properties *)

(** Row-major indexing is injective on a row of width [w]. *)
Lemma index_inj (w x y x' y' : Z) :
  0 <= x < w -> 0 <= x' < w -> y * w + x = y' * w + x' -> y = y' /\ x = x'.
Proof.
  intros Hx Hx' Heq.
  assert (y = y') by nia. subst y'. split; [reflexivity|lia].
Qed.

Lemma index_range (w h x y : Z) :
  0 <= x < w -> 0 <= y < h -> 0 <= y * w + x < w * h.
Proof. intros Hx Hy. nia. Qed.

Lemma load_store_eq (buf : list Z) (k v : Z) :
  0 <= k < Z.of_nat (length buf) -> load (<[Z.to_nat k := v]> buf) k = Some v.
Proof.
  intros Hk. apply load_Some; [lia|]. apply list_lookup_insert_eq. lia.
Qed.

Lemma load_store_ne (buf : list Z) (k j v : Z) :
  0 <= k -> k <> j -> load (<[Z.to_nat k := v]> buf) j = load buf j.
Proof.
  intros Hk Hne. unfold load. destruct (Z.ltb_spec j 0); [reflexivity|].
  apply list_lookup_insert_ne. lia.
Qed.

Lemma load_is_Some (buf : list Z) (k : Z) :
  0 <= k < Z.of_nat (length buf) -> exists v, load buf k = Some v.
Proof.
  intros Hk. destruct (lookup_lt_is_Some_2 buf (Z.to_nat k) ltac:(lia)) as [v Hv].
  exists v. apply load_Some; [lia|exact Hv].
Qed.

(** Two pixel arrays of the same [w * h] cells that agree at every
    [(x, y)] are equal. *)
Lemma pixels_ext (w h : Z) (l l' : list Z) :
  0 <= w -> 0 <= h ->
  Z.of_nat (length l) = w * h -> Z.of_nat (length l') = w * h ->
  (forall x y, 0 <= x < w -> 0 <= y < h -> load l (y * w + x) = load l' (y * w + x)) ->
  l = l'.
Proof.
  intros Hw Hh Hl Hl' Hpix. apply list_eq. intros i.
  destruct (decide (i < length l)%nat) as [Hi|Hi].
  - assert (Hw0 : 0 < w) by nia.
    pose proof (Z.div_mod (Z.of_nat i) w ltac:(lia)) as Hdm.
    pose proof (Z.mod_pos_bound (Z.of_nat i) w Hw0) as Hm.
    assert (Hq : 0 <= Z.of_nat i / w < h).
    { split; [apply Z.div_pos; lia|]. apply Z.div_lt_upper_bound; nia. }
    specialize (Hpix (Z.of_nat i mod w) (Z.of_nat i / w) Hm Hq).
    replace (Z.of_nat i / w * w + Z.of_nat i mod w) with (Z.of_nat i) in Hpix by lia.
    unfold load in Hpix. destruct (Z.ltb_spec (Z.of_nat i) 0); [lia|].
    rewrite Nat2Z.id in Hpix. exact Hpix.
  - rewrite !lookup_ge_None_2 by lia. reflexivity.
Qed.

(** *** [vflipBitmap] *)

Lemma vflipBitmap_run (b : Bitmap) :
  well_formed b ->
  exists buf,
    vflipBitmap b = Some (mkBitmap buf (width b) (height b)) /\
    Z.of_nat (length buf) = width b * height b /\
    forall x y, 0 <= x < width b -> 0 <= y < height b ->
      load buf ((height b - 1 - y) * width b + x) = load (data b) (y * width b + x).
Proof.
  intros (Hw & Hh & Hlen). unfold vflipBitmap.
  set (w := width b) in *. set (h := height b) in *. set (src := data b) in *.
  match goal with
  | |- context [for_range 0 h ?body ?s] =>
      destruct (for_range_inv
                  (fun y '(buf, dest) =>
                     dest = (h - 1 - y) * w /\
                     Z.of_nat (length buf) = w * h /\
                     forall x' y', 0 <= x' < w -> 0 <= y' < y ->
                       load buf ((h - 1 - y') * w + x') = load src (y' * w + x'))
                  body 0 h s) as ([buf dest] & Hrun & Hd & Hbl & Hpix)
  end.
  - lia.
  - split; [lia|]. split; [unfold calloc; rewrite length_replicate; nia|].
    intros x' y' Hx' Hy'. lia.
  - intros y [buf dest] Hy (Hd & Hbl & Hpix). subst dest.
    match goal with
    | |- context [for_range 0 w ?body ?s] =>
        destruct (for_range_inv
                    (fun x '(buf, dest) =>
                       dest = (h - 1 - y) * w + x /\
                       Z.of_nat (length buf) = w * h /\
                       forall x' y', 0 <= x' < w ->
                         0 <= y' < y \/ (y' = y /\ x' < x) ->
                         load buf ((h - 1 - y') * w + x') = load src (y' * w + x'))
                    body 0 w s) as ([buf' dest'] & Hrun & Hd' & Hbl' & Hpix')
    end.
    + lia.
    + split; [lia|]. split; [exact Hbl|].
      intros x' y' Hx' [Hy'|[_ Hlt]]; [apply Hpix; assumption|lia].
    + intros x [buf1 dest1] Hx (Hd1 & Hbl1 & Hpix1). subst dest1.
      destruct (load_is_Some src (y * w + x)) as [v Hv]; [nia|].
      rewrite Hv.
      pose proof (index_range w h x (h - 1 - y) Hx ltac:(lia)) as Hr.
      rewrite store_Some by lia.
      eexists (_, _). split; [reflexivity|].
      split; [lia|]. split; [rewrite length_insert; exact Hbl1|].
      intros x' y' Hx' Hcase.
      destruct (Z.eq_dec ((h - 1 - y') * w + x') ((h - 1 - y) * w + x)) as [Heq|Hne].
      * apply index_inj in Heq as [Hyy Hxx]; [|assumption..].
        assert (y' = y) by lia. subst y' x'.
        rewrite load_store_eq by lia. symmetry. exact Hv.
      * rewrite load_store_ne by lia. apply Hpix1; [assumption|].
        destruct Hcase as [Hc|[Hc1 Hc2]]; [left; exact Hc|].
        subst y'. right. split; [reflexivity|].
        assert (x' <> x) by (intros ->; apply Hne; reflexivity). lia.
    + rewrite Hrun. eexists (_, _). split; [reflexivity|].
      split; [lia|]. split; [exact Hbl'|].
      intros x' y' Hx' Hy'. apply Hpix'; [assumption|].
      destruct (Z.eq_dec y' y) as [->|Hne]; [right; split; [reflexivity|lia]|left; lia].
  - rewrite Hrun. exists buf. split; [reflexivity|]. split; [exact Hbl|].
    intros x y Hx Hy. apply Hpix; assumption.
Qed.

(** X1: [vflipBitmap] of a well-formed bitmap returns a bitmap of the same
    width and height whose row [y] is the input's row [height - 1 - y]. *)
Theorem vflipBitmap_pixels (b : Bitmap) :
  well_formed b ->
  exists b',
    vflipBitmap b = Some b' /\ well_formed b' /\
    width b' = width b /\ height b' = height b /\
    forall x y, 0 <= x < width b -> 0 <= y < height b ->
      pixel b' x y = pixel b x (height b - 1 - y).
Proof.
  intros Hwf. destruct (vflipBitmap_run b Hwf) as (buf & Hrun & Hlen & Hpix).
  destruct Hwf as (Hw & Hh & Hl).
  eexists. split; [exact Hrun|].
  split; [repeat split; assumption|].
  split; [reflexivity|]. split; [reflexivity|].
  intros x y Hx Hy. unfold pixel. cbn [data width height].
  specialize (Hpix x (height b - 1 - y) Hx ltac:(lia)).
  replace (height b - 1 - (height b - 1 - y)) with y in Hpix by lia.
  exact Hpix.
Qed.

Lemma vflipBitmap_pixels_witness :
  let b := mkBitmap [1; 2; 3; 4; 5; 6] 2 3 in
  exists b', vflipBitmap b = Some b' /\ pixel b' 0 0 = pixel b 0 2.
Proof.
  intros b.
  destruct (vflipBitmap_pixels b) as (b' & Hrun & _ & _ & _ & Hpix).
  - repeat split; discriminate.
  - exists b'. split; [exact Hrun|].
    apply (Hpix 0 0); split; (discriminate || reflexivity).
Defined.

(** X2: flipping twice gives the bitmap back. *)
Theorem vflipBitmap_involutive (b b' : Bitmap) :
  well_formed b -> vflipBitmap b = Some b' -> vflipBitmap b' = Some b.
Proof.
  intros Hwf Hrun.
  destruct (vflipBitmap_run b Hwf) as (buf & Hrun1 & Hlen1 & Hpix1).
  rewrite Hrun in Hrun1. injection Hrun1 as ->.
  assert (Hwf' : well_formed (mkBitmap buf (width b) (height b))).
  { destruct Hwf as (Hw & Hh & Hl). repeat split; assumption. }
  destruct (vflipBitmap_run _ Hwf') as (buf2 & Hrun2 & Hlen2 & Hpix2).
  cbn [width height data] in *. rewrite Hrun2.
  destruct Hwf as (Hw & Hh & Hl).
  destruct b as [l w h]. cbn [width height data] in *.
  f_equal. f_equal.
  apply (pixels_ext w h); try assumption.
  intros x y Hx Hy.
  specialize (Hpix2 x (h - 1 - y) Hx ltac:(lia)).
  replace (h - 1 - (h - 1 - y)) with y in Hpix2 by lia.
  rewrite Hpix2. apply Hpix1; lia.
Qed.

Lemma vflipBitmap_involutive_witness :
  vflipBitmap (mkBitmap [4; 5; 6; 1; 2; 3] 3 2) = Some (mkBitmap [1; 2; 3; 4; 5; 6] 3 2).
Proof.
  apply (vflipBitmap_involutive (mkBitmap [1; 2; 3; 4; 5; 6] 3 2)).
  - repeat split; discriminate.
  - reflexivity.
Defined.

(** *** [fillBitmap] *)

Lemma painted_length (v : Z) (d0 : list Z) (k : nat) :
  (k <= length d0)%nat -> length (painted v d0 k) = length d0.
Proof.
  intros Hk. unfold painted. rewrite length_app, length_replicate, length_drop. lia.
Qed.

Lemma painted_insert (v : Z) (d0 : list Z) (k : nat) :
  (k < length d0)%nat -> <[k := v]> (painted v d0 k) = painted v d0 (S k).
Proof.
  intros Hk. unfold painted.
  rewrite insert_app_r_alt by (rewrite length_replicate; lia).
  rewrite length_replicate, Nat.sub_diag.
  destruct (lookup_lt_is_Some_2 d0 k Hk) as [u Hu].
  rewrite (drop_S _ _ _ Hu).
  change (<[0%nat := v]> (u :: drop (S k) d0)) with (v :: drop (S k) d0).
  rewrite replicate_S_end, <- app_assoc. reflexivity.
Qed.

Lemma fillBitmap_replicate (b : Bitmap) (color : Z) :
  well_formed b ->
  fillBitmap b color
  = Some (mkBitmap (replicate (length (data b)) (u32 color)) (width b) (height b)).
Proof.
  intros (Hw & Hh & Hlen). unfold fillBitmap.
  set (w := width b) in *. set (h := height b) in *. set (d0 := data b) in *.
  match goal with
  | |- context [for_range 0 h ?body ?s] =>
      destruct (for_range_inv
                  (fun y buf => buf = painted (u32 color) d0 (Z.to_nat (y * w)))
                  body 0 h s) as (buf & Hrun & Hbuf)
  end.
  - lia.
  - unfold painted. simpl. rewrite drop_0. reflexivity.
  - intros y buf Hy ->.
    match goal with
    | |- context [for_range 0 w ?body ?s] =>
        destruct (for_range_inv
                    (fun x buf => buf = painted (u32 color) d0 (Z.to_nat (y * w + x)))
                    body 0 w s) as (buf' & Hrun & Hbuf')
    end.
    + lia.
    + f_equal. lia.
    + intros x buf Hx ->.
      pose proof (index_range w h x y Hx Hy) as Hr.
      rewrite store_Some by (rewrite painted_length by lia; lia).
      eexists. split; [reflexivity|].
      rewrite painted_insert by lia. f_equal. lia.
    + rewrite Hrun. eexists. split; [reflexivity|]. subst buf'. f_equal. lia.
  - rewrite Hrun. subst buf. f_equal. f_equal.
    replace (Z.to_nat (h * w)) with (length d0) by lia.
    unfold painted. rewrite drop_all, app_nil_r. reflexivity.
Qed.

(** X3: [fillBitmap] on a well-formed bitmap keeps the dimensions and
    sets every pixel to the colour, taken as a 32-bit word; what was in
    the bitmap before does not matter. *)
Theorem fillBitmap_all (b : Bitmap) (color : Z) :
  well_formed b ->
  fillBitmap b color
  = Some (mkBitmap (replicate (length (data b)) (u32 color)) (width b) (height b)) /\
  forall b', fillBitmap b color = Some b' ->
    well_formed b' /\
    forall x y, 0 <= x < width b -> 0 <= y < height b -> pixel b' x y = Some (u32 color).
Proof.
  intros Hwf. pose proof (fillBitmap_replicate b color Hwf) as Hrun.
  split; [exact Hrun|]. intros b' Hb'. rewrite Hrun in Hb'. injection Hb' as <-.
  destruct Hwf as (Hw & Hh & Hlen). split.
  - repeat split; cbn [width height data]; try assumption.
    rewrite length_replicate. exact Hlen.
  - intros x y Hx Hy. unfold pixel. cbn [data width].
    pose proof (index_range (width b) (height b) x y Hx Hy) as Hr.
    apply load_Some; [lia|]. apply lookup_replicate. split; [reflexivity|lia].
Qed.

Lemma fillBitmap_all_witness :
  fillBitmap (mkBitmap [1; 2; 3; 4; 5; 6] 3 2) 0xeb9b34ff
  = Some (mkBitmap (replicate 6 0xeb9b34ff) 3 2).
Proof.
  apply (fillBitmap_all (mkBitmap [1; 2; 3; 4; 5; 6] 3 2) 0xeb9b34ff).
  repeat split; discriminate.
Defined.

(** *** [rotateBitmap] at any angle *)

Lemma floor_ceil_range (r : Q) (n : Z) :
  F32.ltb r 0 = false -> F32.geb r (inject_Z (n - 1)) = false ->
  0 <= F32.floor r <= n - 2 /\ 0 <= F32.ceil r <= n - 1.
Proof.
  unfold F32.ltb, F32.geb, F32.floor, F32.ceil. intros Hlo Hhi.
  apply negb_false_iff, Qle_bool_iff in Hlo.
  assert (Hlt : (r < inject_Z (n - 1))%Q).
  { apply Qnot_le_lt. intros Hle. apply Qle_bool_iff in Hle. congruence. }
  assert (H0 : 0 <= Qfloor r).
  { change 0 with (Qfloor 0). apply Qfloor_resp_le. exact Hlo. }
  assert (H1 : Qfloor r < n - 1).
  { rewrite Zlt_Qlt. eapply Qle_lt_trans; [apply Qfloor_le|exact Hlt]. }
  assert (H2 : Qceiling r <= n - 1).
  { rewrite <- (Qceiling_Z (n - 1)). apply Qceiling_resp_le. apply Qlt_le_weak. exact Hlt. }
  pose proof (Qle_floor_ceiling r) as Hfc. rewrite <- Zle_Qle in Hfc. lia.
Qed.

(** X4: for every angle (every pair of sine and cosine values),
    [rotateBitmap] on a well-formed bitmap with sides below 2^24 stays
    inside its arrays and returns a well-formed bitmap of the same width
    and height. *)
Theorem rotateBitmap_total (b : Bitmap) (angleSin angleCos : F32.float) :
  well_formed b -> width b < 2 ^ 24 -> height b < 2 ^ 24 ->
  exists b',
    rotateBitmap b angleSin angleCos = Some b' /\
    well_formed b' /\ width b' = width b /\ height b' = height b.
Proof.
  intros (Hw & Hh & Hlen) Hw24 Hh24. unfold rotateBitmap.
  set (w := width b) in *. set (h := height b) in *. set (src := data b) in *.
  match goal with
  | |- context [for_range 0 h ?body ?s] =>
      destruct (for_range_inv
                  (fun y '(buf, dest) =>
                     dest = y * w /\ Z.of_nat (length buf) = w * h)
                  body 0 h s) as ([buf dest] & Hrun & Hd & Hbl)
  end.
  - lia.
  - split; [lia|]. unfold calloc. rewrite length_replicate. nia.
  - intros y [buf dest] Hy (Hd & Hbl). subst dest.
    match goal with
    | |- context [for_range 0 w ?body ?s] =>
        destruct (for_range_inv
                    (fun (x : Z) buf => Z.of_nat (length buf) = w * h)
                    body 0 w s) as (buf' & Hrun & Hbl')
    end.
    + lia.
    + exact Hbl.
    + intros x buf1 Hx Hbl1. cbv zeta.
      rewrite (F32Facts.of_int_small (w - 1)), (F32Facts.of_int_small (h - 1)) by lia.
      match goal with
      | |- context [F32.ltb ?u 0 || F32.ltb ?v 0 || _ || _] =>
          set (rx := u); set (ry := v)
      end.
      destruct (F32.ltb rx 0) eqn:Hx0; [eauto|].
      destruct (F32.ltb ry 0) eqn:Hy0; [eauto|].
      destruct (F32.geb rx (inject_Z (w - 1))) eqn:Hx1; [eauto|].
      destruct (F32.geb ry (inject_Z (h - 1))) eqn:Hy1; [eauto|].
      cbn [orb].
      destruct (floor_ceil_range rx w Hx0 Hx1) as [Hfx Hcx].
      destruct (floor_ceil_range ry h Hy0 Hy1) as [Hfy Hcy].
      destruct (load_is_Some src (F32.floor ry * w + F32.floor rx)) as [tl ->]; [nia|].
      destruct (load_is_Some src (F32.floor ry * w + F32.ceil rx)) as [tr ->]; [nia|].
      destruct (load_is_Some src (F32.ceil ry * w + F32.floor rx)) as [bl ->]; [nia|].
      destruct (load_is_Some src (F32.ceil ry * w + F32.ceil rx)) as [br ->]; [nia|].
      destruct (load_is_Some buf1 (y * w + x)) as [old ->]; [nia|].
      rewrite store_Some by nia.
      eexists. split; [reflexivity|]. rewrite length_insert. exact Hbl1.
    + rewrite Hrun. eexists (_, _). split; [reflexivity|]. split; [lia|exact Hbl'].
  - rewrite Hrun. eexists. split; [reflexivity|].
    repeat split; assumption.
Qed.

Lemma rotateBitmap_total_witness :
  exists b', rotateBitmap (mkBitmap [1; 2; 3; 4; 5; 6] 3 2) (1 # 2) (7 # 8) = Some b' /\
             width b' = 3 /\ height b' = 2.
Proof.
  destruct (rotateBitmap_total (mkBitmap [1; 2; 3; 4; 5; 6] 3 2) (1 # 2) (7 # 8))
    as (b' & Hrun & _ & Hw & Hh).
  - repeat split; discriminate.
  - reflexivity.
  - reflexivity.
  - exists b'. auto.
Defined.

(** *** [scaleBitmap] by 2 and by 1/2 *)

Lemma rne_div_exact (k D : Z) : 0 < D -> F32.rne_div (k * D) D = k.
Proof.
  intros HD. unfold F32.rne_div.
  cbv zeta. rewrite Z.mod_mul, Z.div_mul; try lia.
  destruct (Z.compare_spec (2 * 0) D); lia.
Qed.

(** Halves of integers below 2^24 are binary32 numbers. *)
Lemma round_half (n : Z) : Z.abs n < 2 ^ 24 -> (F32.round (n # 2) == n # 2)%Q.
Proof.
  intros Hn. destruct (Z.even n) eqn:Hev.
  - apply Z.even_spec in Hev as [m ->].
    rewrite (F32Facts.round_proper (2 * m # 2) (inject_Z m))
      by (unfold Qeq; simpl; lia).
    rewrite F32Facts.round_inject_Z by lia.
    unfold Qeq. simpl. lia.
  - assert (Hodd : Z.odd n = true) by (rewrite <- Z.negb_even, Hev; reflexivity).
    apply Z.odd_spec in Hodd as [m Hm].
    assert (Hred : Qred (n # 2) = n # 2).
    { apply Qred_identity. simpl. subst n.
      rewrite Z.gcd_comm, Z.add_comm, Z.mul_comm, Z.gcd_add_mult_diag_r.
      reflexivity. }
    unfold F32.round. rewrite Hred. cbn [Qnum Qden].
    destruct (Z.eqb_spec n 0) as [H0|H0]; [lia|].
    assert (Hmag : F32.mag n 2 <= 23) by (apply F32Facts.mag_le; lia).
    unfold F32.fexp, F32.prec, F32.emin.
    set (e := Z.max (F32.mag n 2 - 24) (-149)).
    assert (He : -149 <= e <= -1) by lia.
    destruct (Z.leb_spec 0 e); [lia|].
    rewrite Qred_correct. unfold F32.scale2.
    destruct (Z.leb_spec 0 e); [lia|].
    replace (2 ^ (- e)) with (2 ^ (- e - 1) * 2)
      by (rewrite Z.mul_comm, <- Z.pow_succ_r by lia; f_equal; lia).
    assert (Hp : 0 < 2 ^ (- e - 1)) by (apply Z.pow_pos_nonneg; lia).
    rewrite Z.mul_assoc, rne_div_exact by lia.
    unfold Qeq. cbn [Qnum Qden]. rewrite Z2Pos.id by lia. lia.
Qed.

Lemma to_int_half (n : Z) :
  0 <= n < 2 ^ 24 -> F32.to_int (F32.mul (inject_Z n) (1 # 2)) = n / 2.
Proof.
  intros Hn. unfold F32.mul.
  rewrite (F32Facts.round_proper _ (n # 2)) by (unfold Qeq; simpl; lia).
  rewrite F32Facts.to_int_floor.
  - rewrite round_half by lia. reflexivity.
  - rewrite round_half by lia. unfold Qle. simpl. lia.
Qed.

(** [scaleBitmap] samples: when the scaled sizes are [W'] and [H'], the
    allocation has [W' * H'] cells and the truncated products
    [(int)(x * wRatio)], [(int)(y * hRatio)] are [fx x], [fy y] inside the
    input, the result is the [W'] by [H'] bitmap whose pixel [(x, y)] is
    the input's pixel [(fx x, fy y)]. *)
Lemma scaleBitmap_sampling (b : Bitmap) (scale : F32.float) (W' H' : Z) (fx fy : Z -> Z) :
  well_formed b -> 0 <= W' -> 0 <= H' ->
  F32.to_int (F32.mul (F32.of_int (width b)) scale) = W' ->
  F32.to_int (F32.mul (F32.of_int (height b)) scale) = H' ->
  F32.to_int (F32.mul (F32.mul (F32.of_int (width b)) scale)
                      (F32.mul (F32.of_int (height b)) scale)) = W' * H' ->
  (forall x, 0 <= x < W' ->
     F32.to_int (F32.mul (F32.of_int x)
                   (F32.div (F32.of_int (width b)) (F32.mul (F32.of_int (width b)) scale)))
     = fx x /\ 0 <= fx x < width b) ->
  (forall y, 0 <= y < H' ->
     F32.to_int (F32.mul (F32.of_int y)
                   (F32.div (F32.of_int (height b)) (F32.mul (F32.of_int (height b)) scale)))
     = fy y /\ 0 <= fy y < height b) ->
  exists buf,
    scaleBitmap b scale = Some (mkBitmap buf W' H') /\
    Z.of_nat (length buf) = W' * H' /\
    forall x y, 0 <= x < W' -> 0 <= y < H' ->
      load buf (y * W' + x) = load (data b) (fy y * width b + fx x).
Proof.
  intros (Hw & Hh & Hlen) HW' HH' HwS HhS Hcal Hfx Hfy. unfold scaleBitmap.
  set (w := width b) in *. set (h := height b) in *. set (src := data b) in *.
  rewrite HwS, HhS, Hcal.
  match goal with
  | |- context [for_range 0 H' ?body ?s] =>
      destruct (for_range_inv
                  (fun y '(buf, dest) =>
                     dest = y * W' /\ Z.of_nat (length buf) = W' * H' /\
                     forall x' y', 0 <= x' < W' -> 0 <= y' < y ->
                       load buf (y' * W' + x') = load src (fy y' * w + fx x'))
                  body 0 H' s) as ([buf dest] & Hrun & Hd & Hbl & Hpix)
  end.
  - lia.
  - split; [lia|]. split; [unfold calloc; rewrite length_replicate; nia|].
    intros x' y' _ Hy'. lia.
  - intros y [buf dest] Hy (Hd & Hbl & Hpix). subst dest.
    destruct (Hfy y Hy) as [Hfyv Hfyr]. rewrite Hfyv.
    match goal with
    | |- context [for_range 0 W' ?body ?s] =>
        destruct (for_range_inv
                    (fun x buf =>
                       Z.of_nat (length buf) = W' * H' /\
                       forall x' y', 0 <= x' < W' ->
                         0 <= y' < y \/ (y' = y /\ x' < x) ->
                         load buf (y' * W' + x') = load src (fy y' * w + fx x'))
                    body 0 W' s) as (buf' & Hrun & Hbl' & Hpix')
    end.
    + lia.
    + split; [exact Hbl|].
      intros x' y' Hx' [Hy'|[_ Hlt]]; [apply Hpix; assumption|lia].
    + intros x buf1 Hx (Hbl1 & Hpix1).
      destruct (Hfx x Hx) as [Hfxv Hfxr]. rewrite Hfxv.
      destruct (load_is_Some src (fy y * w + fx x)) as [v Hv]; [nia|].
      rewrite Hv.
      pose proof (index_range W' H' x y Hx Hy) as Hr.
      rewrite store_Some by lia.
      eexists. split; [reflexivity|].
      split; [rewrite length_insert; exact Hbl1|].
      intros x' y' Hx' Hcase.
      destruct (Z.eq_dec (y' * W' + x') (y * W' + x)) as [Heq|Hne].
      * apply index_inj in Heq as [-> ->]; [|assumption..].
        rewrite load_store_eq by lia. symmetry. exact Hv.
      * rewrite load_store_ne by lia. apply Hpix1; [assumption|].
        destruct Hcase as [Hc|[Hc1 Hc2]]; [left; exact Hc|].
        subst y'. right. split; [reflexivity|].
        assert (x' <> x) by (intros ->; apply Hne; reflexivity). lia.
    + rewrite Hrun.
      eexists (_, _). split; [reflexivity|].
      split; [lia|]. split; [exact Hbl'|].
      intros x' y' Hx' Hy'. apply Hpix'; [assumption|].
      destruct (Z.eq_dec y' y) as [->|Hne]; [right; split; [reflexivity|lia]|left; lia].
  - rewrite Hrun. exists buf. split; [reflexivity|]. split; [exact Hbl|].
    intros x y Hx Hy. apply Hpix; assumption.
Qed.

Lemma scaleBitmap_double (b : Bitmap) :
  well_formed b -> 0 < width b -> 0 < height b ->
  4 * (width b * height b) < 2 ^ 24 ->
  exists b',
    scaleBitmap b 2 = Some b' /\ well_formed b' /\
    width b' = 2 * width b /\ height b' = 2 * height b /\
    forall x y, 0 <= x < 2 * width b -> 0 <= y < 2 * height b ->
      pixel b' x y = pixel b (x / 2) (y / 2).
Proof.
  intros Hwf Hw Hh Hsz.
  set (w := width b) in *. set (h := height b) in *.
  assert (Hw24 : 2 * w < 2 ^ 24) by nia.
  assert (Hh24 : 2 * h < 2 ^ 24) by nia.
  assert (HwS : F32.mul (F32.of_int w) 2 = inject_Z (2 * w)).
  { rewrite F32Facts.of_int_small by lia. change 2%Q with (inject_Z 2).
    rewrite F32Facts.mul_int by lia. f_equal. lia. }
  assert (HhS : F32.mul (F32.of_int h) 2 = inject_Z (2 * h)).
  { rewrite F32Facts.of_int_small by lia. change 2%Q with (inject_Z 2).
    rewrite F32Facts.mul_int by lia. f_equal. lia. }
  assert (Hratio : forall n, 0 < n < 2 ^ 24 ->
            F32.div (F32.of_int n) (inject_Z (2 * n)) = (1 # 2)%Q).
  { intros n Hn. rewrite F32Facts.of_int_small by lia. unfold F32.div.
    rewrite (F32Facts.round_proper _ (1 # 2)); [reflexivity|].
    unfold Qeq, Qdiv, Qmult, Qinv. simpl.
    destruct (2 * n) as [|p|p] eqn:Hp; try lia. simpl. lia. }
  destruct (scaleBitmap_sampling b 2 (2 * w) (2 * h) (fun x => x / 2) (fun y => y / 2))
    as (buf & Hrun & Hlen & Hpix); try assumption; try lia.
  - fold w. rewrite HwS. apply F32Facts.to_int_inject_Z.
  - fold h. rewrite HhS. apply F32Facts.to_int_inject_Z.
  - fold w h. rewrite HwS, HhS, F32Facts.mul_int by lia.
    apply F32Facts.to_int_inject_Z.
  - intros x Hx. fold w. rewrite HwS, Hratio by lia.
    rewrite F32Facts.of_int_small by lia.
    rewrite to_int_half by lia. split; [reflexivity|].
    split; [apply Z.div_pos; lia|apply Z.div_lt_upper_bound; lia].
  - intros y Hy. fold h. rewrite HhS, Hratio by lia.
    rewrite F32Facts.of_int_small by lia.
    rewrite to_int_half by lia. split; [reflexivity|].
    split; [apply Z.div_pos; lia|apply Z.div_lt_upper_bound; lia].
  - eexists. split; [exact Hrun|].
    split; [repeat split; cbn [width height data]; lia|].
    split; [reflexivity|]. split; [reflexivity|].
    intros x y Hx Hy. unfold pixel. cbn [data width height].
    apply Hpix; assumption.
Qed.

(** X5: [scaleBitmap] with factor 2.0 doubles both dimensions and
    repeats every pixel twice in each direction: the pixel at [(x, y)] of
    the result is the input's pixel at [(x / 2, y / 2)]. *)
Theorem scaleBitmap_factor_2 (b : Bitmap) :
  well_formed b -> 0 < width b -> 0 < height b ->
  4 * (width b * height b) < 2 ^ 24 ->
  exists b',
    scaleBitmap b 2 = Some b' /\ well_formed b' /\
    width b' = 2 * width b /\ height b' = 2 * height b /\
    forall x y, 0 <= x < 2 * width b -> 0 <= y < 2 * height b ->
      pixel b' x y = pixel b (x / 2) (y / 2).
Proof. exact (scaleBitmap_double b). Qed.

Lemma scaleBitmap_factor_2_witness :
  exists b', scaleBitmap (mkBitmap [1; 2; 3; 4; 5; 6] 3 2) 2 = Some b' /\
             width b' = 6 /\ pixel b' 3 1 = Some 2.
Proof.
  destruct (scaleBitmap_factor_2 (mkBitmap [1; 2; 3; 4; 5; 6] 3 2))
    as (b' & Hrun & _ & Hw & _ & Hpix).
  - repeat split; discriminate.
  - reflexivity.
  - reflexivity.
  - reflexivity.
  - exists b'. split; [exact Hrun|]. split; [exact Hw|].
    rewrite (Hpix 3 1) by (cbn; lia). reflexivity.
Defined.

(** [scaleBitmap] with factor 0.5 on a bitmap of even sides keeps every
    second pixel of every second row. *)
Lemma scaleBitmap_half (b : Bitmap) (w2 h2 : Z) :
  well_formed b -> 0 < w2 -> 0 < h2 ->
  width b = 2 * w2 -> height b = 2 * h2 -> width b * height b < 2 ^ 24 ->
  exists buf,
    scaleBitmap b (1 # 2) = Some (mkBitmap buf w2 h2) /\
    Z.of_nat (length buf) = w2 * h2 /\
    forall x y, 0 <= x < w2 -> 0 <= y < h2 ->
      load buf (y * w2 + x) = load (data b) (2 * y * width b + 2 * x).
Proof.
  intros Hwf Hw2 Hh2 Hw Hh Hsz.
  assert (Hw24 : width b < 2 ^ 24) by nia.
  assert (Hh24 : height b < 2 ^ 24) by nia.
  assert (Hhalf : forall n, 0 < 2 * n < 2 ^ 24 ->
            F32.mul (F32.of_int (2 * n)) (1 # 2) = inject_Z n).
  { intros n Hn. rewrite F32Facts.of_int_small by lia. unfold F32.mul.
    rewrite (F32Facts.round_proper _ (inject_Z n)) by (unfold Qeq; simpl; lia).
    apply F32Facts.round_inject_Z. lia. }
  assert (Hratio : forall n, 0 < 2 * n < 2 ^ 24 ->
            F32.div (F32.of_int (2 * n)) (inject_Z n) = inject_Z 2).
  { intros n Hn. rewrite F32Facts.of_int_small by lia. unfold F32.div.
    rewrite (F32Facts.round_proper _ (inject_Z 2)); [reflexivity|].
    unfold Qeq, Qdiv, Qmult, Qinv. simpl.
    destruct n as [|p|p] eqn:Hp; try lia. simpl. lia. }
  destruct (scaleBitmap_sampling b (1 # 2) w2 h2 (fun x => x * 2) (fun y => y * 2))
    as (buf & Hrun & Hlen & Hpix); try assumption; try lia.
  - rewrite Hw, Hhalf by lia. apply F32Facts.to_int_inject_Z.
  - rewrite Hh, Hhalf by lia. apply F32Facts.to_int_inject_Z.
  - rewrite Hw, Hh, !Hhalf, F32Facts.mul_int by nia.
    apply F32Facts.to_int_inject_Z.
  - intros x Hx. rewrite Hw, Hhalf, Hratio by lia.
    rewrite F32Facts.of_int_small, F32Facts.mul_int by lia.
    rewrite F32Facts.to_int_inject_Z. lia.
  - intros y Hy. rewrite Hh, Hhalf, Hratio by lia.
    rewrite F32Facts.of_int_small, F32Facts.mul_int by lia.
    rewrite F32Facts.to_int_inject_Z. lia.
  - exists buf. split; [exact Hrun|]. split; [exact Hlen|].
    intros x y Hx Hy. rewrite (Hpix x y Hx Hy). f_equal. lia.
Qed.

(** X6: scaling by 2.0 and then by 0.5 gives the bitmap back. *)
Theorem scaleBitmap_2_then_half (b b2 : Bitmap) :
  well_formed b -> 0 < width b -> 0 < height b ->
  4 * (width b * height b) < 2 ^ 24 ->
  scaleBitmap b 2 = Some b2 -> scaleBitmap b2 (1 # 2) = Some b.
Proof.
  intros Hwf Hw Hh Hsz Hrun.
  destruct (scaleBitmap_double b Hwf Hw Hh Hsz)
    as (b2' & Hrun2 & Hwf2 & Hw2 & Hh2 & Hpix2).
  rewrite Hrun in Hrun2. injection Hrun2 as <-.
  destruct (scaleBitmap_half b2 (width b) (height b) Hwf2 Hw Hh Hw2 Hh2)
    as (buf & Hrun3 & Hlen3 & Hpix3); [nia|].
  rewrite Hrun3. destruct Hwf as (Hw0 & Hh0 & Hlen).
  destruct b as [l w h]. cbn [width height data] in *.
  f_equal. f_equal.
  apply (pixels_ext w h); try assumption.
  intros x y Hx Hy. rewrite (Hpix3 x y Hx Hy).
  specialize (Hpix2 (2 * x) (2 * y) ltac:(lia) ltac:(lia)).
  unfold pixel in Hpix2. cbn [width height data] in Hpix2.
  rewrite Hpix2.
  replace (2 * x / 2) with x by (rewrite Z.mul_comm, Z.div_mul; lia).
  replace (2 * y / 2) with y by (rewrite Z.mul_comm, Z.div_mul; lia).
  reflexivity.
Qed.

Lemma scaleBitmap_2_then_half_witness :
  let b := mkBitmap [1; 2; 3; 4; 5; 6] 3 2 in
  exists b2, scaleBitmap b 2 = Some b2 /\ scaleBitmap b2 (1 # 2) = Some b.
Proof.
  intros b. eexists. split; [vm_compute; reflexivity|].
  apply (scaleBitmap_2_then_half b).
  - repeat split; discriminate.
  - reflexivity.
  - reflexivity.
  - reflexivity.
  - vm_compute. reflexivity.
Defined.

(** *** [drawRect] *)

Lemma for_range_empty {S : Type} (lo hi : Z) (body : Z -> S -> option S) (s : S) :
  hi <= lo -> for_range lo hi body s = Some s.
Proof.
  intros H. unfold for_range. replace (Z.to_nat (hi - lo)) with 0%nat by lia. reflexivity.
Qed.

(** An opaque source replaces the destination. *)
Lemma applyColor_opaque (src dest : Z) :
  0 <= src < 2 ^ 32 -> chanA src = 255 -> applyColor src dest = src.
Proof.
  intros Hsrc Hal. rewrite applyColor_unfold, Hal.
  rewrite !blend_channel_alpha_255 by apply land_255_range.
  rewrite pack_value by (try apply land_255_range; lia).
  rewrite (unpack_value src Hsrc) at 4. rewrite Hal. reflexivity.
Qed.

(** The loops of [drawRect] on a clipped rectangle: corner [(x, y)],
    [w] columns and [h] rows, all inside a buffer of [W * H] pixels. *)
Lemma drawRect_loops (d0 : list Z) (W H x y w h color : Z) :
  Z.of_nat (length d0) = W * H ->
  (0 < w -> 0 < h -> 0 <= x /\ x + w <= W /\ 0 <= y /\ y + h <= H) ->
  exists buf p,
    for_range 0 h
      (fun rectY '(buf, pixel) =>
         match
           for_range 0 w
             (fun rectX buf =>
                match load buf (pixel + rectX) with
                | Some old => store buf (pixel + rectX) (applyColor color old)
                | None => None
                end) buf
         with
         | Some buf' => Some (buf', pixel + W)
         | None => None
         end)
      (d0, y * W + x) = Some (buf, p) /\
    Z.of_nat (length buf) = W * H /\
    forall px py, 0 <= px < W -> 0 <= py < H ->
      load buf (py * W + px) =
      if in_rect x y w h px py then applyColor color <$> load d0 (py * W + px)
      else load d0 (py * W + px).
Proof.
  intros Hlen Hfit.
  destruct (Z.le_gt_cases h 0) as [Hh|Hh].
  { rewrite for_range_empty by lia. exists d0, (y * W + x).
    split; [reflexivity|]. split; [exact Hlen|].
    intros px py Hpx Hpy. unfold in_rect.
    destruct (Z.leb_spec y py), (Z.ltb_spec py (y + h)); try lia;
      rewrite ?andb_false_r; reflexivity. }
  destruct (Z.le_gt_cases w 0) as [Hw|Hw].
  { match goal with
    | |- context [for_range 0 h ?body ?s] =>
        destruct (for_range_inv (fun j '(buf, pixel) => buf = d0) body 0 h s)
          as ([buf p] & Hrun & ->)
    end.
    - lia.
    - reflexivity.
    - intros j [buf p] Hj ->. rewrite for_range_empty by lia.
      eexists (_, _). split; reflexivity.
    - exists d0, p. split; [exact Hrun|]. split; [exact Hlen|].
      intros px py Hpx Hpy. unfold in_rect.
      destruct (Z.leb_spec x px), (Z.ltb_spec px (x + w)); try lia;
        rewrite ?andb_false_r; reflexivity. }
  destruct (Hfit Hw Hh) as (Hx0 & Hx1 & Hy0 & Hy1).
  match goal with
  | |- context [for_range 0 h ?body ?s] =>
      destruct (for_range_inv
                  (fun j '(buf, pixel) =>
                     pixel = (y + j) * W + x /\ Z.of_nat (length buf) = W * H /\
                     forall px py, 0 <= px < W -> 0 <= py < H ->
                       load buf (py * W + px) =
                       if in_rect x y w j px py
                       then applyColor color <$> load d0 (py * W + px)
                       else load d0 (py * W + px))
                  body 0 h s) as ([buf p] & Hrun & _ & Hbl & Hpix)
  end.
  - lia.
  - split; [f_equal; lia|]. split; [exact Hlen|].
    intros px py Hpx Hpy. unfold in_rect.
    destruct (Z.leb_spec y py), (Z.ltb_spec py (y + 0)); try lia;
      rewrite ?andb_false_r; reflexivity.
  - intros j [buf pixel] Hj (-> & Hbl & Hpix).
    match goal with
    | |- context [for_range 0 w ?body ?s] =>
        destruct (for_range_inv
                    (fun i buf =>
                       Z.of_nat (length buf) = W * H /\
                       forall px py, 0 <= px < W -> 0 <= py < H ->
                         load buf (py * W + px) =
                         if in_rect x y w j px py || in_rect x (y + j) i 1 px py
                         then applyColor color <$> load d0 (py * W + px)
                         else load d0 (py * W + px))
                    body 0 w s) as (buf' & Hrun & Hbl' & Hpix')
    end.
    + lia.
    + split; [exact Hbl|]. intros px py Hpx Hpy. rewrite (Hpix px py Hpx Hpy).
      replace (in_rect x (y + j) 0 1 px py) with false; [rewrite orb_false_r; reflexivity|].
      unfold in_rect. destruct (Z.leb_spec x px), (Z.ltb_spec px (x + 0)); try lia;
        reflexivity.
    + intros i buf1 Hi (Hbl1 & Hpix1).
      assert (Hxi : 0 <= x + i < W) by lia.
      assert (Hyj : 0 <= y + j < H) by lia.
      pose proof (index_range W H (x + i) (y + j) Hxi Hyj) as Hr.
      replace ((y + j) * W + x + i) with ((y + j) * W + (x + i)) by lia.
      rewrite (Hpix1 (x + i) (y + j) Hxi Hyj).
      replace (in_rect x y w j (x + i) (y + j) || in_rect x (y + j) i 1 (x + i) (y + j))
        with false.
      2:{ unfold in_rect. symmetry. apply orb_false_iff. split.
          - destruct (Z.ltb_spec (y + j) (y + j)); [lia|]. apply andb_false_r.
          - destruct (Z.ltb_spec (x + i) (x + i)); [lia|].
            rewrite andb_false_r. reflexivity. }
      destruct (load_is_Some d0 ((y + j) * W + (x + i)) ltac:(lia)) as [v Hv].
      rewrite Hv. rewrite store_Some by lia.
      eexists. split; [reflexivity|].
      split; [rewrite length_insert; exact Hbl1|].
      intros px py Hpx Hpy.
      destruct (Z.eq_dec (py * W + px) ((y + j) * W + (x + i))) as [Heq|Hne].
      * apply index_inj in Heq as [-> ->]; [|assumption..].
        rewrite load_store_eq by lia. rewrite Hv.
        replace (in_rect x (y + j) (i + 1) 1 (x + i) (y + j)) with true;
          [rewrite orb_true_r; reflexivity|].
        unfold in_rect. symmetry. rewrite !andb_true_iff.
        repeat split; try apply Z.leb_le; try apply Z.ltb_lt; lia.
      * rewrite load_store_ne by lia. rewrite (Hpix1 px py Hpx Hpy).
        replace (in_rect x (y + j) (i + 1) 1 px py) with (in_rect x (y + j) i 1 px py);
          [reflexivity|].
        unfold in_rect.
        destruct (Z.leb_spec x px), (Z.ltb_spec px (x + i)), (Z.ltb_spec px (x + (i + 1))),
          (Z.leb_spec (y + j) py), (Z.ltb_spec py (y + j + 1));
          try reflexivity; try lia.
        exfalso. apply Hne. assert (py = y + j) by lia. assert (px = x + i) by lia.
        subst. reflexivity.
    + rewrite Hrun. eexists (_, _). split; [reflexivity|].
      split; [lia|]. split; [exact Hbl'|].
      intros px py Hpx Hpy. rewrite (Hpix' px py Hpx Hpy).
      replace (in_rect x y w (j + 1) px py)
        with (in_rect x y w j px py || in_rect x (y + j) w 1 px py); [reflexivity|].
      unfold in_rect.
      destruct (Z.leb_spec x px), (Z.ltb_spec px (x + w)), (Z.leb_spec y py),
        (Z.ltb_spec py (y + j)), (Z.ltb_spec py (y + (j + 1))),
        (Z.leb_spec (y + j) py), (Z.ltb_spec py (y + j + 1));
        try reflexivity; lia.
  - exists buf, p. split; [exact Hrun|]. split; [exact Hbl|]. exact Hpix.
Qed.

(** [drawRect] on a display-sized bitmap: what it leaves in the pixel
    array. *)
Lemma drawRect_spec (buffer : Bitmap) (x y w h color : Z) :
  display_bitmap buffer ->
  exists buf,
    drawRect buffer x y w h color = Some (mkBitmap buf DISPLAY_PW DISPLAY_PH) /\
    Z.of_nat (length buf) = DISPLAY_PW * DISPLAY_PH /\
    forall px py, 0 <= px < DISPLAY_PW -> 0 <= py < DISPLAY_PH ->
      load buf (py * DISPLAY_PW + px) =
      if in_rect x y w h px py
      then applyColor color <$> load (data buffer) (py * DISPLAY_PW + px)
      else load (data buffer) (py * DISPLAY_PW + px).
Proof.
  intros (HW & HH & Hlen). unfold drawRect. rewrite HW, HH.
  set (wx := if x <? 0 then (w + x, 0) else (w, x)).
  set (hy := if y <? 0 then (h + y, 0) else (h, y)).
  assert (Hwx : wx = (if x <? 0 then w + x else w, Z.max x 0))
    by (subst wx; destruct (Z.ltb_spec x 0); f_equal; lia).
  assert (Hhy : hy = (if y <? 0 then h + y else h, Z.max y 0))
    by (subst hy; destruct (Z.ltb_spec y 0); f_equal; lia).
  rewrite Hwx, Hhy. clear wx hy Hwx Hhy.
  set (x1 := Z.max x 0). set (y1 := Z.max y 0).
  set (w1 := if x <? 0 then w + x else w). set (h1 := if y <? 0 then h + y else h).
  set (w2 := if DISPLAY_PW <=? x1 + w1 then DISPLAY_PW - x1 else w1).
  set (h2 := if DISPLAY_PH <=? y1 + h1 then DISPLAY_PH - y1 else h1).
  assert (Hw1 : x1 + w1 = x + w) by (subst x1 w1; destruct (Z.ltb_spec x 0); lia).
  assert (Hh1 : y1 + h1 = y + h) by (subst y1 h1; destruct (Z.ltb_spec y 0); lia).
  assert (Hw2 : x1 + w2 = Z.min (x + w) DISPLAY_PW)
    by (subst w2; destruct (Z.leb_spec DISPLAY_PW (x1 + w1)); lia).
  assert (Hh2 : y1 + h2 = Z.min (y + h) DISPLAY_PH)
    by (subst h2; destruct (Z.leb_spec DISPLAY_PH (y1 + h1)); lia).
  destruct (drawRect_loops (data buffer) DISPLAY_PW DISPLAY_PH x1 y1 w2 h2 color Hlen)
    as (buf & p & Hrun & Hbl & Hpix).
  { intros Hwp Hhp. subst x1 y1. lia. }
  rewrite Hrun. exists buf. split; [reflexivity|]. split; [exact Hbl|].
  intros px py Hpx Hpy. rewrite (Hpix px py Hpx Hpy).
  replace (in_rect x1 y1 w2 h2 px py) with (in_rect x y w h px py); [reflexivity|].
  unfold in_rect. rewrite Hw2, Hh2. subst x1 y1.
  destruct (Z.leb_spec x px), (Z.ltb_spec px (x + w)), (Z.leb_spec y py),
    (Z.ltb_spec py (y + h)), (Z.leb_spec (Z.max x 0) px),
    (Z.ltb_spec px (Z.min (x + w) DISPLAY_PW)), (Z.leb_spec (Z.max y 0) py),
    (Z.ltb_spec py (Z.min (y + h) DISPLAY_PH)); try reflexivity; lia.
Qed.



(** ** The ripple pool: every run *)

Module RipplesRuns.

Import Ripples.

(** *** The pool and the heap after any run *)


Lemma animate_slot_index (s : Pool) (i : nat) :
  rippleIndex (animate_slot s i) = rippleIndex s.
Proof.
  unfold animate_slot. destruct (rippleArray s !! i) as [r|]; [|reflexivity].
  destruct (active r =? 0); [reflexivity|]. destruct (F32.geb _ _); reflexivity.
Qed.


Lemma animateRipple_index (s : Pool) : rippleIndex (animateRipple s) = rippleIndex s.
Proof.
  unfold animateRipple. cbn [seq fold_left]. rewrite !animate_slot_index. reflexivity.
Qed.











(** *** Every ripple dies within 27 frames *)



(** *** A block that lost its entry is never freed *)






End RipplesRuns.

(** ** The tile world: queries and steps *)

Module WorldQueries.

Import World.

(** *** Queries on a generated map *)

Lemma elem_of_coords (l : list Tile) (x0 y0 : Z) :
  (x0, y0) ∈ coords <$> l <-> exists t, t ∈ l /\ x t = x0 /\ y t = y0.
Proof.
  rewrite list_elem_of_fmap. split.
  - intros (t & Ht & Hin). exists t. unfold coords in Ht. injection Ht as -> ->. auto.
  - intros (t & Hin & <- & <-). exists t. auto.
Qed.

(** X11: in a generated map a query at a column strictly between the two
    walls is exact: [borderCollide] returns 0 if and only if a tile is
    recorded at [(x, y)], and 1 otherwise; in particular it returns 1 in
    every row outside the bounding box.  ([y] is kept small enough for
    [y * MAPWIDTH + x] to fit an [int].) *)
Theorem borderCollide_interior_exact
  (rand : nat -> Z) (fuel : nat) (tileArray : list Tile) (x0 y0 : Z) :
  initMap rand fuel = Some tileArray ->
  -1000 < x0 < 1000 -> -1000000 <= y0 <= 1000000 ->
  (borderCollide tileArray x0 y0 = 0 <-> (x0, y0) ∈ coords <$> tileArray) /\
  (borderCollide tileArray x0 y0 = 1 <-> (x0, y0) ∉ coords <$> tileArray) /\
  (y0 < -1000 \/ 1000 < y0 -> borderCollide tileArray x0 y0 = 1).
Proof.
  intros Hrun Hx Hy.
  destruct (WorldProofs.initMap_result rand fuel tileArray Hrun) as (Hlen & _ & Hsorted & _).
  pose proof (WorldProofs.initMap_tiles_ok rand fuel tileArray Hrun) as Hok.
  rewrite Forall_forall in Hok.
  assert (Hiff : borderCollide tileArray x0 y0 = 0 <-> (x0, y0) ∈ coords <$> tileArray).
  { rewrite (WorldProofs.borderCollide_iff_key tileArray x0 y0 Hsorted Hlen).
    rewrite elem_of_coords. split.
    - intros (t & Hin & Hflat). exists t. split; [exact Hin|].
      destruct (Hok t Hin) as (Hf & Htx & Hty). rewrite Hf in Hflat.
      unfold MAPWIDTH in Hflat. lia.
    - intros (t & Hin & Htx & Hty). exists t. split; [exact Hin|].
      destruct (Hok t Hin) as (Hf & _). rewrite Hf, Htx, Hty. reflexivity. }
  assert (H01 : borderCollide tileArray x0 y0 = 0 \/ borderCollide tileArray x0 y0 = 1).
  { unfold borderCollide. destruct (bsearch _ _ _ _); auto. }
  split; [exact Hiff|]. split.
  - split.
    + intros H1 Hin. apply Hiff in Hin. lia.
    + intros Hnin. destruct H01 as [H0|H1]; [|exact H1].
      apply Hiff in H0. contradiction.
  - intros Hout. destruct H01 as [H0|H1]; [|exact H1].
    apply Hiff, elem_of_coords in H0 as (t & Hin & Htx & Hty).
    destruct (Hok t Hin) as (_ & _ & Hyr). lia.
Qed.

Lemma borderCollide_interior_exact_witness :
  (borderCollide map_left_then_up (-5) 0 = 0 <-> (-5, 0) ∈ coords <$> map_left_then_up) /\
  (borderCollide map_left_then_up (-5) 0 = 1 <-> (-5, 0) ∉ coords <$> map_left_then_up) /\
  (0 < -1000 \/ 1000 < 0 -> borderCollide map_left_then_up (-5) 0 = 1).
Proof.
  apply (borderCollide_interior_exact rand_left_then_up 2000 map_left_then_up (-5) 0).
  - vm_compute. reflexivity.
  - lia.
  - lia.
Defined.

(** X12: in every generated map the start tile [(0, 0)] is walkable, and
    so is every recorded tile; all recorded tiles lie in the bounding
    box. *)
Theorem initMap_tiles_walkable (rand : nat -> Z) (fuel : nat) (tileArray : list Tile) :
  initMap rand fuel = Some tileArray ->
  borderCollide tileArray 0 0 = 0 /\
  forall t, t ∈ tileArray ->
    borderCollide tileArray (x t) (y t) = 0 /\
    - (MAPWIDTH ÷ 2) <= x t <= MAPWIDTH ÷ 2 /\
    - (MAPHEIGHT ÷ 2) <= y t <= MAPHEIGHT ÷ 2.
Proof.
  intros Hrun.
  destruct (WorldProofs.borderCollide_generated rand fuel tileArray Hrun) as [Hwalk _].
  pose proof (WorldProofs.initMap_origin rand fuel tileArray Hrun) as H0.
  pose proof (WorldProofs.initMap_tiles_ok rand fuel tileArray Hrun) as Hok.
  rewrite Forall_forall in Hok. split.
  - exact (Hwalk _ H0).
  - intros t Hin. split; [exact (Hwalk t Hin)|].
    destruct (Hok t Hin) as (_ & Htx & Hty).
    change (MAPWIDTH ÷ 2) with 1000. change (MAPHEIGHT ÷ 2) with 1000. auto.
Qed.

Lemma initMap_tiles_walkable_witness :
  borderCollide map_left_then_up 0 0 = 0 /\
  forall t, t ∈ map_left_then_up ->
    borderCollide map_left_then_up (x t) (y t) = 0 /\
    - (MAPWIDTH ÷ 2) <= x t <= MAPWIDTH ÷ 2 /\
    - (MAPHEIGHT ÷ 2) <= y t <= MAPHEIGHT ÷ 2.
Proof.
  apply (initMap_tiles_walkable rand_left_then_up 2000 map_left_then_up).
  vm_compute. reflexivity.
Defined.

(** X13: one iteration of the walk, from a position in the bounding box:
    the position it stands on is recorded (earlier tiles are kept), and
    the next position is the same one, or one of its four neighbours, or
    - stepping left of the wall [x = -1000] or below [y = -1000] - the
    opposite wall, [x = 1000] or [y = 1000]; stepping beyond a high wall
    stays on it. *)
Theorem initMap_step_moves (rand : nat -> Z) (s : Walk) :
  -1000 <= wx s <= 1000 -> -1000 <= wy s <= 1000 ->
  let s' := initMap_step rand s in
  (wx s, wy s) ∈ coords <$> tiles s' /\
  (forall t, t ∈ tiles s -> t ∈ tiles s') /\
  ((wx s' = wx s /\ wy s' = wy s) \/
   (wy s' = wy s /\ wx s < 1000 /\ wx s' = wx s + 1) \/
   (wy s' = wy s /\ -1000 < wx s /\ wx s' = wx s - 1) \/
   (wx s' = wx s /\ wy s < 1000 /\ wy s' = wy s + 1) \/
   (wx s' = wx s /\ -1000 < wy s /\ wy s' = wy s - 1) \/
   (wy s' = wy s /\ wx s = -1000 /\ wx s' = 1000) \/
   (wx s' = wx s /\ wy s = -1000 /\ wy s' = 1000)).
Proof.
  intros Hx Hy. cbv zeta. split; [|split].
  - rewrite WorldProofs.initMap_step_tiles.
    destruct (existsb _ (tiles s)) eqn:Hrep.
    + apply WorldProofs.existsb_coords. exact Hrep.
    + rewrite fmap_app. apply elem_of_app. right. cbn. apply list_elem_of_singleton.
      reflexivity.
  - intros t Ht. apply WorldProofs.initMap_step_keeps. exact Ht.
  - unfold initMap_step.
    change (MAPWIDTH ÷ 2) with 1000. change (MAPHEIGHT ÷ 2) with 1000.
    destruct (Z.rem (i s) 20 =? 0); cbv zeta;
      repeat match goal with
             | |- context [let '(_, _) := (if ?c then _ else _) in _] => destruct c
             end; cbn [wx wy];
      repeat match goal with
             | |- context [?a <? ?b] => destruct (Z.ltb_spec a b)
             | H : context [?a <? ?b] |- _ => destruct (Z.ltb_spec a b)
             end; lia.
Qed.

Lemma initMap_step_moves_witness :
  let s := mkWalk (-1000) 7 0 0 [] 1 0 in
  let s' := initMap_step rand_left_then_up s in
  (wx s, wy s) ∈ coords <$> tiles s' /\
  (forall t, t ∈ tiles s -> t ∈ tiles s') /\
  ((wx s' = wx s /\ wy s' = wy s) \/
   (wy s' = wy s /\ wx s < 1000 /\ wx s' = wx s + 1) \/
   (wy s' = wy s /\ -1000 < wx s /\ wx s' = wx s - 1) \/
   (wx s' = wx s /\ wy s < 1000 /\ wy s' = wy s + 1) \/
   (wx s' = wx s /\ -1000 < wy s /\ wy s' = wy s - 1) \/
   (wy s' = wy s /\ wx s = -1000 /\ wx s' = 1000) \/
   (wx s' = wx s /\ wy s = -1000 /\ wy s' = 1000)).
Proof.
  intros s. apply (initMap_step_moves rand_left_then_up s); cbn; lia.
Defined.

End WorldQueries.

(** ** The scroll compositor: views, camera and frames *)

Module ScrollFrames.

Import Scroll.

(** *** [drawMap] *)

Lemma drawMap_cell (tileArray : list World.Tile) (tx ty c0 r0 : Z) (b : Bitmap) :
  0 <= c0 <= 20 -> 0 <= r0 <= 11 ->
  view_inv tileArray tx ty (r0 * 21 + c0) b ->
  exists b',
    (if tile_found tileArray (tx + c0) (ty + r0) then
       match drawRect b (c0 * 48) (r0 * 48) TILESIZE TILESIZE black with
       | None => None
       | Some new1 =>
           match drawRect new1 (c0 * 48 - 2) (r0 * 48 - 2)
                          (TILESIZE - 2) (TILESIZE - 2) blue with
           | None => None
           | Some new2 => Some (new2, c0 * 48 + TILESIZE)
           end
       end
     else Some (b, c0 * 48 + TILESIZE)) = Some (b', (c0 + 1) * 48) /\
    view_inv tileArray tx ty (r0 * 21 + c0 + 1) b'.
Proof.
  intros Hc0 Hr0 [Hb Hinv].
  destruct (tile_found tileArray (tx + c0) (ty + r0)) eqn:Hland.
  - destruct (drawRect_spec b (c0 * 48) (r0 * 48) TILESIZE TILESIZE black Hb)
      as (buf1 & Hrun1 & Hlen1 & Hpix1).
    rewrite Hrun1.
    assert (Hb1 : display_bitmap (mkBitmap buf1 DISPLAY_PW DISPLAY_PH))
      by (repeat split; exact Hlen1).
    destruct (drawRect_spec _ (c0 * 48 - 2) (r0 * 48 - 2) (TILESIZE - 2) (TILESIZE - 2)
                blue Hb1) as (buf2 & Hrun2 & Hlen2 & Hpix2).
    rewrite Hrun2. eexists. split; [f_equal; f_equal; unfold TILESIZE; lia|].
    split; [repeat split; exact Hlen2|].
    intros px py Hpx Hpy. cbn [data] in *.
    destruct (Hinv px py Hpx Hpy) as (v & Hv & Hcol & Hcore).
    rewrite (Hpix2 px py Hpx Hpy), (Hpix1 px py Hpx Hpy), Hv.
    unfold TILESIZE in *. change (48 - 2) with 46.
    destruct (in_rect (c0 * 48 - 2) (r0 * 48 - 2) 46 46 px py) eqn:Hblue.
    + exists blue. split.
      { destruct (in_rect (c0 * 48) (r0 * 48) 48 48 px py); cbn;
          rewrite applyColor_opaque by (vm_compute; intuition discriminate); reflexivity. }
      split; [right; right; reflexivity|].
      intros c r ox oy -> -> Hox Hoy.
      unfold in_rect in Hblue. rewrite !andb_true_iff in Hblue.
      destruct Hblue as (((H1 & H2) & H3) & H4).
      apply Z.leb_le in H1, H3. apply Z.ltb_lt in H2, H4.
      assert (c = c0) by lia. assert (r = r0) by lia. subst c r.
      rewrite Hland. destruct (Z.ltb_spec (r0 * 21 + c0) (r0 * 21 + c0 + 1)); [|lia].
      reflexivity.
    + destruct (in_rect (c0 * 48) (r0 * 48) 48 48 px py) eqn:Hblack.
      * exists black. split.
        { cbn. rewrite applyColor_opaque by (vm_compute; intuition discriminate).
          reflexivity. }
        split; [right; left; reflexivity|].
        intros c r ox oy -> -> Hox Hoy. exfalso.
        unfold in_rect in Hblack. rewrite !andb_true_iff in Hblack.
        destruct Hblack as (((H1 & H2) & H3) & H4).
        apply Z.leb_le in H1, H3. apply Z.ltb_lt in H2, H4.
        assert (c = c0) by lia. assert (r = r0) by lia. subst c r.
        unfold in_rect in Hblue.
        destruct (Z.leb_spec (c0 * 48 - 2) (c0 * 48 + ox)); [|lia].
        destruct (Z.ltb_spec (c0 * 48 + ox) (c0 * 48 - 2 + 46)); [|lia].
        destruct (Z.leb_spec (r0 * 48 - 2) (r0 * 48 + oy)); [|lia].
        destruct (Z.ltb_spec (r0 * 48 + oy) (r0 * 48 - 2 + 46)); [|lia].
        discriminate Hblue.
      * exists v. split; [reflexivity|]. split; [exact Hcol|].
        intros c r ox oy Hpxe Hpye Hox Hoy.
        rewrite (Hcore c r ox oy Hpxe Hpye Hox Hoy). subst px py.
        assert (Hne : ~ (c = c0 /\ r = r0)).
        { intros [-> ->]. unfold in_rect in Hblack.
          destruct (Z.leb_spec (c0 * 48) (c0 * 48 + ox)); [|lia].
          destruct (Z.ltb_spec (c0 * 48 + ox) (c0 * 48 + 48)); [|lia].
          destruct (Z.leb_spec (r0 * 48) (r0 * 48 + oy)); [|lia].
          destruct (Z.ltb_spec (r0 * 48 + oy) (r0 * 48 + 48)); [|lia].
          discriminate Hblack. }
        unfold DISPLAY_PW in Hpx.
        destruct (Z.ltb_spec (r * 21 + c) (r0 * 21 + c0)),
          (Z.ltb_spec (r * 21 + c) (r0 * 21 + c0 + 1)); try reflexivity; lia.
  - exists b. split; [f_equal; f_equal; unfold TILESIZE; lia|].
    split; [exact Hb|].
    intros px py Hpx Hpy.
    destruct (Hinv px py Hpx Hpy) as (v & Hv & Hcol & Hcore).
    exists v. split; [exact Hv|]. split; [exact Hcol|].
    intros c r ox oy Hpxe Hpye Hox Hoy.
    rewrite (Hcore c r ox oy Hpxe Hpye Hox Hoy). subst px py.
    unfold DISPLAY_PW, TILESIZE in *.
    destruct (Z.ltb_spec (r * 21 + c) (r0 * 21 + c0)),
      (Z.ltb_spec (r * 21 + c) (r0 * 21 + c0 + 1)); try reflexivity; try lia.
    assert (c = c0) by lia. assert (r = r0) by lia. subst c r.
    rewrite Hland. reflexivity.
Qed.

Lemma drawMap_spec (tileArray : list World.Tile) (g : Game) :
  display_bitmap (bgBufferNew g) -> display_sized (data (bgBufferOld g)) ->
  exists new',
    drawMap tileArray g
    = Some (mkGame (cam g) (bgBufferNew g) new' (display_buffer g)) /\
    view_inv tileArray (destTileX (cam g) - 10) (destTileY (cam g) - 5) (12 * 21) new'.
Proof.
  intros Hnew Hold. pose proof Hnew as (HW & HH & Hlen). unfold display_sized in Hold.
  unfold drawMap, memcpy. rewrite HW, HH.
  destruct (Z.leb_spec 0 (DISPLAY_PW * DISPLAY_PH)); [|unfold DISPLAY_PW, DISPLAY_PH in *; lia].
  destruct (Z.leb_spec (DISPLAY_PW * DISPLAY_PH) (Z.of_nat (length (data (bgBufferNew g)))));
    [|lia].
  destruct (Z.leb_spec (DISPLAY_PW * DISPLAY_PH) (Z.of_nat (length (data (bgBufferOld g)))));
    [|lia].
  cbn [andb].
  rewrite take_ge, drop_ge, app_nil_r by lia.
  assert (Hwf : well_formed (bgBufferNew g)).
  { unfold well_formed. rewrite HW, HH, Hlen. unfold DISPLAY_PW, DISPLAY_PH. lia. }
  rewrite (fillBitmap_replicate _ gold Hwf), HW, HH.
  change (DISPLAY_TW ÷ 2) with 10. change (DISPLAY_TH ÷ 2) with 5.
  set (tx := destTileX (cam g) - 10). set (ty := destTileY (cam g) - 5).
  match goal with
  | |- context [for_range ty ?hi ?body ?s] =>
      destruct (for_range_inv
                  (fun y '(new, pixelY) =>
                     pixelY = (y - ty) * 48 /\
                     view_inv tileArray tx ty ((y - ty) * 21) new)
                  body ty hi s) as ([new' pY] & Hrun & _ & Hinv)
  end.
  - lia.
  - split; [lia|]. split.
    + repeat split. cbn [data]. rewrite length_replicate. exact Hlen.
    + intros px py Hpx Hpy. exists gold. cbn [data]. split.
      * apply load_Some; [unfold DISPLAY_PW in *; lia|].
        apply lookup_replicate. split; [reflexivity|].
        pose proof (index_range DISPLAY_PW DISPLAY_PH px py Hpx Hpy). lia.
      * split; [left; reflexivity|].
        intros c r ox oy -> -> Hox Hoy. unfold DISPLAY_PW, DISPLAY_PH, TILESIZE in *.
        replace ((ty - ty) * 21) with 0 by lia.
        destruct (Z.ltb_spec (r * 21 + c) 0); [lia|]. reflexivity.
  - intros y [new pixelY] Hy (-> & Hinv).
    match goal with
    | |- context [for_range ?lo ?hi ?body ?s] =>
        destruct (for_range_inv
                    (fun x '(new, pixelX) =>
                       pixelX = (x - tx) * 48 /\
                       view_inv tileArray tx ty ((y - ty) * 21 + (x - tx)) new)
                    body lo hi s) as ([new1 pX] & Hrun & _ & Hinv1)
    end.
    + lia.
    + split; [subst tx; lia|].
      match goal with
      | |- view_inv _ _ _ ?k _ => replace k with ((y - ty) * 21) by (subst tx; lia)
      end.
      exact Hinv.
    + intros x [new1 pixelX] Hx (-> & Hinv1).
      destruct (drawMap_cell tileArray tx ty (x - tx) (y - ty) new1) as (b' & Hcell & Hinv').
      * subst tx. lia.
      * subst ty. lia.
      * exact Hinv1.
      * replace (tx + (x - tx)) with x in Hcell by lia.
        replace (ty + (y - ty)) with y in Hcell by lia.
        rewrite Hcell. eexists (_, _). split; [reflexivity|].
        split; [lia|].
        match goal with
        | |- view_inv _ _ _ ?k _ =>
            replace k with ((y - ty) * 21 + (x - tx) + 1) by lia
        end.
        exact Hinv'.
    + rewrite Hrun. eexists (_, _). split; [reflexivity|].
      split; [unfold TILESIZE; lia|].
      match type of Hinv1 with
      | view_inv _ _ _ ?k _ => replace ((y + 1 - ty) * 21) with k by (subst tx; lia)
      end.
      exact Hinv1.
  - rewrite Hrun. exists new'. split.
    + f_equal. f_equal. destruct (bgBufferNew g) as [d w h0]. cbn in *. subst. reflexivity.
    + match type of Hinv with
      | view_inv _ _ _ ?k _ => replace (12 * 21) with k by (subst ty; lia)
      end.
      exact Hinv.
Qed.

(** X14: [drawMap], with display-sized view buffers and any tile array,
    stays inside its arrays; the old view becomes what the new view
    was; the camera and the display are not touched; the new view is a
    display-sized bitmap in which every pixel is gold, black or blue, and
    in which the 44 by 44 pixel core of the cell in column [c], row [r]
    is blue when [bsearch] finds the tile
    [(destTileX - 10 + c, destTileY - 5 + r)] and gold otherwise. *)
Theorem drawMap_view (tileArray : list World.Tile) (g : Game) :
  display_bitmap (bgBufferNew g) -> display_sized (data (bgBufferOld g)) ->
  exists g',
    drawMap tileArray g = Some g' /\
    cam g' = cam g /\ display_buffer g' = display_buffer g /\
    bgBufferOld g' = bgBufferNew g /\
    display_bitmap (bgBufferNew g') /\
    (forall px py, 0 <= px < DISPLAY_PW -> 0 <= py < DISPLAY_PH ->
       exists v, pixel (bgBufferNew g') px py = Some v /\ view_colour v) /\
    (forall c r ox oy,
       0 <= c < 20 -> 0 <= r < 12 -> 0 <= ox < 44 -> 0 <= oy < 44 ->
       r * TILESIZE + oy < DISPLAY_PH ->
       pixel (bgBufferNew g') (c * TILESIZE + ox) (r * TILESIZE + oy)
       = Some (if tile_found tileArray (destTileX (cam g) - 10 + c)
                                       (destTileY (cam g) - 5 + r)
               then blue else gold)).
Proof.
  intros Hnew Hold.
  destruct (drawMap_spec tileArray g Hnew Hold) as (new' & Hrun & Hb & Hinv).
  eexists. split; [exact Hrun|]. cbn [cam display_buffer bgBufferOld bgBufferNew].
  split; [reflexivity|]. split; [reflexivity|]. split; [reflexivity|].
  split; [exact Hb|]. destruct Hb as (HW & _ & _). split.
  - intros px py Hpx Hpy. destruct (Hinv px py Hpx Hpy) as (v & Hv & Hcol & _).
    exists v. unfold pixel. rewrite HW. auto.
  - intros c r ox oy Hc Hr Hox Hoy Hrow.
    destruct (Hinv (c * TILESIZE + ox) (r * TILESIZE + oy)) as (v & Hv & _ & Hcore).
    + unfold DISPLAY_PW, TILESIZE. lia.
    + unfold TILESIZE in *. lia.
    + unfold pixel. rewrite HW, Hv. f_equal.
      rewrite (Hcore c r ox oy eq_refl eq_refl Hox Hoy).
      destruct (Z.ltb_spec (r * 21 + c) (12 * 21)); [|lia]. reflexivity.
Qed.

Lemma drawMap_view_witness :
  exists g',
    drawMap World.map_left_then_up still_example = Some g' /\
    bgBufferOld g' = bgBufferNew still_example /\
    pixel (bgBufferNew g') (10 * TILESIZE + 3) (5 * TILESIZE + 3) = Some blue /\
    pixel (bgBufferNew g') (10 * TILESIZE + 3) (6 * TILESIZE + 3) = Some gold.
Proof.
  destruct (drawMap_view World.map_left_then_up still_example)
    as (g' & Hrun & _ & _ & Hold & _ & _ & Hcore).
  - unfold display_bitmap. cbn [still_example bgBufferNew width height data].
    split; [reflexivity|]. split; [reflexivity|].
    rewrite length_replicate. apply ScrollProofs.npixels_Z.
  - unfold display_sized. cbn [still_example bgBufferOld data].
    rewrite length_replicate. apply ScrollProofs.npixels_Z.
  - exists g'. split; [exact Hrun|]. split; [exact Hold|]. split.
    + rewrite (Hcore 10 5 3 3) by (vm_compute; intuition discriminate).
      vm_compute. reflexivity.
    + rewrite (Hcore 10 6 3 3) by (vm_compute; intuition discriminate).
      vm_compute. reflexivity.
Defined.

(** *** [drawBackground]: the whole display *)

Lemma drawBackground_scroll_spec (g : Game) :
  mid_scroll (cam g) ->
  offsets_ok (F32.to_int (pixelX (cam g))) (F32.to_int (pixelY (cam g))) ->
  display_sized (data (bgBufferOld g)) ->
  display_sized (data (bgBufferNew g)) ->
  display_sized (display_buffer g) ->
  exists g',
    drawBackground g = Some g' /\
    scroll_inv g (F32.to_int (pixelX (cam g))) (F32.to_int (pixelY (cam g)))
               (DISPLAY_PW * DISPLAY_PH) g'.
Proof.
  intros Hmid Hoff Hold Hnew Hdisp.
  unfold drawBackground.
  set (minX := F32.to_int (pixelX (cam g))) in *.
  set (minY := F32.to_int (pixelY (cam g))) in *.
  replace (negb (tileX (cam g) =? destTileX (cam g))
           || negb (tileY (cam g) =? destTileY (cam g))) with true
    by (symmetry; apply orb_true_iff; rewrite !negb_true_iff, !Z.eqb_neq; exact Hmid).
  unfold display_sized, offsets_ok in *. ScrollProofs.unfold_display.
  match goal with
  | |- context [for_range minY ?hi ?body g] =>
      destruct (for_range_inv
                  (fun y t => scroll_inv g minX minY ((y - minY) * 960) t)
                  body minY (minY + 540) g)
        as (g' & Hrun & Hinv)
  end.
  - lia.
  - repeat split; [exact Hdisp|]. intros dx dy Hdx Hdy Hk.
    ScrollProofs.unfold_display. lia.
  - intros y t Hy Ht.
    match goal with
    | |- context [for_range minX ?hi ?body t] =>
        destruct (for_range_inv
                    (fun x u => scroll_inv g minX minY ((y - minY) * 960 + (x - minX)) u)
                    body minX (minX + 960) t) as (t' & Hrun & Hinv)
    end.
    + lia.
    + replace ((y - minY) * 960 + (minX - minX)) with ((y - minY) * 960) by lia. exact Ht.
    + intros x u Hx ((Hcam & HuOld & HuNew) & Hlen & Hpix).
      unfold display_sized in Hlen. ScrollProofs.unfold_display.
      rewrite HuOld, HuNew.
      change ((540 ÷ 48 - 5) * 48) with 288 in *.
      assert (Hsample : exists v,
                 scroll_sample g x y = Some v /\
                 (let '(src, newX, newY) :=
                    if x <? 0 then (data (bgBufferNew g), x + 720, y)
                    else if 960 <=? x then (data (bgBufferNew g), x - 720, y)
                    else if y <? 0 then (data (bgBufferNew g), x, y + 288)
                    else if 540 <=? y then (data (bgBufferNew g), x, y - 288)
                    else (data (bgBufferOld g), x, y) in
                  load src (newY * 960 + newX)) = Some v).
      { unfold scroll_sample. ScrollProofs.unfold_display.
        change ((540 ÷ 48 - 5) * 48) with 288 in *.
        destruct (Z.ltb_spec x 0);
          [|destruct (Z.leb_spec 960 x);
            [|destruct (Z.ltb_spec y 0); [|destruct (Z.leb_spec 540 y)]]];
          match goal with
          | |- exists v, load ?l ?k = Some v /\ _ =>
              destruct (load_is_Some l k ltac:(lia)) as [v Hv]; exists v;
              split; [exact Hv|rewrite <- Hv; f_equal; lia]
          end. }
      destruct Hsample as (v & Hsv & Hload).
      assert (Hbody :
                (let '(src, newX, newY) :=
                   if x <? 0 then (data (bgBufferNew g), x + 720, y)
                   else if 960 <=? x then (data (bgBufferNew g), x - 720, y)
                   else if y <? 0 then (data (bgBufferNew g), x, y + 288)
                   else if 540 <=? y then (data (bgBufferNew g), x, y - 288)
                   else (data (bgBufferOld g), x, y) in
                 match load src (newY * 960 + newX) with
                 | Some v => display_store u ((y - minY) * 960 + (x - minX)) v
                 | None => None
                 end) = display_store u ((y - minY) * 960 + (x - minX)) v).
      { revert Hload.
        destruct (x <? 0); [|destruct (960 <=? x); [|destruct (y <? 0);
          [|destruct (540 <=? y)]]]; intros ->; reflexivity. }
      rewrite Hbody. unfold display_store.
      rewrite store_Some by lia.
      eexists. split; [reflexivity|].
      split; [repeat split; assumption|].
      cbn [display_buffer]. split.
      { unfold display_sized. ScrollProofs.unfold_display. rewrite length_insert. exact Hlen. }
      intros dx dy Hdx Hdy Hk. ScrollProofs.unfold_display.
      destruct (Z.eq_dec (dy * 960 + dx) ((y - minY) * 960 + (x - minX))) as [Heq|Hne].
      * rewrite Heq, load_store_eq by lia.
        apply index_inj in Heq as [-> ->]; [|lia..].
        rewrite <- Hsv. f_equal; lia.
      * rewrite load_store_ne by lia. apply Hpix; lia.
    + rewrite Hrun. exists t'. split; [reflexivity|].
      replace ((y + 1 - minY) * 960) with ((y - minY) * 960 + (minX + 960 - minX)) by lia.
      exact Hinv.
  - exists g'. split; [exact Hrun|].
    replace (960 * 540) with ((minY + 540 - minY) * 960) by lia. exact Hinv.
Qed.

(** X15: with the camera at rest and display-sized buffers,
    [drawBackground] makes the display an exact copy of the new view. *)
Theorem drawBackground_at_rest (g : Game) :
  tileX (cam g) = destTileX (cam g) -> tileY (cam g) = destTileY (cam g) ->
  display_sized (data (bgBufferNew g)) -> display_sized (display_buffer g) ->
  drawBackground g
  = Some (mkGame (cam g) (bgBufferOld g) (bgBufferNew g) (data (bgBufferNew g))).
Proof.
  intros Hx Hy Hnew Hdisp. unfold display_sized in *.
  rewrite (ScrollProofs.drawBackground_still g Hx Hy) by lia.
  f_equal. f_equal.
  pose proof ScrollProofs.npixels_Z as Hn.
  rewrite take_ge, drop_ge, app_nil_r by lia. reflexivity.
Qed.

Lemma drawBackground_at_rest_witness :
  drawBackground still_example
  = Some (mkGame (cam still_example) (bgBufferOld still_example)
                 (bgBufferNew still_example) (data (bgBufferNew still_example))).
Proof.
  apply (drawBackground_at_rest still_example).
  - reflexivity.
  - reflexivity.
  - unfold display_sized. cbn [still_example data bgBufferNew].
    rewrite length_replicate. apply ScrollProofs.npixels_Z.
  - unfold display_sized. cbn [still_example display_buffer].
    rewrite length_replicate. apply ScrollProofs.npixels_Z.
Defined.

(** X16: during a horizontal scroll (vertical offset 0, horizontal offset
    [minX] between [-SCROLL_PW] and [SCROLL_PW]) [drawBackground] stays
    inside the three buffers and fills the whole display: the display
    pixel [(dx, dy)] shows column [x = dx + minX] of row [dy] - of the
    old view when [0 <= x < DISPLAY_PW], of the new view at column
    [x + SCROLL_PW] when [x < 0] and [x - SCROLL_PW] when
    [x >= DISPLAY_PW]. *)
Theorem drawBackground_scroll_x (g : Game) :
  mid_scroll (cam g) ->
  F32.to_int (pixelY (cam g)) = 0 ->
  - SCROLL_PW <= F32.to_int (pixelX (cam g)) <= SCROLL_PW ->
  display_sized (data (bgBufferOld g)) ->
  display_sized (data (bgBufferNew g)) ->
  display_sized (display_buffer g) ->
  exists g',
    drawBackground g = Some g' /\ display_sized (display_buffer g') /\
    forall dx dy : Z, 0 <= dx < DISPLAY_PW -> 0 <= dy < DISPLAY_PH ->
      let x := dx + F32.to_int (pixelX (cam g)) in
      load (display_buffer g') (dy * DISPLAY_PW + dx) =
      if x <? 0 then load (data (bgBufferNew g)) (dy * DISPLAY_PW + (x + SCROLL_PW))
      else if DISPLAY_PW <=? x
           then load (data (bgBufferNew g)) (dy * DISPLAY_PW + (x - SCROLL_PW))
           else load (data (bgBufferOld g)) (dy * DISPLAY_PW + x).
Proof.
  intros Hmid HminY HminX Hold Hnew Hdisp.
  destruct (drawBackground_scroll_spec g Hmid) as (g' & Hrun & _ & Hlen & Hpix);
    try assumption.
  { left. split; assumption. }
  exists g'. split; [exact Hrun|]. split; [exact Hlen|].
  intros dx dy Hdx Hdy x. rewrite Hpix; [|assumption..|ScrollProofs.unfold_display; lia].
  rewrite HminY. unfold scroll_sample. fold x. rewrite Z.add_0_r.
  destruct (x <? 0); [reflexivity|]. destruct (DISPLAY_PW <=? x); [reflexivity|].
  destruct (Z.ltb_spec dy 0); [lia|]. destruct (Z.leb_spec DISPLAY_PH dy); [lia|].
  reflexivity.
Qed.

Lemma drawBackground_scroll_x_witness :
  exists g',
    drawBackground scroll_example = Some g' /\ display_sized (display_buffer g') /\
    forall dx dy : Z, 0 <= dx < DISPLAY_PW -> 0 <= dy < DISPLAY_PH ->
      let x := dx + F32.to_int (pixelX (cam scroll_example)) in
      load (display_buffer g') (dy * DISPLAY_PW + dx) =
      if x <? 0
      then load (data (bgBufferNew scroll_example)) (dy * DISPLAY_PW + (x + SCROLL_PW))
      else if DISPLAY_PW <=? x
           then load (data (bgBufferNew scroll_example)) (dy * DISPLAY_PW + (x - SCROLL_PW))
           else load (data (bgBufferOld scroll_example)) (dy * DISPLAY_PW + x).
Proof.
  apply (drawBackground_scroll_x scroll_example).
  - left. vm_compute. discriminate.
  - vm_compute. reflexivity.
  - vm_compute. split; discriminate.
  - vm_compute. reflexivity.
  - vm_compute. reflexivity.
  - vm_compute. reflexivity.
Defined.

(** X17: during a vertical scroll (horizontal offset 0, vertical offset
    [minY] between [-SCROLL_PH] and [SCROLL_PH]) [drawBackground] stays
    inside the three buffers and fills the whole display: the display
    pixel [(dx, dy)] shows row [y = dy + minY] of column [dx] - of the
    old view when [0 <= y < DISPLAY_PH], of the new view at row
    [y + SCROLL_PH] when [y < 0] and [y - SCROLL_PH] when
    [y >= DISPLAY_PH]. *)
Theorem drawBackground_scroll_y (g : Game) :
  mid_scroll (cam g) ->
  F32.to_int (pixelX (cam g)) = 0 ->
  - SCROLL_PH <= F32.to_int (pixelY (cam g)) <= SCROLL_PH ->
  display_sized (data (bgBufferOld g)) ->
  display_sized (data (bgBufferNew g)) ->
  display_sized (display_buffer g) ->
  exists g',
    drawBackground g = Some g' /\ display_sized (display_buffer g') /\
    forall dx dy : Z, 0 <= dx < DISPLAY_PW -> 0 <= dy < DISPLAY_PH ->
      let y := dy + F32.to_int (pixelY (cam g)) in
      load (display_buffer g') (dy * DISPLAY_PW + dx) =
      if y <? 0 then load (data (bgBufferNew g)) ((y + SCROLL_PH) * DISPLAY_PW + dx)
      else if DISPLAY_PH <=? y
           then load (data (bgBufferNew g)) ((y - SCROLL_PH) * DISPLAY_PW + dx)
           else load (data (bgBufferOld g)) (y * DISPLAY_PW + dx).
Proof.
  intros Hmid HminX HminY Hold Hnew Hdisp.
  destruct (drawBackground_scroll_spec g Hmid) as (g' & Hrun & _ & Hlen & Hpix);
    try assumption.
  { right. split; assumption. }
  exists g'. split; [exact Hrun|]. split; [exact Hlen|].
  intros dx dy Hdx Hdy y. rewrite Hpix; [|assumption..|ScrollProofs.unfold_display; lia].
  rewrite HminX. unfold scroll_sample. fold y. rewrite Z.add_0_r.
  destruct (Z.ltb_spec dx 0); [lia|]. destruct (Z.leb_spec DISPLAY_PW dx); [lia|].
  reflexivity.
Qed.

Lemma drawBackground_scroll_y_witness :
  exists g',
    drawBackground scroll_down_example = Some g' /\ display_sized (display_buffer g') /\
    forall dx dy : Z, 0 <= dx < DISPLAY_PW -> 0 <= dy < DISPLAY_PH ->
      let y := dy + F32.to_int (pixelY (cam scroll_down_example)) in
      load (display_buffer g') (dy * DISPLAY_PW + dx) =
      if y <? 0
      then load (data (bgBufferNew scroll_down_example)) ((y + SCROLL_PH) * DISPLAY_PW + dx)
      else if DISPLAY_PH <=? y
           then load (data (bgBufferNew scroll_down_example))
                     ((y - SCROLL_PH) * DISPLAY_PW + dx)
           else load (data (bgBufferOld scroll_down_example)) (y * DISPLAY_PW + dx).
Proof.
  apply (drawBackground_scroll_y scroll_down_example).
  - right. vm_compute. discriminate.
  - vm_compute. reflexivity.
  - vm_compute. split; discriminate.
  - vm_compute. reflexivity.
  - vm_compute. reflexivity.
  - vm_compute. reflexivity.
Defined.

(** *** [updateCamera] and the frame loop *)

Lemma to_int_bounds (x : Q) (a b : Z) :
  a <= 0 <= b -> (inject_Z a <= x)%Q -> (x < inject_Z b)%Q -> a <= F32.to_int x <= b.
Proof.
  intros Hab Ha Hb. destruct x as [n d]. unfold F32.to_int, Qle, Qlt in *.
  cbn [Qnum Qden inject_Z] in *.
  pose proof (Z.quot_rem' n (Z.pos d)) as Hqr.
  assert (HD : 0 < Z.pos d) by lia.
  destruct (Z.le_gt_cases 0 n) as [Hn|Hn].
  - pose proof (Z.rem_bound_pos n (Z.pos d) Hn HD).
    pose proof (Z.quot_pos n (Z.pos d) Hn HD).
    split; [lia|].
    assert (Hlt : Z.pos d * (n ÷ Z.pos d) < Z.pos d * b) by lia.
    apply Z.mul_lt_mono_pos_l in Hlt; lia.
  - pose proof (Z.rem_bound_pos_neg n (Z.pos d) HD ltac:(lia)).
    split.
    + assert (Hlt : Z.pos d * (a - 1) < Z.pos d * (n ÷ Z.pos d)) by lia.
      apply Z.mul_lt_mono_pos_l in Hlt; lia.
    + assert (Hlt : Z.pos d * (n ÷ Z.pos d) < Z.pos d * 1) by lia.
      apply Z.mul_lt_mono_pos_l in Hlt; lia.
Qed.

Lemma of_int_scroll :
  F32.of_int SCROLL_PW = inject_Z SCROLL_PW /\
  F32.of_int (- SCROLL_PW) = inject_Z (- SCROLL_PW) /\
  F32.of_int SCROLL_PH = inject_Z SCROLL_PH /\
  F32.of_int (- SCROLL_PH) = inject_Z (- SCROLL_PH).
Proof. repeat split; vm_compute; reflexivity. Qed.

Lemma geb_false (x y : Q) : F32.geb x y = false -> (x < y)%Q.
Proof.
  unfold F32.geb. intros H. apply Qnot_le_lt. intros Hle.
  apply Qle_bool_iff in Hle. congruence.
Qed.

Lemma ltb_false (x y : Q) : F32.ltb x y = false -> (y <= x)%Q.
Proof.
  unfold F32.ltb. intros H. apply negb_false_iff in H. apply Qle_bool_iff. exact H.
Qed.

Lemma camera_zero_range :
  (inject_Z (- SCROLL_PW) <= 0 /\ 0 < inject_Z SCROLL_PW)%Q /\
  (inject_Z (- SCROLL_PH) <= 0 /\ 0 < inject_Z SCROLL_PH)%Q.
Proof. repeat split; vm_compute; congruence. Qed.

Lemma camera_move_inv (c : Camera) : camera_inv c -> camera_inv (camera_move c).
Proof.
  intros (Hone & HX & HY & HpX & HpY).
  destruct of_int_scroll as (E1 & E2 & E3 & E4).
  destruct camera_zero_range as (ZX & ZY).
  unfold camera_move.
  destruct (Z.eqb_spec (destTileX c) (tileX c)) as [Hx|Hx]; cbn [negb].
  - destruct (Z.eqb_spec (destTileY c) (tileY c)) as [Hy|Hy]; cbn [negb].
    + repeat split; tauto.
    + cbv zeta. rewrite E3, E4.
      match goal with
      | |- context [F32.geb ?p (inject_Z SCROLL_PH)] =>
          destruct (F32.geb p (inject_Z SCROLL_PH)) eqn:Hge;
          [|destruct (F32.ltb p (inject_Z (- SCROLL_PH))) eqn:Hlt]
      end; unfold camera_inv; cbn [tileX tileY pixelX pixelY destTileX destTileY
                                    velocityX velocityY].
      * repeat split; try tauto; try apply ZY; left; exact Hx.
      * repeat split; try tauto; try apply ZY; left; exact Hx.
      * split; [left; exact Hx|]. split; [exact HX|]. split; [intros; contradiction|].
        split; [exact HpX|]. split; [apply ltb_false; exact Hlt|apply geb_false; exact Hge].
  - assert (Hy : destTileY c = tileY c) by tauto.
    cbv zeta. rewrite E1, E2.
    match goal with
    | |- context [F32.geb ?p (inject_Z SCROLL_PW)] =>
        destruct (F32.geb p (inject_Z SCROLL_PW)) eqn:Hge;
        [|destruct (F32.ltb p (inject_Z (- SCROLL_PW))) eqn:Hlt]
    end; unfold camera_inv; cbn [tileX tileY pixelX pixelY destTileX destTileY
                                  velocityX velocityY].
    + repeat split; try tauto; try apply ZX; right; exact Hy.
    + repeat split; try tauto; try apply ZX; right; exact Hy.
    + split; [right; exact Hy|]. split; [intros; contradiction|]. split; [exact HY|].
      split; [|exact HpY]. split; [apply ltb_false; exact Hlt|apply geb_false; exact Hge].
Qed.

Lemma start_scroll_x_inv (tileArray : list World.Tile) (a : F32.float) (d : Z) (g : Game) :
  game_inv g -> destTileX (cam g) = tileX (cam g) -> destTileY (cam g) = tileY (cam g) ->
  exists new',
    start_scroll_x tileArray a d g
    = Some (mkGame (mkCamera (tileX (cam g)) (tileY (cam g)) 0 0 d (destTileY (cam g))
                             a (accelY (cam g)) 0 0)
                   (bgBufferNew g) new' (display_buffer g)) /\
    display_bitmap new'.
Proof.
  intros ((_ & HX & HY & _) & Hnew & Hold & Hdisp) Hx Hy.
  unfold start_scroll_x. cbv zeta.
  destruct (HX Hx) as [E1 E2]. destruct (HY Hy) as [E3 E4]. rewrite E1, E2, E3, E4.
  match goal with
  | |- context [drawMap tileArray ?g1] =>
      destruct (drawMap_spec tileArray g1 Hnew Hold) as (new' & Hrun & Hb & _)
  end.
  exists new'. split; [exact Hrun|exact Hb].
Qed.

Lemma start_scroll_y_inv (tileArray : list World.Tile) (a : F32.float) (d : Z) (g : Game) :
  game_inv g -> destTileX (cam g) = tileX (cam g) -> destTileY (cam g) = tileY (cam g) ->
  exists new',
    start_scroll_y tileArray a d g
    = Some (mkGame (mkCamera (tileX (cam g)) (tileY (cam g)) 0 0 (destTileX (cam g)) d
                             (accelX (cam g)) a 0 0)
                   (bgBufferNew g) new' (display_buffer g)) /\
    display_bitmap new'.
Proof.
  intros ((_ & HX & HY & _) & Hnew & Hold & Hdisp) Hx Hy.
  unfold start_scroll_y. cbv zeta.
  destruct (HX Hx) as [E1 E2]. destruct (HY Hy) as [E3 E4]. rewrite E1, E2, E3, E4.
  match goal with
  | |- context [drawMap tileArray ?g1] =>
      destruct (drawMap_spec tileArray g1 Hnew Hold) as (new' & Hrun & Hb & _)
  end.
  exists new'. split; [exact Hrun|exact Hb].
Qed.

Lemma display_bitmap_sized (b : Bitmap) : display_bitmap b -> display_sized (data b).
Proof. intros (_ & _ & H). exact H. Qed.

Lemma started_inv (c : Camera) (new' old' : Bitmap) (d : list Z) :
  camera_inv c -> display_bitmap new' -> display_bitmap old' -> display_sized d ->
  game_inv (mkGame (camera_move c) old' new' d).
Proof.
  intros Hc Hn Ho Hd. split; [apply camera_move_inv; exact Hc|].
  split; [exact Hn|]. split; [apply display_bitmap_sized; exact Ho|exact Hd].
Qed.

Lemma updateCamera_inv (tileArray : list World.Tile) (px py : Z) (g : Game) :
  game_inv g -> exists g', updateCamera tileArray px py g = Some g' /\ game_inv g'.
Proof.
  intros Hg. pose proof Hg as (Hc & Hnew & Hold & Hdisp).
  pose proof Hc as (Hone & HX & HY & HpX & HpY).
  destruct camera_zero_range as (ZX & ZY).
  assert (Hkeep : exists g',
             Some (mkGame (camera_move (cam g)) (bgBufferOld g) (bgBufferNew g)
                          (display_buffer g)) = Some g' /\ game_inv g').
  { eexists. split; [reflexivity|]. split; [apply camera_move_inv; exact Hc|].
    split; [exact Hnew|]. split; [exact Hold|exact Hdisp]. }
  unfold updateCamera. cbv zeta.
  destruct (Z.eqb_spec (destTileX (cam g)) (tileX (cam g))) as [Hx|Hx]; [|exact Hkeep].
  destruct (Z.eqb_spec (destTileY (cam g)) (tileY (cam g))) as [Hy|Hy]; [|exact Hkeep].
  cbn [andb].
  assert (HSX : SCROLL_TW = 15) by reflexivity.
  assert (HSY : SCROLL_TH = 6) by reflexivity.
  destruct (HX Hx) as [HpX0 HvX0]. destruct (HY Hy) as [HpY0 HvY0].
  destruct (_ <? _).
  { destruct (start_scroll_x_inv tileArray (fopp (scroll_accel SCROLL_PW))
                (tileX (cam g) - SCROLL_TW) g Hg Hx Hy) as (new' & -> & Hb).
    eexists. split; [reflexivity|]. cbn [cam bgBufferOld bgBufferNew display_buffer].
    apply started_inv; try assumption.
    unfold camera_inv. cbn [tileX tileY pixelX pixelY destTileX destTileY velocityX velocityY].
    split; [right; exact Hy|]. split; [intros; lia|]. split; [auto|]. split; assumption. }
  destruct (_ <=? _).
  { destruct (start_scroll_x_inv tileArray (scroll_accel SCROLL_PW)
                (tileX (cam g) + SCROLL_TW) g Hg Hx Hy) as (new' & -> & Hb).
    eexists. split; [reflexivity|]. cbn [cam bgBufferOld bgBufferNew display_buffer].
    apply started_inv; try assumption.
    unfold camera_inv. cbn [tileX tileY pixelX pixelY destTileX destTileY velocityX velocityY].
    split; [right; exact Hy|]. split; [intros; lia|]. split; [auto|]. split; assumption. }
  destruct (_ <? _).
  { destruct (start_scroll_y_inv tileArray (fopp (scroll_accel SCROLL_PH))
                (tileY (cam g) - SCROLL_TH) g Hg Hx Hy) as (new' & -> & Hb).
    eexists. split; [reflexivity|]. cbn [cam bgBufferOld bgBufferNew display_buffer].
    apply started_inv; try assumption.
    unfold camera_inv. cbn [tileX tileY pixelX pixelY destTileX destTileY velocityX velocityY].
    split; [left; exact Hx|]. split; [auto|]. split; [intros; lia|]. split; assumption. }
  destruct (_ <=? _).
  { destruct (start_scroll_y_inv tileArray (scroll_accel SCROLL_PH)
                (tileY (cam g) + SCROLL_TH) g Hg Hx Hy) as (new' & -> & Hb).
    eexists. split; [reflexivity|]. cbn [cam bgBufferOld bgBufferNew display_buffer].
    apply started_inv; try assumption.
    unfold camera_inv. cbn [tileX tileY pixelX pixelY destTileX destTileY velocityX velocityY].
    split; [left; exact Hx|]. split; [auto|]. split; [intros; lia|]. split; assumption. }
  exact Hkeep.
Qed.

Lemma drawBackground_inv (g : Game) :
  game_inv g -> exists g', drawBackground g = Some g' /\ game_inv g'.
Proof.
  intros (Hc & Hnew & Hold & Hdisp).
  pose proof Hc as (Hone & HX & HY & HpX & HpY).
  destruct (Z.eq_dec (tileX (cam g)) (destTileX (cam g))) as [Hx|Hx];
    [destruct (Z.eq_dec (tileY (cam g)) (destTileY (cam g))) as [Hy|Hy]|].
  - rewrite (ScrollProofs.drawBackground_still g Hx Hy);
      [|unfold display_sized in *; destruct Hnew as (_ & _ & Hn); lia..].
    eexists. split; [reflexivity|]. split; [exact Hc|]. split; [exact Hnew|].
    split; [exact Hold|]. unfold display_sized in *. cbn [display_buffer].
    destruct Hnew as (_ & _ & Hn). pose proof ScrollProofs.npixels_Z.
    rewrite length_app, length_take, length_drop. lia.
  - destruct (drawBackground_scroll_spec g) as (g' & Hrun & (Hcam & Ho & Hn) & Hlen & _).
    + right. exact Hy.
    + right. destruct (HX (eq_sym Hx)) as [-> _]. split; [reflexivity|].
      apply to_int_bounds; [change SCROLL_PH with 288; lia|tauto..].
    + exact Hold.
    + apply display_bitmap_sized. exact Hnew.
    + exact Hdisp.
    + exists g'. split; [exact Hrun|]. unfold game_inv. rewrite Hcam, Ho, Hn.
      split; [exact Hc|]. split; [exact Hnew|]. split; [exact Hold|exact Hlen].
  - destruct (drawBackground_scroll_spec g) as (g' & Hrun & (Hcam & Ho & Hn) & Hlen & _).
    + left. exact Hx.
    + left. assert (Hy : destTileY (cam g) = tileY (cam g)) by (destruct Hone; congruence).
      destruct (HY Hy) as [-> _]. split; [reflexivity|].
      apply to_int_bounds; [change SCROLL_PW with 720; lia|tauto..].
    + exact Hold.
    + apply display_bitmap_sized. exact Hnew.
    + exact Hdisp.
    + exists g'. split; [exact Hrun|]. unfold game_inv. rewrite Hcam, Ho, Hn.
      split; [exact Hc|]. split; [exact Hnew|]. split; [exact Hold|exact Hlen].
Qed.

Lemma game_start_inv (tileArray : list World.Tile) (display : list Z) :
  display_sized display ->
  exists g0, game_start tileArray display = Some g0 /\ game_inv g0.
Proof.
  intros Hdisp. unfold game_start.
  assert (Hb : display_bitmap (mkBitmap (calloc (DISPLAY_PW * DISPLAY_PH))
                                        DISPLAY_PW DISPLAY_PH)).
  { unfold display_bitmap. cbn [width height data].
    split; [reflexivity|]. split; [reflexivity|].
    unfold calloc. rewrite length_replicate. apply Z2Nat.id.
    unfold DISPLAY_PW, DISPLAY_PH. lia. }
  match goal with
  | |- context [drawMap tileArray ?g1] =>
      destruct (drawMap_spec tileArray g1 Hb (display_bitmap_sized _ Hb))
        as (new' & Hrun & Hnew & _)
  end.
  eexists. split; [exact Hrun|].
  destruct camera_zero_range as (ZX & ZY).
  split; [|split; [exact Hnew|split; [apply display_bitmap_sized; exact Hb|exact Hdisp]]].
  cbn [cam]. unfold camera_inv.
  cbn [tileX tileY pixelX pixelY destTileX destTileY velocityX velocityY].
  split; [left; reflexivity|]. split; [split; reflexivity|]. split; [split; reflexivity|].
  split; [exact ZX|exact ZY].
Qed.

Lemma game_frames_inv (tileArray : list World.Tile) (players : list (Z * Z)) :
  forall g : Game, game_inv g ->
    exists g', game_frames tileArray players g = Some g' /\ game_inv g'.
Proof.
  induction players as [|p players IH]; intros g Hg.
  - exists g. split; [reflexivity|exact Hg].
  - cbn [game_frames]. unfold game_frame.
    destruct (updateCamera_inv tileArray (fst p) (snd p) g Hg) as (g1 & -> & Hg1).
    destruct (drawBackground_inv g1 Hg1) as (g2 & -> & Hg2).
    apply IH. exact Hg2.
Qed.

(** X18: the loop of [main], as far as the background goes.  From the
    state [main] sets up (camera zeroed, views allocated at the size of
    the display and drawn by [drawMap]), and wherever the player stands
    in each frame, every [updateCamera] and every [drawBackground] stays
    inside the view and display buffers; between frames the camera is
    away from its destination along one axis at most, its pixel offset
    and velocity are 0 on an axis where it is at rest, and the offsets
    stay within one scroll step ([SCROLL_PW], [SCROLL_PH]). *)
Theorem game_frames_safe (tileArray : list World.Tile) (display : list Z) (players : list (Z * Z)) :
  display_sized display ->
  exists g0 g,
    game_start tileArray display = Some g0 /\
    game_frames tileArray players g0 = Some g /\
    game_inv g.
Proof.
  intros Hdisp.
  destruct (game_start_inv tileArray display Hdisp) as (g0 & Hstart & Hg0).
  destruct (game_frames_inv tileArray players g0 Hg0) as (g & Hrun & Hg).
  exists g0, g. auto.
Qed.

Lemma still_example_inv : game_inv still_example.
Proof.
  destruct camera_zero_range as (ZX & ZY).
  split; [|split; [|split]].
  - cbn [still_example cam]. unfold camera_inv.
    cbn [tileX tileY pixelX pixelY destTileX destTileY velocityX velocityY].
    split; [left; reflexivity|]. split; [split; reflexivity|]. split; [split; reflexivity|].
    split; [exact ZX|exact ZY].
  - unfold display_bitmap. cbn [still_example bgBufferNew width height data].
    split; [reflexivity|]. split; [reflexivity|].
    rewrite length_replicate. apply ScrollProofs.npixels_Z.
  - unfold display_sized. cbn [still_example bgBufferOld data].
    rewrite length_replicate. apply ScrollProofs.npixels_Z.
  - unfold display_sized. cbn [still_example display_buffer].
    rewrite length_replicate. apply ScrollProofs.npixels_Z.
Qed.

Lemma game_frames_safe_witness :
  exists g0 g,
    game_start World.map_left_then_up (replicate npixels 0) = Some g0 /\
    game_frames World.map_left_then_up [(0, 0); (8, 0); (8, 1)] g0 = Some g /\
    game_inv g.
Proof.
  apply (game_frames_safe World.map_left_then_up (replicate npixels 0) [(0, 0); (8, 0); (8, 1)]).
  unfold display_sized. rewrite length_replicate. apply ScrollProofs.npixels_Z.
Defined.

(** *** A scroll takes 59 calls of [updateCamera] *)

Lemma camera_move_x (c : Camera) :
  destTileX c <> tileX c ->
  camera_move c =
  let '(p1, v1) := drift (SCROLL_PW ÷ 2) (- SCROLL_PW ÷ 2) (accelX c) (pixelX c, velocityX c) in
  if F32.geb p1 (F32.of_int SCROLL_PW) then
    mkCamera (tileX c + SCROLL_TW) (tileY c) 0 (pixelY c) (destTileX c) (destTileY c)
             (accelX c) (accelY c) 0 (velocityY c)
  else if F32.ltb p1 (F32.of_int (- SCROLL_PW)) then
    mkCamera (tileX c - SCROLL_TW) (tileY c) 0 (pixelY c) (destTileX c) (destTileY c)
             (accelX c) (accelY c) 0 (velocityY c)
  else
    mkCamera (tileX c) (tileY c) p1 (pixelY c) (destTileX c) (destTileY c)
             (accelX c) (accelY c) v1 (velocityY c).
Proof.
  intros Hx. unfold camera_move, drift.
  destruct (Z.eqb_spec (destTileX c) (tileX c)); [contradiction|]. reflexivity.
Qed.

Lemma camera_move_y (c : Camera) :
  destTileX c = tileX c -> destTileY c <> tileY c ->
  camera_move c =
  let '(p1, v1) := drift ((SCROLL_TH * TILESIZE) ÷ 2) (- SCROLL_PH ÷ 2) (accelY c)
                         (pixelY c, velocityY c) in
  if F32.geb p1 (F32.of_int SCROLL_PH) then
    mkCamera (tileX c) (tileY c + SCROLL_TH) (pixelX c) 0 (destTileX c) (destTileY c)
             (accelX c) (accelY c) (velocityX c) 0
  else if F32.ltb p1 (F32.of_int (- SCROLL_PH)) then
    mkCamera (tileX c) (tileY c - SCROLL_TH) (pixelX c) 0 (destTileX c) (destTileY c)
             (accelX c) (accelY c) (velocityX c) 0
  else
    mkCamera (tileX c) (tileY c) (pixelX c) p1 (destTileX c) (destTileY c)
             (accelX c) (accelY c) (velocityX c) v1.
Proof.
  intros Hx Hy. unfold camera_move, drift.
  destruct (Z.eqb_spec (destTileX c) (tileX c)); [|contradiction].
  destruct (Z.eqb_spec (destTileY c) (tileY c)); [contradiction|]. reflexivity.
Qed.

Lemma on_the_way_spec (hi lo full : Z) (a : F32.float) (first count n : nat) :
  on_the_way hi lo full a first count = true ->
  (first <= n < first + count)%nat ->
  F32.geb (fst (glide hi lo a n)) (F32.of_int full) = false /\
  F32.ltb (fst (glide hi lo a n)) (F32.of_int (- full)) = false.
Proof.
  unfold on_the_way. rewrite forallb_forall. intros Hall Hn.
  specialize (Hall n). rewrite in_seq in Hall. specialize (Hall Hn).
  cbv zeta in Hall. apply andb_true_iff in Hall as [H1 H2].
  apply negb_true_iff in H1, H2. auto.
Qed.

Lemma glide_S (hi lo : Z) (a : F32.float) (n : nat) :
  glide hi lo a (S n) = drift hi lo a (fst (glide hi lo a n), snd (glide hi lo a n)).
Proof. unfold glide. rewrite Nat.iter_succ. destruct (Nat.iter n _ _). reflexivity. Qed.

Lemma camera_move_x_on (tX tY dX : Z) (a aY p v : F32.float) :
  dX <> tX ->
  F32.geb (fst (drift (SCROLL_PW ÷ 2) (- SCROLL_PW ÷ 2) a (p, v))) (F32.of_int SCROLL_PW)
  = false ->
  F32.ltb (fst (drift (SCROLL_PW ÷ 2) (- SCROLL_PW ÷ 2) a (p, v))) (F32.of_int (- SCROLL_PW))
  = false ->
  camera_move (mkCamera tX tY p 0 dX tY a aY v 0)
  = mkCamera tX tY (fst (drift (SCROLL_PW ÷ 2) (- SCROLL_PW ÷ 2) a (p, v))) 0 dX tY a aY
             (snd (drift (SCROLL_PW ÷ 2) (- SCROLL_PW ÷ 2) a (p, v))) 0.
Proof.
  intros Hd H1 H2. rewrite camera_move_x by exact Hd.
  cbn [tileX tileY pixelX pixelY destTileX destTileY accelX accelY velocityX velocityY].
  destruct (drift _ _ a (p, v)) as [p1 v1]. cbn [fst snd] in *. rewrite H1, H2. reflexivity.
Qed.

Lemma camera_move_y_on (tX tY dY : Z) (a aX p v : F32.float) :
  dY <> tY ->
  F32.geb (fst (drift ((SCROLL_TH * TILESIZE) ÷ 2) (- SCROLL_PH ÷ 2) a (p, v)))
          (F32.of_int SCROLL_PH) = false ->
  F32.ltb (fst (drift ((SCROLL_TH * TILESIZE) ÷ 2) (- SCROLL_PH ÷ 2) a (p, v)))
          (F32.of_int (- SCROLL_PH)) = false ->
  camera_move (mkCamera tX tY 0 p tX dY aX a 0 v)
  = mkCamera tX tY 0 (fst (drift ((SCROLL_TH * TILESIZE) ÷ 2) (- SCROLL_PH ÷ 2) a (p, v)))
             tX dY aX a 0 (snd (drift ((SCROLL_TH * TILESIZE) ÷ 2) (- SCROLL_PH ÷ 2) a (p, v))).
Proof.
  intros Hd H1 H2. rewrite camera_move_y by (cbn; auto).
  cbn [tileX tileY pixelX pixelY destTileX destTileY accelX accelY velocityX velocityY].
  destruct (drift _ _ a (p, v)) as [p1 v1]. cbn [fst snd] in *. rewrite H1, H2. reflexivity.
Qed.

Lemma on_the_way_less (hi lo full : Z) (a : F32.float) (n : nat) :
  on_the_way hi lo full a 1 (S n) = true -> on_the_way hi lo full a 1 n = true.
Proof.
  unfold on_the_way. rewrite !forallb_forall. intros Hway k Hk. apply Hway.
  rewrite in_seq in *. lia.
Qed.

(** The camera [n] moves after a horizontal scroll was started. *)
Lemma glide_x (tX tY dX : Z) (a aY : F32.float) (n : nat) :
  dX <> tX ->
  on_the_way (SCROLL_PW ÷ 2) (- SCROLL_PW ÷ 2) SCROLL_PW a 1 n = true ->
  Nat.iter n camera_move (mkCamera tX tY 0 0 dX tY a aY 0 0)
  = mkCamera tX tY (fst (glide (SCROLL_PW ÷ 2) (- SCROLL_PW ÷ 2) a n)) 0 dX tY a aY
             (snd (glide (SCROLL_PW ÷ 2) (- SCROLL_PW ÷ 2) a n)) 0.
Proof.
  intros Hd. induction n as [|n IH]; intros Hway; [reflexivity|].
  rewrite Nat.iter_succ, (IH (on_the_way_less _ _ _ _ _ Hway)).
  destruct (on_the_way_spec _ _ _ _ 1 (S n) (S n) Hway ltac:(lia)) as [H1 H2].
  rewrite glide_S in *.
  apply camera_move_x_on; assumption.
Qed.

Lemma glide_y (tX tY dY : Z) (a aX : F32.float) (n : nat) :
  dY <> tY ->
  on_the_way ((SCROLL_TH * TILESIZE) ÷ 2) (- SCROLL_PH ÷ 2) SCROLL_PH a 1 n = true ->
  Nat.iter n camera_move (mkCamera tX tY 0 0 tX dY aX a 0 0)
  = mkCamera tX tY 0 (fst (glide ((SCROLL_TH * TILESIZE) ÷ 2) (- SCROLL_PH ÷ 2) a n)) tX dY aX a
             0 (snd (glide ((SCROLL_TH * TILESIZE) ÷ 2) (- SCROLL_PH ÷ 2) a n)).
Proof.
  intros Hd. induction n as [|n IH]; intros Hway; [reflexivity|].
  rewrite Nat.iter_succ, (IH (on_the_way_less _ _ _ _ _ Hway)).
  destruct (on_the_way_spec _ _ _ _ 1 (S n) (S n) Hway ltac:(lia)) as [H1 H2].
  rewrite glide_S in *.
  apply camera_move_y_on; assumption.
Qed.

(** The four courses, evaluated. *)
Lemma scroll_courses :
  on_the_way (SCROLL_PW ÷ 2) (- SCROLL_PW ÷ 2) SCROLL_PW (scroll_accel SCROLL_PW) 1 58 = true /\
  on_the_way (SCROLL_PW ÷ 2) (- SCROLL_PW ÷ 2) SCROLL_PW (fopp (scroll_accel SCROLL_PW)) 1 58
  = true /\
  on_the_way ((SCROLL_TH * TILESIZE) ÷ 2) (- SCROLL_PH ÷ 2) SCROLL_PH
             (scroll_accel SCROLL_PH) 1 58 = true /\
  on_the_way ((SCROLL_TH * TILESIZE) ÷ 2) (- SCROLL_PH ÷ 2) SCROLL_PH
             (fopp (scroll_accel SCROLL_PH)) 1 58 = true /\
  F32.geb (fst (glide (SCROLL_PW ÷ 2) (- SCROLL_PW ÷ 2) (scroll_accel SCROLL_PW) 59))
          (F32.of_int SCROLL_PW) = true /\
  F32.geb (fst (glide (SCROLL_PW ÷ 2) (- SCROLL_PW ÷ 2) (fopp (scroll_accel SCROLL_PW)) 59))
          (F32.of_int SCROLL_PW) = false /\
  F32.ltb (fst (glide (SCROLL_PW ÷ 2) (- SCROLL_PW ÷ 2) (fopp (scroll_accel SCROLL_PW)) 59))
          (F32.of_int (- SCROLL_PW)) = true /\
  F32.geb (fst (glide ((SCROLL_TH * TILESIZE) ÷ 2) (- SCROLL_PH ÷ 2) (scroll_accel SCROLL_PH) 59))
          (F32.of_int SCROLL_PH) = true /\
  F32.geb (fst (glide ((SCROLL_TH * TILESIZE) ÷ 2) (- SCROLL_PH ÷ 2)
                      (fopp (scroll_accel SCROLL_PH)) 59))
          (F32.of_int SCROLL_PH) = false /\
  F32.ltb (fst (glide ((SCROLL_TH * TILESIZE) ÷ 2) (- SCROLL_PH ÷ 2)
                      (fopp (scroll_accel SCROLL_PH)) 59))
          (F32.of_int (- SCROLL_PH)) = true.
Proof. do 9 (split; [vm_compute; reflexivity|]). vm_compute. reflexivity. Qed.

Lemma updateCamera_mid (tileArray : list World.Tile) (px py : Z) (g : Game) :
  mid_scroll (cam g) ->
  updateCamera tileArray px py g
  = Some (mkGame (camera_move (cam g)) (bgBufferOld g) (bgBufferNew g) (display_buffer g)).
Proof.
  intros Hmid. unfold updateCamera. cbv zeta.
  replace ((destTileX (cam g) =? tileX (cam g)) && (destTileY (cam g) =? tileY (cam g)))
    with false; [reflexivity|].
  symmetry. apply andb_false_iff. rewrite !Z.eqb_neq.
  destruct Hmid; [left|right]; congruence.
Qed.

Lemma updateCamera_n_mid (tileArray : list World.Tile) (px py : Z) (n : nat) :
  forall g : Game,
    (forall j, (j < n)%nat -> mid_scroll (Nat.iter j camera_move (cam g))) ->
    updateCamera_n tileArray px py n g
    = Some (mkGame (Nat.iter n camera_move (cam g)) (bgBufferOld g) (bgBufferNew g)
                   (display_buffer g)).
Proof.
  induction n as [|n IH]; intros g Hmid.
  - destruct g. reflexivity.
  - cbn [updateCamera_n]. rewrite updateCamera_mid by (apply (Hmid 0%nat); lia).
    rewrite IH.
    + cbn [cam bgBufferOld bgBufferNew display_buffer]. rewrite <- Nat.iter_succ_r. reflexivity.
    + intros j Hj. cbn [cam]. rewrite <- Nat.iter_succ_r. apply Hmid. lia.
Qed.

(** The calls that follow the one that started a scroll. *)
Lemma course_game (tileArray : list World.Tile) (px py : Z) (g : Game)
      (c1 : Camera) (old1 new1 : Bitmap) (d1 : list Z) :
  updateCamera tileArray px py g = Some (mkGame (camera_move c1) old1 new1 d1) ->
  (forall n, (1 <= n <= 58)%nat -> mid_scroll (Nat.iter n camera_move c1)) ->
  forall n, (1 <= n <= 59)%nat ->
    updateCamera_n tileArray px py n g
    = Some (mkGame (Nat.iter n camera_move c1) old1 new1 d1).
Proof.
  intros Hfirst Hmid n Hn. destruct n as [|n]; [lia|].
  cbn [updateCamera_n]. rewrite Hfirst, updateCamera_n_mid.
  - cbn [cam bgBufferOld bgBufferNew display_buffer]. rewrite <- Nat.iter_succ_r. reflexivity.
  - intros j Hj. cbn [cam]. rewrite <- Nat.iter_succ_r. apply Hmid. lia.
Qed.

Lemma course_x (tX tY s : Z) (a aY : F32.float) (N : nat) :
  s <> 0 ->
  on_the_way (SCROLL_PW ÷ 2) (- SCROLL_PW ÷ 2) SCROLL_PW a 1 N = true ->
  (s = SCROLL_TW /\
   F32.geb (fst (glide (SCROLL_PW ÷ 2) (- SCROLL_PW ÷ 2) a (S N))) (F32.of_int SCROLL_PW) = true) \/
  (s = - SCROLL_TW /\
   F32.geb (fst (glide (SCROLL_PW ÷ 2) (- SCROLL_PW ÷ 2) a (S N))) (F32.of_int SCROLL_PW) = false /\
   F32.ltb (fst (glide (SCROLL_PW ÷ 2) (- SCROLL_PW ÷ 2) a (S N))) (F32.of_int (- SCROLL_PW))
   = true) ->
  (forall n, (n <= N)%nat ->
     exists p v, Nat.iter n camera_move (mkCamera tX tY 0 0 (tX + s) tY a aY 0 0)
                 = mkCamera tX tY p 0 (tX + s) tY a aY v 0) /\
  Nat.iter (S N) camera_move (mkCamera tX tY 0 0 (tX + s) tY a aY 0 0)
  = mkCamera (tX + s) tY 0 0 (tX + s) tY a aY 0 0.
Proof.
  intros Hs Hway Harr.
  assert (Hd : tX + s <> tX) by lia.
  assert (Hless : forall n, (n <= N)%nat ->
            on_the_way (SCROLL_PW ÷ 2) (- SCROLL_PW ÷ 2) SCROLL_PW a 1 n = true).
  { intros n Hn. unfold on_the_way in *. rewrite forallb_forall in *.
    intros k Hk. apply Hway. rewrite in_seq in *. lia. }
  split.
  - intros n Hn. eexists _, _. apply (glide_x tX tY (tX + s) a aY n Hd (Hless n Hn)).
  - rewrite Nat.iter_succ, (glide_x tX tY (tX + s) a aY N Hd (Hless N ltac:(lia))).
    rewrite camera_move_x by exact Hd.
    cbn [tileX tileY pixelX pixelY destTileX destTileY accelX accelY velocityX velocityY].
    rewrite <- glide_S.
    destruct (glide _ _ a (S N)) as [p1 v1]. cbn [fst snd] in *.
    destruct Harr as [[-> H1]|(-> & H1 & H2)].
    + rewrite H1. reflexivity.
    + rewrite H1, H2. reflexivity.
Qed.

Lemma course_y (tX tY s : Z) (a aX : F32.float) (N : nat) :
  s <> 0 ->
  on_the_way ((SCROLL_TH * TILESIZE) ÷ 2) (- SCROLL_PH ÷ 2) SCROLL_PH a 1 N = true ->
  (s = SCROLL_TH /\
   F32.geb (fst (glide ((SCROLL_TH * TILESIZE) ÷ 2) (- SCROLL_PH ÷ 2) a (S N)))
           (F32.of_int SCROLL_PH) = true) \/
  (s = - SCROLL_TH /\
   F32.geb (fst (glide ((SCROLL_TH * TILESIZE) ÷ 2) (- SCROLL_PH ÷ 2) a (S N)))
           (F32.of_int SCROLL_PH) = false /\
   F32.ltb (fst (glide ((SCROLL_TH * TILESIZE) ÷ 2) (- SCROLL_PH ÷ 2) a (S N)))
           (F32.of_int (- SCROLL_PH)) = true) ->
  (forall n, (n <= N)%nat ->
     exists p v, Nat.iter n camera_move (mkCamera tX tY 0 0 tX (tY + s) aX a 0 0)
                 = mkCamera tX tY 0 p tX (tY + s) aX a 0 v) /\
  Nat.iter (S N) camera_move (mkCamera tX tY 0 0 tX (tY + s) aX a 0 0)
  = mkCamera tX (tY + s) 0 0 tX (tY + s) aX a 0 0.
Proof.
  intros Hs Hway Harr.
  assert (Hd : tY + s <> tY) by lia.
  assert (Hless : forall n, (n <= N)%nat ->
            on_the_way ((SCROLL_TH * TILESIZE) ÷ 2) (- SCROLL_PH ÷ 2) SCROLL_PH a 1 n = true).
  { intros n Hn. unfold on_the_way in *. rewrite forallb_forall in *.
    intros k Hk. apply Hway. rewrite in_seq in *. lia. }
  split.
  - intros n Hn. eexists _, _. apply (glide_y tX tY (tY + s) a aX n Hd (Hless n Hn)).
  - rewrite Nat.iter_succ, (glide_y tX tY (tY + s) a aX N Hd (Hless N ltac:(lia))).
    rewrite camera_move_y by (cbn; auto).
    cbn [tileX tileY pixelX pixelY destTileX destTileY accelX accelY velocityX velocityY].
    rewrite <- glide_S.
    destruct (glide _ _ a (S N)) as [p1 v1]. cbn [fst snd] in *.
    destruct Harr as [[-> H1]|(-> & H1 & H2)].
    + rewrite H1. reflexivity.
    + rewrite H1, H2. reflexivity.
Qed.

(** What the calls of a scroll along x give, from the first call on. *)
Lemma scroll_x_calls (tileArray : list World.Tile) (px py : Z) (g : Game)
      (s : Z) (a aY : F32.float) (new1 : Bitmap) :
  updateCamera tileArray px py g
  = Some (mkGame (camera_move (mkCamera (tileX (cam g)) (tileY (cam g)) 0 0
                                        (tileX (cam g) + s) (tileY (cam g)) a aY 0 0))
                 (bgBufferNew g) new1 (display_buffer g)) ->
  ((forall n, (n <= 58)%nat ->
      exists p v, Nat.iter n camera_move
                    (mkCamera (tileX (cam g)) (tileY (cam g)) 0 0
                              (tileX (cam g) + s) (tileY (cam g)) a aY 0 0)
                  = mkCamera (tileX (cam g)) (tileY (cam g)) p 0
                             (tileX (cam g) + s) (tileY (cam g)) a aY v 0) /\
   Nat.iter 59 camera_move (mkCamera (tileX (cam g)) (tileY (cam g)) 0 0
                                     (tileX (cam g) + s) (tileY (cam g)) a aY 0 0)
   = mkCamera (tileX (cam g) + s) (tileY (cam g)) 0 0
              (tileX (cam g) + s) (tileY (cam g)) a aY 0 0) ->
  s <> 0 ->
  (forall n, (1 <= n <= 58)%nat ->
     exists gn, updateCamera_n tileArray px py n g = Some gn /\
       mid_scroll (cam gn) /\
       tileX (cam gn) = tileX (cam g) /\ tileY (cam gn) = tileY (cam g) /\
       destTileX (cam gn) = tileX (cam g) + s /\ destTileY (cam gn) = tileY (cam g) /\
       bgBufferOld gn = bgBufferNew g) /\
  exists g', updateCamera_n tileArray px py 59 g = Some g' /\
    at_rest (cam g') (tileX (cam g) + s) (tileY (cam g)) /\
    bgBufferOld g' = bgBufferNew g.
Proof.
  intros Hfirst [Hway Harr] Hs.
  assert (Hmid : forall n, (1 <= n <= 58)%nat ->
            mid_scroll (Nat.iter n camera_move
                          (mkCamera (tileX (cam g)) (tileY (cam g)) 0 0
                                    (tileX (cam g) + s) (tileY (cam g)) a aY 0 0))).
  { intros n Hn. destruct (Hway n ltac:(lia)) as (p & v & ->). left. cbn. lia. }
  split.
  - intros n Hn. eexists. split; [apply (course_game _ _ _ _ _ _ _ _ Hfirst Hmid); lia|].
    cbn [cam bgBufferOld]. destruct (Hway n ltac:(lia)) as (p & v & ->).
    split; [left; cbn; lia|]. cbn [tileX tileY destTileX destTileY]. repeat split.
  - eexists. split; [apply (course_game _ _ _ _ _ _ _ _ Hfirst Hmid); lia|].
    cbn [cam bgBufferOld]. rewrite Harr. repeat split.
Qed.

Lemma scroll_y_calls (tileArray : list World.Tile) (px py : Z) (g : Game)
      (s : Z) (a aX : F32.float) (new1 : Bitmap) :
  updateCamera tileArray px py g
  = Some (mkGame (camera_move (mkCamera (tileX (cam g)) (tileY (cam g)) 0 0
                                        (tileX (cam g)) (tileY (cam g) + s) aX a 0 0))
                 (bgBufferNew g) new1 (display_buffer g)) ->
  ((forall n, (n <= 58)%nat ->
      exists p v, Nat.iter n camera_move
                    (mkCamera (tileX (cam g)) (tileY (cam g)) 0 0
                              (tileX (cam g)) (tileY (cam g) + s) aX a 0 0)
                  = mkCamera (tileX (cam g)) (tileY (cam g)) 0 p
                             (tileX (cam g)) (tileY (cam g) + s) aX a 0 v) /\
   Nat.iter 59 camera_move (mkCamera (tileX (cam g)) (tileY (cam g)) 0 0
                                     (tileX (cam g)) (tileY (cam g) + s) aX a 0 0)
   = mkCamera (tileX (cam g)) (tileY (cam g) + s) 0 0
              (tileX (cam g)) (tileY (cam g) + s) aX a 0 0) ->
  s <> 0 ->
  (forall n, (1 <= n <= 58)%nat ->
     exists gn, updateCamera_n tileArray px py n g = Some gn /\
       mid_scroll (cam gn) /\
       tileX (cam gn) = tileX (cam g) /\ tileY (cam gn) = tileY (cam g) /\
       destTileX (cam gn) = tileX (cam g) /\ destTileY (cam gn) = tileY (cam g) + s /\
       bgBufferOld gn = bgBufferNew g) /\
  exists g', updateCamera_n tileArray px py 59 g = Some g' /\
    at_rest (cam g') (tileX (cam g)) (tileY (cam g) + s) /\
    bgBufferOld g' = bgBufferNew g.
Proof.
  intros Hfirst [Hway Harr] Hs.
  assert (Hmid : forall n, (1 <= n <= 58)%nat ->
            mid_scroll (Nat.iter n camera_move
                          (mkCamera (tileX (cam g)) (tileY (cam g)) 0 0
                                    (tileX (cam g)) (tileY (cam g) + s) aX a 0 0))).
  { intros n Hn. destruct (Hway n ltac:(lia)) as (p & v & ->). right. cbn. lia. }
  split.
  - intros n Hn. eexists. split; [apply (course_game _ _ _ _ _ _ _ _ Hfirst Hmid); lia|].
    cbn [cam bgBufferOld]. destruct (Hway n ltac:(lia)) as (p & v & ->).
    split; [right; cbn; lia|]. cbn [tileX tileY destTileX destTileY]. repeat split.
  - eexists. split; [apply (course_game _ _ _ _ _ _ _ _ Hfirst Hmid); lia|].
    cbn [cam bgBufferOld]. rewrite Harr. repeat split.
Qed.

(** X19: a scroll takes 59 calls of [updateCamera].  With the camera at
    rest on a tile and the player beyond an edge of the view,
    [updateCamera] picks the neighbouring view ([SCROLL_TW] tiles left or
    right, [SCROLL_TH] up or down) and redraws the views once; with
    [dtFrame = 1/60] the camera is then on its way, tile unchanged, after
    each of the first 58 calls, and the 59th call leaves it at rest on the
    destination tile, pixel offsets and velocities back at 0. *)
Theorem scroll_takes_59_calls (tileArray : list World.Tile) (px py tx ty : Z) (g : Game) :
  game_inv g ->
  destTileX (cam g) = tileX (cam g) -> destTileY (cam g) = tileY (cam g) ->
  scroll_target (tileX (cam g)) (tileY (cam g)) px py = Some (tx, ty) ->
  (forall n, (1 <= n <= 58)%nat ->
     exists gn, updateCamera_n tileArray px py n g = Some gn /\
       mid_scroll (cam gn) /\
       tileX (cam gn) = tileX (cam g) /\ tileY (cam gn) = tileY (cam g) /\
       destTileX (cam gn) = tx /\ destTileY (cam gn) = ty /\
       bgBufferOld gn = bgBufferNew g) /\
  exists g', updateCamera_n tileArray px py 59 g = Some g' /\
    at_rest (cam g') tx ty /\
    bgBufferOld g' = bgBufferNew g.
Proof.
  intros Hg Hx Hy Htarget.
  destruct scroll_courses as (W1 & W2 & W3 & W4 & A1 & A2 & A3 & A4 & A5 & A6).
  assert (HTW : SCROLL_TW = 15) by reflexivity.
  assert (HTH : SCROLL_TH = 6) by reflexivity.
  unfold scroll_target in Htarget. cbv zeta in Htarget.
  assert (Hfirst : forall started,
            updateCamera tileArray px py g =
            match (if px - tileX (cam g) <? - (DISPLAY_TW ÷ 2 - 2)
                   then start_scroll_x tileArray (fopp (scroll_accel SCROLL_PW))
                                       (tileX (cam g) - SCROLL_TW) g
                   else if DISPLAY_TW ÷ 2 - 2 <=? px - tileX (cam g)
                   then start_scroll_x tileArray (scroll_accel SCROLL_PW)
                                       (tileX (cam g) + SCROLL_TW) g
                   else if py - tileY (cam g) <? - (DISPLAY_TH ÷ 2 - 2)
                   then start_scroll_y tileArray (fopp (scroll_accel SCROLL_PH))
                                       (tileY (cam g) - SCROLL_TH) g
                   else if DISPLAY_TH ÷ 2 - 2 <=? py - tileY (cam g)
                   then start_scroll_y tileArray (scroll_accel SCROLL_PH)
                                       (tileY (cam g) + SCROLL_TH) g
                   else started) with
            | Some g1 => Some (mkGame (camera_move (cam g1)) (bgBufferOld g1)
                                      (bgBufferNew g1) (display_buffer g1))
            | None => None
            end \/
            scroll_target (tileX (cam g)) (tileY (cam g)) px py = None).
  { intros started. unfold updateCamera, scroll_target. cbv zeta.
    rewrite Hx, Hy, !Z.eqb_refl. cbn [andb].
    destruct (_ <? _); [left; reflexivity|]. destruct (_ <=? _); [left; reflexivity|].
    destruct (_ <? _); [left; reflexivity|]. destruct (_ <=? _); [left; reflexivity|].
    right. reflexivity. }
  destruct (Hfirst None) as [Hcall|Hnone];
    [|unfold scroll_target in Hnone; cbv zeta in Hnone; congruence].
  clear Hfirst.
  destruct (px - tileX (cam g) <? - (DISPLAY_TW ÷ 2 - 2)).
  { injection Htarget as <- <-.
    destruct (start_scroll_x_inv tileArray (fopp (scroll_accel SCROLL_PW))
                (tileX (cam g) - SCROLL_TW) g Hg Hx Hy) as (new1 & Hs & _).
    rewrite Hs in Hcall. cbn [cam bgBufferOld bgBufferNew display_buffer] in Hcall.
    replace (tileX (cam g) - SCROLL_TW) with (tileX (cam g) + - SCROLL_TW) in * by lia.
    rewrite Hy in Hcall.
    eapply (scroll_x_calls tileArray px py g (- SCROLL_TW)); [exact Hcall| |lia].
    apply (course_x _ _ _ _ _ 58); [lia|exact W2|]. right. auto. }
  destruct (DISPLAY_TW ÷ 2 - 2 <=? px - tileX (cam g)).
  { injection Htarget as <- <-.
    destruct (start_scroll_x_inv tileArray (scroll_accel SCROLL_PW)
                (tileX (cam g) + SCROLL_TW) g Hg Hx Hy) as (new1 & Hs & _).
    rewrite Hs in Hcall. cbn [cam bgBufferOld bgBufferNew display_buffer] in Hcall.
    rewrite Hy in Hcall.
    eapply (scroll_x_calls tileArray px py g SCROLL_TW); [exact Hcall| |lia].
    apply (course_x _ _ _ _ _ 58); [lia|exact W1|]. left. auto. }
  destruct (py - tileY (cam g) <? - (DISPLAY_TH ÷ 2 - 2)).
  { injection Htarget as <- <-.
    destruct (start_scroll_y_inv tileArray (fopp (scroll_accel SCROLL_PH))
                (tileY (cam g) - SCROLL_TH) g Hg Hx Hy) as (new1 & Hs & _).
    rewrite Hs in Hcall. cbn [cam bgBufferOld bgBufferNew display_buffer] in Hcall.
    replace (tileY (cam g) - SCROLL_TH) with (tileY (cam g) + - SCROLL_TH) in * by lia.
    rewrite Hx in Hcall.
    eapply (scroll_y_calls tileArray px py g (- SCROLL_TH)); [exact Hcall| |lia].
    apply (course_y _ _ _ _ _ 58); [lia|exact W4|]. right. auto. }
  destruct (DISPLAY_TH ÷ 2 - 2 <=? py - tileY (cam g)); [|discriminate Htarget].
  injection Htarget as <- <-.
  destruct (start_scroll_y_inv tileArray (scroll_accel SCROLL_PH)
              (tileY (cam g) + SCROLL_TH) g Hg Hx Hy) as (new1 & Hs & _).
  rewrite Hs in Hcall. cbn [cam bgBufferOld bgBufferNew display_buffer] in Hcall.
  rewrite Hx in Hcall.
  eapply (scroll_y_calls tileArray px py g SCROLL_TH); [exact Hcall| |lia].
  apply (course_y _ _ _ _ _ 58); [lia|exact W3|]. left. auto.
Qed.

Lemma scroll_takes_59_calls_witness :
  exists g',
    updateCamera_n World.map_left_then_up 8 0 59 still_example = Some g' /\
    at_rest (cam g') 15 0 /\
    bgBufferOld g' = bgBufferNew still_example.
Proof.
  destruct (scroll_takes_59_calls World.map_left_then_up 8 0 15 0 still_example)
    as [_ Hlast].
  - exact still_example_inv.
  - reflexivity.
  - reflexivity.
  - reflexivity.
  - exact Hlast.
Defined.

(** X20: with the camera at rest and the player inside the edges of the
    view (less than [DISPLAY_TW / 2 - 2] tiles right of the camera tile
    and at most that many left of it, and likewise with
    [DISPLAY_TH / 2 - 2] vertically), [updateCamera] changes nothing: no
    scroll starts and the views are not redrawn. *)
Theorem updateCamera_idle (tileArray : list World.Tile) (px py : Z) (g : Game) :
  destTileX (cam g) = tileX (cam g) -> destTileY (cam g) = tileY (cam g) ->
  - (DISPLAY_TW ÷ 2 - 2) <= px - tileX (cam g) < DISPLAY_TW ÷ 2 - 2 ->
  - (DISPLAY_TH ÷ 2 - 2) <= py - tileY (cam g) < DISPLAY_TH ÷ 2 - 2 ->
  scroll_target (tileX (cam g)) (tileY (cam g)) px py = None /\
  updateCamera tileArray px py g = Some g.
Proof.
  intros Hx Hy Hpx Hpy. unfold scroll_target, updateCamera. cbv zeta.
  rewrite Hx, Hy, !Z.eqb_refl. cbn [andb].
  destruct (Z.ltb_spec (px - tileX (cam g)) (- (DISPLAY_TW ÷ 2 - 2))); [lia|].
  destruct (Z.leb_spec (DISPLAY_TW ÷ 2 - 2) (px - tileX (cam g))); [lia|].
  destruct (Z.ltb_spec (py - tileY (cam g)) (- (DISPLAY_TH ÷ 2 - 2))); [lia|].
  destruct (Z.leb_spec (DISPLAY_TH ÷ 2 - 2) (py - tileY (cam g))); [lia|].
  split; [reflexivity|].
  unfold camera_move. rewrite Hx, Hy, !Z.eqb_refl. cbn [negb].
  destruct g. reflexivity.
Qed.

Lemma updateCamera_idle_witness :
  scroll_target (tileX (cam still_example)) (tileY (cam still_example)) 7 (-3) = None /\
  updateCamera World.map_left_then_up 7 (-3) still_example = Some still_example.
Proof.
  apply (updateCamera_idle World.map_left_then_up 7 (-3) still_example).
  - reflexivity.
  - reflexivity.
  - vm_compute. split; [discriminate|reflexivity].
  - vm_compute. split; [discriminate|reflexivity].
Defined.

(** *** The ripples on the display *)

Lemma for_loop_last {S : Type} (body : Z -> S -> option S) (n : nat) :
  forall (i : Z) (s s' : S),
    for_loop (Datatypes.S n) i body s = Some s' ->
    exists t, for_loop n i body s = Some t /\ body (i + Z.of_nat n) t = Some s'.
Proof.
  induction n as [|n IH]; intros i s s' Hrun.
  - cbn [for_loop] in Hrun. destruct (body i s) as [t|] eqn:Hb; [|discriminate].
    injection Hrun as <-. exists s. split; [reflexivity|].
    replace (i + Z.of_nat 0) with i by lia. exact Hb.
  - change (for_loop (Datatypes.S (Datatypes.S n)) i body s)
      with (match body i s with
            | Some u => for_loop (Datatypes.S n) (i + 1) body u
            | None => None
            end) in Hrun.
    destruct (body i s) as [u|] eqn:Hb; [|discriminate].
    destruct (IH (i + 1) u s' Hrun) as (t & Ht & Hlast).
    exists t. split.
    + cbn [for_loop]. rewrite Hb. exact Ht.
    + replace (i + Z.of_nat (Datatypes.S n)) with (i + 1 + Z.of_nat n) by lia. exact Hlast.
Qed.

Lemma for_loop_first {S : Type} (body : Z -> S -> option S) (n : nat) (i : Z) (s s' : S) :
  for_loop (Datatypes.S n) i body s = Some s' -> exists t, body i s = Some t.
Proof.
  cbn [for_loop]. destruct (body i s) as [t|]; [eauto|discriminate].
Qed.

(** The inner loop of the blit keeps the size of the display. *)
Lemma blit_row_length (bitmap : Bitmap) (dest : Z) (n : nat) :
  forall (i : Z) (display display' : list Z) (src src' : Z),
    for_loop n i
      (fun x '(display, src) =>
         match load display (dest + x) with
         | None => None
         | Some d =>
             if negb (d =? gold) && negb (d =? black) then
               match load (data bitmap) src with
               | None => None
               | Some s =>
                   match store display (dest + x) (applyColor s d) with
                   | Some display' => Some (display', src + 1)
                   | None => None
                   end
               end
             else Some (display, src + 1)
         end) (display, src) = Some (display', src') ->
    length display' = length display.
Proof.
  induction n as [|n IH]; intros i display display' src src' Hrun.
  - injection Hrun as <- _. reflexivity.
  - cbn [for_loop] in Hrun.
    destruct (load display (dest + i)) as [d|]; [|discriminate].
    destruct (negb (d =? gold) && negb (d =? black)).
    + destruct (load (data bitmap) src) as [s|]; [|discriminate].
      unfold store in Hrun.
      destruct ((0 <=? dest + i) && (dest + i <? Z.of_nat (length display))); [|discriminate].
      rewrite (IH _ _ _ _ _ Hrun), length_insert. reflexivity.
    + exact (IH _ _ _ _ _ Hrun).
Qed.

Lemma for_loop_run {S : Type} (I : Z -> S -> Prop) (body : Z -> S -> option S) :
  (forall j t t', body j t = Some t' -> I j t -> I (j + 1) t') ->
  forall (n : nat) (i : Z) (s s' : S),
    for_loop n i body s = Some s' -> I i s -> I (i + Z.of_nat n) s'.
Proof.
  intros Hbody. induction n as [|n IH]; intros i s s' Hrun Hs.
  - injection Hrun as <-. replace (i + Z.of_nat 0) with i by lia. exact Hs.
  - cbn [for_loop] in Hrun. destruct (body i s) as [t|] eqn:Hb; [|discriminate].
    replace (i + Z.of_nat (Datatypes.S n)) with (i + 1 + Z.of_nat n) by lia.
    apply (IH (i + 1) t s' Hrun). apply (Hbody i s t Hb Hs).
Qed.

Lemma load_bounds (buf : list Z) (k v : Z) :
  load buf k = Some v -> 0 <= k < Z.of_nat (length buf).
Proof.
  unfold load. destruct (Z.ltb_spec k 0) as [Hk|Hk]; [discriminate|]. intros Hv.
  apply lookup_lt_Some in Hv. lia.
Qed.

(** The blit with every access inside the two arrays. *)
Lemma ripple_blit_inside (bitmap : Bitmap) (screenX screenY : Z) (display : list Z) :
  well_formed bitmap ->
  0 <= screenY * DISPLAY_PW + screenX ->
  (screenY + height bitmap - 1) * DISPLAY_PW + screenX + width bitmap - 1
  < Z.of_nat (length display) ->
  exists display',
    ripple_blit bitmap screenX screenY display = Some display' /\
    length display' = length display.
Proof.
  intros (Hw & Hh & Hlen) Hlo Hhi. unfold ripple_blit.
  set (w := width bitmap) in *. set (h := height bitmap) in *.
  set (base := screenY * DISPLAY_PW + screenX) in *.
  assert (HPW : DISPLAY_PW = 960) by reflexivity.
  match goal with
  | |- context [for_range 0 h ?body ?s] =>
      destruct (for_range_inv
                  (fun y '(disp, src, dest) =>
                     length disp = length display /\ src = y * w /\
                     dest = base + y * DISPLAY_PW)
                  body 0 h s) as ([[disp src] dest] & Hrun & Hl & _)
  end.
  - lia.
  - repeat split; lia.
  - intros y [[disp src] dest] Hy (Hl & -> & ->).
    match goal with
    | |- context [for_range 0 w ?body ?s] =>
        destruct (for_range_inv
                    (fun x '(disp, src) =>
                       length disp = length display /\ src = y * w + x)
                    body 0 w s) as ([disp' src'] & Hrun & Hl' & ->)
    end.
    + lia.
    + split; [exact Hl|lia].
    + intros x [disp1 src1] Hx (Hl1 & ->).
      assert (Hidx : 0 <= base + y * DISPLAY_PW + x < Z.of_nat (length disp1)).
      { rewrite Hl1. subst base. rewrite HPW in *. nia. }
      destruct (load_is_Some disp1 _ Hidx) as [d ->].
      destruct (negb (d =? gold) && negb (d =? black)).
      * destruct (load_is_Some (data bitmap) (y * w + x)) as [s ->]; [nia|].
        rewrite store_Some by exact Hidx.
        eexists (_, _). split; [reflexivity|].
        split; [rewrite length_insert; exact Hl1|lia].
      * eexists (_, _). split; [reflexivity|]. split; [exact Hl1|lia].
    + rewrite Hrun. eexists (_, _, _). split; [reflexivity|].
      split; [exact Hl'|]. split; lia.
  - rewrite Hrun. exists disp. split; [reflexivity|exact Hl].
Qed.

(** A blit that returns has made its first and its last access inside
    the display. *)
Lemma ripple_blit_returns (bitmap : Bitmap) (screenX screenY : Z) (display display' : list Z) :
  0 < width bitmap -> 0 < height bitmap ->
  ripple_blit bitmap screenX screenY display = Some display' ->
  0 <= screenY * DISPLAY_PW + screenX /\
  (screenY + height bitmap - 1) * DISPLAY_PW + screenX + width bitmap - 1
  < Z.of_nat (length display).
Proof.
  intros Hw Hh. unfold ripple_blit.
  set (w := width bitmap) in *. set (h := height bitmap) in *.
  set (base := screenY * DISPLAY_PW + screenX) in *.
  set (inner := fun dest x '(display, src) =>
                  match load display (dest + x) with
                  | None => None
                  | Some d =>
                      if negb (d =? gold) && negb (d =? black) then
                        match load (data bitmap) src with
                        | None => None
                        | Some s =>
                            match store display (dest + x) (applyColor s d) with
                            | Some display' => Some (display', src + 1)
                            | None => None
                            end
                        end
                      else Some (display, src + 1)
                  end).
  set (outer := fun (y : Z) '(display, src, dest) =>
                  match for_range 0 w (inner dest) (display, src) with
                  | Some (display', src') => Some (display', src', dest + DISPLAY_PW)
                  | None => None
                  end).
  change (match for_range 0 h outer (display, 0, base) with
          | Some (display', _, _) => Some display'
          | None => None
          end = Some display' -> 0 <= base /\ (screenY + h - 1) * DISPLAY_PW + screenX + w - 1
                                                < Z.of_nat (length display)).
  destruct (for_range 0 h outer (display, 0, base)) as [[[dispN srcN] destN]|] eqn:Hrun;
    [|discriminate].
  intros _. unfold for_range in Hrun.
  assert (Hhn : Z.to_nat (h - 0) = Datatypes.S (Z.to_nat (h - 1))) by lia.
  assert (Hwn : Z.to_nat (w - 0) = Datatypes.S (Z.to_nat (w - 1))) by lia.
  rewrite Hhn in Hrun.
  assert (Hrow : forall dest disp src disp' src',
             for_range 0 w (inner dest) (disp, src) = Some (disp', src') ->
             length disp' = length disp /\
             0 <= dest /\ dest + w - 1 < Z.of_nat (length disp)).
  { intros dest disp src disp' src' Hr. unfold for_range in Hr.
    pose proof (blit_row_length bitmap dest _ _ _ _ _ _ Hr) as Hl.
    split; [exact Hl|]. rewrite Hwn in Hr. split.
    - destruct (for_loop_first _ _ _ _ _ Hr) as [t Ht]. unfold inner in Ht.
      destruct (load disp (dest + 0)) as [d|] eqn:Hd; [|discriminate].
      apply load_bounds in Hd. lia.
    - destruct (for_loop_last _ _ _ _ _ Hr) as ([dispt srct] & Hpre & Hlast).
      pose proof (blit_row_length bitmap dest _ _ _ _ _ _ Hpre) as Hlt.
      unfold inner in Hlast.
      destruct (load dispt (dest + (0 + Z.of_nat (Z.to_nat (w - 1))))) as [d|] eqn:Hd;
        [|discriminate].
      apply load_bounds in Hd. lia. }
  split.
  - destruct (for_loop_first _ _ _ _ _ Hrun) as [[[d1 s1] e1] Ht]. unfold outer in Ht.
    destruct (for_range 0 w (inner base) (display, 0)) as [[d2 s2]|] eqn:Hr; [|discriminate].
    destruct (Hrow _ _ _ _ _ Hr) as (_ & H0 & _). exact H0.
  - destruct (for_loop_last _ _ _ _ _ Hrun) as ([[dispt srct] destt] & Hpre & Hlast).
    set (I := fun (y : Z) (t : list Z * Z * Z) =>
                length (fst (fst t)) = length display /\
                snd t = base + y * DISPLAY_PW).
    assert (Hstep : forall j t t', outer j t = Some t' -> I j t -> I (j + 1) t').
    { intros j [[d1 s1] e1] [[d2 s2] e2] Hb [Hl1 He1]. cbn [fst snd] in *. subst e1.
      unfold outer in Hb.
      destruct (for_range 0 w (inner (base + j * DISPLAY_PW)) (d1, s1)) as [[d3 s3]|] eqn:Hr;
        [|discriminate].
      injection Hb as <- _ <-. destruct (Hrow _ _ _ _ _ Hr) as (Hl3 & _).
      split; cbn [fst snd]; [congruence|lia]. }
    assert (Hinv : I (0 + Z.of_nat (Z.to_nat (h - 1))) (dispt, srct, destt)).
    { apply (for_loop_run I outer Hstep _ _ _ _ Hpre). split; cbn [fst snd]; [reflexivity|lia]. }
    destruct Hinv as [Hlt Hdt]. cbn [fst snd] in Hlt, Hdt. subst destt.
    unfold outer in Hlast.
    match type of Hlast with
    | match for_range 0 w (inner ?d) ?s with _ => _ end = _ =>
        destruct (for_range 0 w (inner d) s) as [[d3 s3]|] eqn:Hr; [|discriminate]
    end.
    destruct (Hrow _ _ _ _ _ Hr) as (_ & _ & Hhi). rewrite Hlt in Hhi.
    subst base. lia.
Qed.

(** X21: the blit of a ripple by [animateRipple] stays inside the display
    buffer exactly when the first and the last cell of the ripple's
    rectangle, counted from [(screenX, screenY)] in rows of [DISPLAY_PW],
    lie in it; the loop has no clipping. *)
Theorem ripple_blit_bounds (bitmap : Bitmap) (screenX screenY : Z) (display : list Z) :
  well_formed bitmap -> 0 < width bitmap -> 0 < height bitmap ->
  ((exists display', ripple_blit bitmap screenX screenY display = Some display') <->
   0 <= screenY * DISPLAY_PW + screenX /\
   (screenY + height bitmap - 1) * DISPLAY_PW + screenX + width bitmap - 1
   < Z.of_nat (length display)) /\
  (forall display', ripple_blit bitmap screenX screenY display = Some display' ->
     length display' = length display).
Proof.
  intros Hwf Hw Hh. split; [split|].
  - intros [display' Hrun]. exact (ripple_blit_returns _ _ _ _ _ Hw Hh Hrun).
  - intros [Hlo Hhi].
    destruct (ripple_blit_inside bitmap screenX screenY display Hwf Hlo Hhi) as (d & Hd & _).
    exists d. exact Hd.
  - intros display' Hrun.
    destruct (ripple_blit_returns _ _ _ _ _ Hw Hh Hrun) as [Hlo Hhi].
    destruct (ripple_blit_inside bitmap screenX screenY display Hwf Hlo Hhi) as (d & Hd & Hl).
    congruence.
Qed.

Lemma ripple_blit_bounds_witness :
  ((exists display', ripple_blit (mkBitmap [1; 2; 3; 4; 5; 6] 3 2) 957 538
                                 (replicate npixels 0) = Some display') <->
   0 <= 538 * DISPLAY_PW + 957 /\
   (538 + 2 - 1) * DISPLAY_PW + 957 + 3 - 1 < Z.of_nat (length (replicate npixels 0))) /\
  (forall display', ripple_blit (mkBitmap [1; 2; 3; 4; 5; 6] 3 2) 957 538
                                (replicate npixels 0) = Some display' ->
     length display' = length (replicate npixels 0)).
Proof.
  apply (ripple_blit_bounds (mkBitmap [1; 2; 3; 4; 5; 6] 3 2) 957 538 (replicate npixels 0)).
  - repeat split; discriminate.
  - reflexivity.
  - reflexivity.
Defined.

(** X22: the ripple that [processInput] spawns at tile [(10, 10)] when the
    R key goes down, animated while the camera is at rest on the start
    tile [(0, 0)]: [animateRipple] places its 100 by 100 bitmap at
    [(934, 694)], below the 540 rows of the display, and the blit leaves
    the display buffer at its very first access. *)
Theorem ripple_at_10_10_leaves_display (bitmap : Bitmap) (display : list Z) (c : Camera) :
  well_formed bitmap -> width bitmap = 100 -> height bitmap = 100 ->
  display_sized display ->
  tileX c = 0 -> tileY c = 0 -> pixelX c = 0%Q -> pixelY c = 0%Q ->
  ripple_screen (width bitmap) (height bitmap) 10 10 c = (934, 694) /\
  ripple_blit bitmap 934 694 display = None.
Proof.
  intros Hwf Hw Hh Hdisp HtX HtY HpX HpY. split.
  - unfold ripple_screen. rewrite Hw, Hh, HtX, HtY, HpX, HpY. vm_compute. reflexivity.
  - destruct (ripple_blit bitmap 934 694 display) as [display'|] eqn:Hrun; [|reflexivity].
    exfalso.
    destruct (ripple_blit_returns bitmap 934 694 display display') as [_ Hhi];
      [lia..|exact Hrun|].
    unfold display_sized in Hdisp. rewrite Hdisp, Hw, Hh in Hhi.
    unfold DISPLAY_PW, DISPLAY_PH in Hhi. lia.
Qed.

Lemma ripple_at_10_10_leaves_display_witness :
  ripple_screen 100 100 10 10 (mkCamera 0 0 0 0 0 0 0 0 0 0) = (934, 694) /\
  ripple_blit (mkBitmap (calloc 10000) 100 100) 934 694 (replicate npixels 0) = None.
Proof.
  apply (ripple_at_10_10_leaves_display (mkBitmap (calloc 10000) 100 100)
           (replicate npixels 0) (mkCamera 0 0 0 0 0 0 0 0 0 0)).
  - unfold well_formed, calloc. cbn [width height data]. rewrite length_replicate. lia.
  - reflexivity.
  - reflexivity.
  - unfold display_sized. rewrite length_replicate. apply ScrollProofs.npixels_Z.
  - reflexivity.
  - reflexivity.
  - reflexivity.
  - reflexivity.
Defined.

End ScrollFrames.
